(** * Near-duplicate detection and clustering

    A shallow embedding of the clustering module of news-db-pure-analysis:
    - [src/clustering/simhash.ts]    (FNV-1a, SimHash, fast Hamming distance,
                                      match classification),
    - [src/clustering/similarity.ts] (validated Hamming distance),
    - [src/clustering/grouper.ts]    (greedy center-comparison grouping).

    JavaScript strings are sequences of UTF-16 code units; a string is
    modelled as the list of its code units, so that [str.length] is the
    length of the list and [str.charCodeAt(i)] is its i-th element.
    BigInt values and the integer-valued numbers of the module are [Z];
    the one number that is the result of a rounding division, the average
    distance of a group, is the double the division gives, written as a
    rational.  Two built-ins are taken as given: [toLowerCase], and the
    order [Array.prototype.sort] gives to an array on which the comparator
    is not consistent. *)

From Stdlib Require Import ZArith Lia QArith Qabs Qpower String Ascii DecimalString.
From Stdlib Require Import Permutation Sorted.
From stdpp Require Import gmap list.

Local Open Scope Z_scope.

(** ** Strings *)

Abbreviation jsstring := (list Z).

(** An ASCII literal as a JavaScript string. *)
Definition js (s : string) : jsstring :=
  map (fun a => Z.of_N (N_of_ascii a)) (list_ascii_of_string s).

(** ** Outcomes of a call *)

Inductive error : Type :=
| FormatError   (* Error("Hashes must be 16-character hex strings") *)
| SyntaxError   (* BigInt(...) on a string that is no integer literal *)
| TypeError.    (* a reference that is not the array the types promise *)

(** [OutOfFuel] is the outcome of a [while] loop of the model that was not
    given enough iterations; the theorems show it is never produced. *)
Inductive result (A : Type) : Type :=
| Ok (a : A)
| Throw (e : error)
| OutOfFuel.
Arguments Ok {A} a.
Arguments Throw {A} e.
Arguments OutOfFuel {A}.

Definition result_bind {A B} (r : result A) (k : A -> result B) : result B :=
  match r with
  | Ok a => k a
  | Throw e => Throw e
  | OutOfFuel => OutOfFuel
  end.

Notation "'do' x <- r ; k" := (result_bind r (fun x => k))
  (at level 10, x name, r at level 100, k at level 200).

(** ** Character classes of the regular expressions and of the parsers *)

Definition in_range (lo hi c : Z) : bool := (lo <=? c) && (c <=? hi).

(** [\w] without the [i] and [u] flags: [[A-Za-z0-9_]]. *)
Definition is_word_char (c : Z) : bool :=
  in_range 48 57 c || in_range 65 90 c || in_range 97 122 c || (c =? 95).

(** [\s], which is also the white space trimmed by [parseInt] and [BigInt]:
    TAB, LF, VT, FF, CR, SP, NBSP, U+1680, U+2000..U+200A, U+2028, U+2029,
    U+202F, U+205F, U+3000, U+FEFF. *)
Definition is_space_char (c : Z) : bool :=
  in_range 9 13 c || (c =? 32) || (c =? 160) || (c =? 5760)
  || in_range 8192 8202 c || (c =? 8232) || (c =? 8233) || (c =? 8239)
  || (c =? 8287) || (c =? 12288) || (c =? 65279).

Definition is_hex_char (c : Z) : bool :=
  in_range 48 57 c || in_range 97 102 c || in_range 65 70 c.

(** The value of a hexadecimal digit. *)
Definition hex_value (c : Z) : Z :=
  if in_range 48 57 c then c - 48
  else if in_range 97 102 c then c - 87
  else c - 55.

(** The mathematical value of a run of hexadecimal digits. *)
Definition hex_number (s : jsstring) : Z :=
  fold_left (fun v c => v * 16 + hex_value c) s 0.

(** ** simhash.ts: the hash primitive *)

Definition FNV_OFFSET_BASIS : Z := 14695981039346656037.
Definition FNV_PRIME : Z := 1099511628211.
Definition MASK_64 : Z := Z.shiftl 1 64 - 1.

(** [fnv1a64]: the loop over [i = 0 .. str.length - 1] is a left fold over
    the code units. *)
Definition fnv1a64 (str : jsstring) : Z :=
  fold_left
    (fun hash c => Z.land (Z.lxor hash c * FNV_PRIME) MASK_64)
    str FNV_OFFSET_BASIS.

(** ** simhash.ts: tokenization and the fingerprint *)

(** [.replace(/[^\w\s]/g, ' ')] *)
Definition replace_non_word (s : jsstring) : jsstring :=
  map (fun c => if is_word_char c || is_space_char c then c else 32) s.

(** [.split(/\s+/)]: the pieces between maximal runs of white space, with
    an empty piece before a leading run and after a trailing one; the empty
    string splits into one empty piece.  [cur] is the current piece,
    reversed; [sep] tells that the previous code unit was white space. *)
Fixpoint split_spaces (s cur : jsstring) (sep : bool) : list jsstring :=
  match s with
  | [] => [rev cur]
  | c :: r =>
      if is_space_char c
      then (if sep then split_spaces r [] true
            else rev cur :: split_spaces r [] true)
      else split_spaces r (c :: cur) false
  end.

(** The body of the inner loop of [computeSimHash]:
    [bit = Number((hash >> BigInt(i)) & 1n); vector[i] += bit === 1 ? 1 : -1]. *)
Definition vote_step (hash : Z) (vector : list Z) (i : nat) : list Z :=
  let bit := Z.land (Z.shiftr hash (Z.of_nat i)) 1 in
  <[i := (vector !!! i) + (if bit =? 1 then 1 else -1)]> vector.

(** The inner loop [for i in 0..63] for one token. *)
Definition vote (hash : Z) (vector : list Z) : list Z :=
  fold_left (vote_step hash) (seq 0 64) vector.

(** The body of the second loop:
    [if (vector[i] > 0) fingerprint |= 1n << BigInt(i)]. *)
Definition collapse_step (vector : list Z) (fingerprint : Z) (i : nat) : Z :=
  if (vector !!! i) >? 0
  then Z.lor fingerprint (Z.shiftl 1 (Z.of_nat i))
  else fingerprint.

(** The second loop: set bit [i] where the vote is strictly positive. *)
Definition collapse (vector : list Z) : Z :=
  fold_left (collapse_step vector) (seq 0 64) 0.

Definition hex_digit (d : Z) : Z := if d <? 10 then 48 + d else 87 + d.

Fixpoint to_hex_loop (fuel : nat) (n : Z) (acc : jsstring) : jsstring :=
  match fuel with
  | O => acc
  | S fuel' =>
      let acc' := hex_digit (n mod 16) :: acc in
      if n <? 16 then acc' else to_hex_loop fuel' (n / 16) acc'
  end.

(** [n.toString(16)] for a BigInt [n >= 0]: lowercase digits, no leading
    zero, ["0"] for zero. *)
Definition toString16 (n : Z) : jsstring :=
  to_hex_loop (S (Z.to_nat (Z.log2 n))) n [].

(** [s.padStart(len, c)] *)
Definition padStart (s : jsstring) (len : nat) (c : Z) : jsstring :=
  replicate (len - length s) c ++ s.

Definition ZERO_FINGERPRINT : jsstring := js "0000000000000000".

Section Tokenizer.

(** [String.prototype.toLowerCase] is a built-in that follows the Unicode
    case mappings; the embedding takes it as given. *)
Variable toLowerCase : jsstring -> jsstring.

Definition tokenize (text : jsstring) (minLength : Z) : list jsstring :=
  List.filter (fun word => minLength <=? Z.of_nat (length word))
    (split_spaces (replace_non_word (toLowerCase text)) [] false).

Definition computeSimHash (text : jsstring) : jsstring :=
  let tokens := tokenize text 2 in
  if Nat.eqb (length tokens) 0 then ZERO_FINGERPRINT
  else
    let vector :=
      fold_left (fun v token => vote (fnv1a64 token) v)
        tokens (replicate 64 0) in
    padStart (toString16 (collapse vector)) 16 48.

End Tokenizer.

(** ASCII lower-casing: what [toLowerCase] does on strings of code units
    below 128.  It instantiates the tokenizer on concrete inputs. *)
Definition ascii_lower (s : jsstring) : jsstring :=
  map (fun c => if in_range 65 90 c then c + 32 else c) s.

(** ** simhash.ts: the fast-path comparator *)

(** [while (xor > 0) { count += xor & 1; xor >>= 1 }], the same loop on
    BigInt in [hammingDistance] and on 32-bit integers in
    [calculateHammingDistance]. *)
Fixpoint count_loop (fuel : nat) (xor count : Z) : option Z :=
  match fuel with
  | O => None
  | S fuel' =>
      if xor >? 0
      then count_loop fuel' (Z.shiftr xor 1) (count + Z.land xor 1)
      else Some count
  end.

Definition loop_fuel (xor : Z) : nat := Z.to_nat (Z.log2 xor) + 2.

Definition run_count_loop (xor count : Z) : result Z :=
  match count_loop (loop_fuel xor) xor count with
  | Some c => Ok c
  | None => OutOfFuel
  end.

Fixpoint drop_spaces (s : jsstring) : jsstring :=
  match s with
  | c :: r => if is_space_char c then drop_spaces r else s
  | [] => []
  end.

Definition trimStart (s : jsstring) : jsstring := drop_spaces s.
Definition trimEnd (s : jsstring) : jsstring := rev (drop_spaces (rev s)).

(** [BigInt('0x' + a)].  The argument of [BigInt] is trimmed, which removes
    white space at the end of [a] (the front is ['0']); what remains after
    ["0x"] must be one or more hexadecimal digits, else a SyntaxError is
    thrown. *)
Definition BigInt_0x (a : jsstring) : option Z :=
  let digits := trimEnd a in
  if negb (Nat.eqb (length digits) 0) && forallb is_hex_char digits
  then Some (hex_number digits)
  else None.

Definition hammingDistance (a b : jsstring) : result Z :=
  match BigInt_0x a with
  | None => Throw SyntaxError
  | Some valA =>
      match BigInt_0x b with
      | None => Throw SyntaxError
      | Some valB => run_count_loop (Z.lxor valA valB) 0
      end
  end.

Definition isNearDuplicate (a b : jsstring) (threshold : Z) : result bool :=
  do d <- hammingDistance a b; Ok (d <=? threshold).

Inductive match_type : Type := exact | near | similar | different.

Definition getMatchType (distance : Z) : match_type :=
  if distance =? 0 then exact
  else if distance <=? 3 then near
  else if distance <=? 10 then similar
  else different.

(** ** similarity.ts: the validated comparator *)

(** [parseInt(s, 16)]: trim leading white space, read a sign, skip a
    ["0x"] or ["0X"] prefix, take the longest run of hexadecimal digits;
    [None] is NaN (no digit). *)
Fixpoint hex_prefix (s : jsstring) : jsstring :=
  match s with
  | c :: r => if is_hex_char c then c :: hex_prefix r else []
  | [] => []
  end.

Definition parseInt16 (s : jsstring) : option Z :=
  let s1 := trimStart s in
  let '(sign, s2) :=
    match s1 with
    | c :: r =>
        if c =? 45 then (-1, r)          (* '-' *)
        else if c =? 43 then (1, r)      (* '+' *)
        else (1, s1)
    | [] => (1, s1)
    end in
  let s3 :=
    match s2 with
    | c1 :: c2 :: r =>                   (* "0x" or "0X" *)
        if (c1 =? 48) && ((c2 =? 120) || (c2 =? 88)) then r else s2
    | _ => s2
    end in
  let digits := hex_prefix s3 in
  if Nat.eqb (length digits) 0 then None
  else Some (sign * hex_number digits).

(** ToInt32, applied by [^] to its operands; NaN becomes 0. *)
Definition toInt32 (v : option Z) : Z :=
  match v with
  | None => 0
  | Some n => (n + 2 ^ 31) mod 2 ^ 32 - 2 ^ 31
  end.

(** [s.substring(i, j)] for [0 <= i <= j]. *)
Definition substring (s : jsstring) (i j : nat) : jsstring :=
  take (j - i) (drop i s).

(** One round of the loop [for (i = 0; i < 16; i += 4)]. *)
Definition chunk_distance (hashA hashB : jsstring) (distance : Z) (i : nat)
  : result Z :=
  let valA := parseInt16 (substring hashA i (i + 4)) in
  let valB := parseInt16 (substring hashB i (i + 4)) in
  let xor := Z.lxor (toInt32 valA) (toInt32 valB) in
  run_count_loop xor distance.

Definition calculateHammingDistance (hashA hashB : jsstring) : result Z :=
  if negb (Nat.eqb (length hashA) 16) || negb (Nat.eqb (length hashB) 16)
  then Throw FormatError
  else
    fold_left
      (fun acc i => do distance <- acc; chunk_distance hashA hashB distance i)
      [0; 4; 8; 12]%nat (Ok 0).

(** ** Numbers

    A JavaScript number is an IEEE 754 double.  The integers of the module
    (distances, counts, totals, time values) are doubles themselves and
    are [Z]; the one operation of the grouping that rounds is the division
    that gives the average distance.  A finite double is written as the
    rational it is. *)

(** The integer nearest to [n / d] for [d > 0], a tie going to the even
    one (roundTiesToEven). *)
Definition round_ties_even (n d : Z) : Z :=
  let m := n / d in
  let r := n mod d in
  if 2 * r <? d then m
  else if d <? 2 * r then m + 1
  else if Z.even m then m else m + 1.

(** [a / b] on doubles, for integers [0 <= a] and [0 < b] below 2^53: the
    quotient rounded to 53 significant bits.  [k] is the scale that puts
    the significand [a * 2^k / b] in [2^52, 2^53); the result is the
    rounded significand times [2^-k].  Quotients of such integers lie
    between 2^-53 and 2^53, inside the exponent range of doubles. *)
Definition Number_div (a b : Z) : Q :=
  if a =? 0 then 0%Q
  else
    let k0 := 52 + Z.log2 b - Z.log2 a in
    let k :=
      if 2 ^ 52 * (b * 2 ^ Z.max 0 (- k0)) <=? a * 2 ^ Z.max 0 k0
      then k0 else k0 + 1 in
    let n := a * 2 ^ Z.max 0 k in
    let d := b * 2 ^ Z.max 0 (- k) in
    Qred ((round_ties_even n d * 2 ^ Z.max 0 (- k)) # Z.to_pos (2 ^ Z.max 0 k)).

(** ** types.ts and grouper.ts: the data *)

(** [ArticleInput].  The field [publishedAt] is a string or a Date; the
    module reads it only as [new Date(publishedAt).getTime()], and the
    record holds that time value: [Some t] for a date, [t] milliseconds
    from the epoch, and [None] for the NaN of a string that is no date or
    of an invalid Date. *)
Module ArticleInput.
Record t : Type := make {
  id : jsstring;
  content : option jsstring;
  headline : jsstring;
  simHash : jsstring;
  publishedAt : option Z;
  sourceDomain : jsstring
}.
End ArticleInput.

(** [ArticleGroup].  [averageDistance] is a double. *)
Module ArticleGroup.
Record t : Type := make {
  id : jsstring;
  centerArticleId : jsstring;
  memberIds : list jsstring;
  averageDistance : Q
}.
End ArticleGroup.

(** ** grouper.ts: sorting *)

(** [SortCompare] of [Array.prototype.sort]: the number the comparator
    returns, a NaN counting as +0.  [None] is NaN. *)
Definition SortCompare {A} (comparefn : A -> A -> option Z) (x y : A) : Z :=
  match comparefn x y with
  | Some v => v
  | None => 0
  end.

(** For a consistent comparator [Array.prototype.sort] is a stable sort
    (ECMAScript 2019): elements that compare equal keep their order, so
    the result is determined.  It is modelled by insertion from the right,
    which is stable. *)
Fixpoint sort_insert {A} (comparefn : A -> A -> option Z) (a : A) (l : list A)
  : list A :=
  match l with
  | [] => [a]
  | b :: r =>
      if SortCompare comparefn a b <=? 0 then a :: l
      else b :: sort_insert comparefn a r
  end.

Definition Array_sort {A} (comparefn : A -> A -> option Z) (l : list A)
  : list A :=
  foldr (sort_insert comparefn) [] l.

(** [(a, b) => new Date(b.publishedAt).getTime() - new Date(a.publishedAt).getTime()]:
    NaN when one of the time values is NaN.  The difference of two time
    values is exact below 2^53 and keeps its sign above, and the sort
    reads the sign only. *)
Definition newest_first (a b : ArticleInput.t) : option Z :=
  match ArticleInput.publishedAt b, ArticleInput.publishedAt a with
  | Some tb, Some ta => Some (tb - ta)
  | _, _ => None
  end.

Definition has_date (a : ArticleInput.t) : bool :=
  match ArticleInput.publishedAt a with
  | Some _ => true
  | None => false
  end.

(** ** grouper.ts: the greedy grouping *)

(** [`cluster-${n}`] *)
Definition cluster_id (n : nat) : jsstring :=
  js ("cluster-" ++ NilZero.string_of_uint (Nat.to_uint n)).

(** The inner loop [for (const candidate of sorted)], on the state
    [group.memberIds], [assigned], [totalDistance]. *)
Fixpoint scan_candidates (article : ArticleInput.t) (threshold : Z)
    (candidates : list ArticleInput.t)
    (memberIds : list jsstring) (assigned : gset jsstring) (totalDistance : Z)
  : result (list jsstring * gset jsstring * Z) :=
  match candidates with
  | [] => Ok (memberIds, assigned, totalDistance)
  | candidate :: rest =>
      if bool_decide (ArticleInput.id candidate = ArticleInput.id article)
         || bool_decide (ArticleInput.id candidate ∈ assigned)
      then scan_candidates article threshold rest memberIds assigned totalDistance
      else
        do distance <- calculateHammingDistance
                         (ArticleInput.simHash article)
                         (ArticleInput.simHash candidate);
        if distance <=? threshold
        then scan_candidates article threshold rest
               (memberIds ++ [ArticleInput.id candidate])
               ({[ArticleInput.id candidate]} ∪ assigned)
               (totalDistance + distance)
        else scan_candidates article threshold rest
               memberIds assigned totalDistance
  end.

(** [totalDistance / (group.memberIds.length - 1)] when there is a member
    besides the center, else the initial 0. *)
Definition average (memberIds : list jsstring) (totalDistance : Z) : Q :=
  if (1 <? length memberIds)%nat
  then Number_div totalDistance (Z.of_nat (length memberIds) - 1)
  else 0%Q.

(** The outer loop [for (const article of sorted)], on the state [groups],
    [assigned]. *)
Fixpoint build_groups (sorted : list ArticleInput.t) (threshold : Z)
    (todo : list ArticleInput.t)
    (groups : list ArticleGroup.t) (assigned : gset jsstring)
  : result (list ArticleGroup.t) :=
  match todo with
  | [] => Ok groups
  | article :: rest =>
      if bool_decide (ArticleInput.id article ∈ assigned)
      then build_groups sorted threshold rest groups assigned
      else
        do st <- scan_candidates article threshold sorted
                   [ArticleInput.id article] assigned 0;
        let '(memberIds, assigned', totalDistance) := st in
        let group :=
          ArticleGroup.make
            (cluster_id (length groups + 1))
            (ArticleInput.id article)
            memberIds
            (average memberIds totalDistance) in
        build_groups sorted threshold rest
          (groups ++ [group]) ({[ArticleInput.id article]} ∪ assigned')
  end.

(** ** The store

    Arrays are objects held by reference.  The store maps references to
    array objects. *)

Inductive object : Type :=
| ArticleArray (l : list ArticleInput.t)
| GroupArray (l : list ArticleGroup.t).

Abbreviation ref := positive.
Abbreviation store := (gmap positive object).

Definition M (A : Type) : Type := store -> result A * store.

Definition ret {A} (a : A) : M A := fun h => (Ok a, h).

Definition bind {A B} (m : M A) (k : A -> M B) : M B :=
  fun h =>
    match m h with
    | (Ok a, h') => k a h'
    | (Throw e, h') => (Throw e, h')
    | (OutOfFuel, h') => (OutOfFuel, h')
    end.

Notation "'let*' x := m 'in' k" := (bind m (fun x => k))
  (at level 10, x name, m at level 100, k at level 200).

Definition lift {A} (r : result A) : M A := fun h => (r, h).

(** A new array object. *)
Definition alloc (o : object) : M ref :=
  fun h => let r := fresh (dom h) in (Ok r, <[r := o]> h).

Definition read_articles (r : ref) : M (list ArticleInput.t) :=
  fun h =>
    match h !! r with
    | Some (ArticleArray l) => (Ok l, h)
    | _ => (Throw TypeError, h)
    end.

(** The pushes to [groups]. *)
Definition store_groups (r : ref) (gs : list ArticleGroup.t) : M unit :=
  fun h => (Ok tt, <[r := GroupArray gs]> h).

(** ** grouper.ts: the function *)

Section Host.

(** When the comparator is not consistent for the elements of the array,
    ECMAScript leaves the sort order to the implementation.  The
    comparator of the grouping is consistent exactly when no time value is
    NaN: it then returns the difference of two integers, and otherwise it
    returns NaN on some pair.  [host_order] is the order the host's sort
    gives to an array on which the comparator is not consistent; the
    theorems that need it assume it is a permutation of the array. *)
Variable host_order : list ArticleInput.t -> list ArticleInput.t.

(** [l.sort((a, b) => new Date(b.publishedAt).getTime() - new Date(a.publishedAt).getTime())],
    as a function of the value of the array. *)
Definition sort_newest_first (l : list ArticleInput.t) : list ArticleInput.t :=
  if forallb has_date l then Array_sort newest_first l else host_order l.

(** [groupArticlesBySimilarity] as a function of the value of its input
    array. *)
Definition groupArticlesBySimilarity
    (articles : list ArticleInput.t) (threshold : Z)
  : result (list ArticleGroup.t) :=
  if Nat.eqb (length articles) 0 then Ok []
  else
    let sorted := sort_newest_first articles in
    build_groups sorted threshold sorted [] ∅.

(** [r.sort(cmp)] sorts the array in place and returns the reference. *)
Definition sort_in_place (r : ref) : M ref :=
  fun h =>
    match h !! r with
    | Some (ArticleArray l) =>
        (Ok r, <[r := ArticleArray (sort_newest_first l)]> h)
    | _ => (Throw TypeError, h)
    end.

(** [groupArticlesBySimilarity] on a reference to its input array, with
    the copy [[...articles]], the sort in place of that copy and the array
    it returns. *)
Definition groupArticlesBySimilarity_ref (articles : ref) (threshold : Z)
  : M ref :=
  let* input := read_articles articles in
  if Nat.eqb (length input) 0 then alloc (GroupArray [])
  else
    let* groups := alloc (GroupArray []) in
    let* copy := alloc (ArticleArray input) in
    let* sorted := sort_in_place copy in
    let* s := read_articles sorted in
    let* gs := lift (build_groups s threshold s [] ∅) in
    let* _ := store_groups groups gs in
    ret groups.

End Host.

(** ** Notions of the specification *)

(** A well-formed fingerprint: exactly 16 hexadecimal characters. *)
Definition is_fingerprint (s : jsstring) : bool :=
  Nat.eqb (length s) 16 && forallb is_hex_char s.

(** The number of set bits of [x] at the positions below [n]. *)
Definition set_bits (n : nat) (x : Z) : Z :=
  Z.of_nat (length (List.filter (fun i => Z.testbit x (Z.of_nat i)) (seq 0 n))).

(** Hamming distance on [n] bits: the number of positions below [n] at
    which [a] and [b] differ. *)
Definition differing_bits (n : nat) (a b : Z) : Z :=
  Z.of_nat (length (List.filter
    (fun i => xorb (Z.testbit a (Z.of_nat i)) (Z.testbit b (Z.of_nat i)))
    (seq 0 n))).

(** The code points of a string: a high surrogate followed by a low
    surrogate is one character beyond the Basic Multilingual Plane, any
    other code unit is a character by itself. *)
Fixpoint code_points (s : jsstring) : list Z :=
  match s with
  | [] => []
  | hi :: rest =>
      match rest with
      | lo :: rest' =>
          if in_range 55296 56319 hi && in_range 56320 57343 lo
          then (65536 + (hi - 55296) * 1024 + (lo - 56320)) :: code_points rest'
          else hi :: code_points rest
      | [] => [hi]
      end
  end.

(** FNV-1a on 64 bits over a sequence of numbers: from the offset basis,
    XOR each number into the hash, then multiply by the prime modulo
    2^64. *)
Definition fnv1a (values : list Z) : Z :=
  fold_left
    (fun hash v => (Z.lxor hash v * 1099511628211) mod 2 ^ 64)
    values 14695981039346656037.

(** A surrogate code unit, one half of a character beyond the Basic
    Multilingual Plane. *)
Definition is_surrogate (c : Z) : bool := in_range 55296 57343 c.

(** The string starts with a word character. *)
Definition starts_word (s : jsstring) : bool :=
  match s with
  | c :: _ => is_word_char c
  | [] => false
  end.

(** The words of a text: its maximal runs of word characters, in
    order.  A word character starts a new word unless the next character
    continues it. *)
Fixpoint words (s : jsstring) : list jsstring :=
  match s with
  | [] => []
  | c :: r =>
      if is_word_char c
      then
        match words r with
        | w :: ws => if starts_word r then (c :: w) :: ws else [c] :: w :: ws
        | [] => [[c]]
        end
      else words r
  end.

(** The words of at least two characters. *)
Definition long_words (s : jsstring) : list jsstring :=
  List.filter (fun w => (2 <=? length w)%nat) (words s).

(** A lowercase letter, a digit or the underscore. *)
Definition is_lower_word_char (c : Z) : bool :=
  in_range 48 57 c || in_range 97 122 c || (c =? 95).

(** The vote of one token hash at bit position [i]: +1 for a set bit,
    -1 for a clear one. *)
Definition bit_vote (hash : Z) (i : nat) : Z :=
  if Z.testbit hash (Z.of_nat i) then 1 else -1.

(** The sum over the tokens of their votes at position [i]. *)
Definition tally (tokens : list jsstring) (i : nat) : Z :=
  foldr (fun token acc => bit_vote (fnv1a64 token) i + acc) 0 tokens.

Definition is_lower_hex_char (c : Z) : bool :=
  in_range 48 57 c || in_range 97 102 c.

(** [s] is the 16-character lowercase zero-padded hexadecimal numeral of
    [v]. *)
Definition encodes (s : jsstring) (v : Z) : Prop :=
  length s = 16%nat
  /\ forallb is_lower_hex_char s = true
  /\ hex_number s = v.

(** The member ids of all the groups, in order. *)
Definition all_members (groups : list ArticleGroup.t) : list jsstring :=
  concat (map ArticleGroup.memberIds groups).

Definition sum_list (ds : list Z) : Z := foldr Z.add 0 ds.

(** The arithmetic mean of a list of distances, 0 for the empty list. *)
Definition mean (ds : list Z) : Q :=
  match ds with
  | [] => 0%Q
  | _ => (inject_Z (sum_list ds) / inject_Z (Z.of_nat (length ds)))%Q
  end.

(** The finite doubles: the rationals [m * 2^e] with a significand of at
    most 53 bits and an exponent in the range of the format. *)
Definition is_double (x : Q) : Prop :=
  exists m e : Z,
    Z.abs m < 2 ^ 53 /\ -1074 <= e <= 971 /\ (x == inject_Z m * 2 ^ e)%Q.

(** [x] is a double, and no double is nearer to [q]. *)
Definition nearest_double (x q : Q) : Prop :=
  is_double x
  /\ forall y, is_double y -> (Qabs (x - q) <= Qabs (y - q))%Q.

(** [g] is the group of center [c] with the further members [ms], whose
    distances to the center are [ds]. *)
Definition group_of (g : ArticleGroup.t) (c : ArticleInput.t)
    (ms : list ArticleInput.t) (ds : list Z) : Prop :=
  ArticleGroup.centerArticleId g = ArticleInput.id c
  /\ ArticleGroup.memberIds g = ArticleInput.id c :: map ArticleInput.id ms
  /\ Forall2
       (fun m d =>
          calculateHammingDistance (ArticleInput.simHash c)
            (ArticleInput.simHash m) = Ok d)
       ms ds.




Abbreviation ids := (map ArticleInput.id).

(** The fingerprint of [a] has the length the validated comparator asks. *)
Definition hash_length_ok (a : ArticleInput.t) : Prop :=
  length (ArticleInput.simHash a) = 16%nat.

(** What a caller sees of a run on the store: the groups in the array
    that was returned, or the failure. *)
Definition returned_groups (run : result ref * store)
  : result (list ArticleGroup.t) :=
  match run with
  | (Ok r, h) =>
      match h !! r with
      | Some (GroupArray gs) => Ok gs
      | _ => Throw TypeError
      end
  | (Throw e, _) => Throw e
  | (OutOfFuel, _) => OutOfFuel
  end.

(** ** simhash.ts and similarity.ts: the remaining exports *)

(** [distanceToSimilarity]: [1 - distance / 64].  For an integer distance
    of magnitude below 2^53 (a Hamming distance is in [0, 64]) the quotient
    by 64 and the difference are exact in double precision, so the rational
    is the number JavaScript computes. *)
Definition distanceToSimilarity (distance : Z) : Q :=
  (1 - inject_Z distance / inject_Z 64)%Q.

(** [areArticlesSimilar]: [if (distance > threshold) return false;
    return true]. *)
Definition areArticlesSimilar (a b : ArticleInput.t) (threshold : Z)
  : result bool :=
  do distance <- calculateHammingDistance
                   (ArticleInput.simHash a) (ArticleInput.simHash b);
  if distance >? threshold then Ok false else Ok true.

(** [s] is a non-empty run of hexadecimal digits, followed by white space
    only: the strings [a] for which ['0x' + a] is a BigInt literal. *)
Definition hex_literal (s : jsstring) : Prop :=
  exists digits spaces,
    s = digits ++ spaces
    /\ digits <> []
    /\ forallb is_hex_char digits = true
    /\ forallb is_space_char spaces = true.

(** ** The clusters behind the groups *)

(** A cluster as the grouping builds it: the center article, the further
    members in the order they were added, and their distances to the
    center. *)
Record cluster : Type := mkCluster {
  center : ArticleInput.t;
  members : list ArticleInput.t;
  distances : list Z
}.

(** The group [g] lists the cluster [cl]: its center, then its members;
    its average distance is 0 when the center is alone, and otherwise
    (an array has fewer than 2^32 elements) the double nearest to the mean
    of the distances. *)
Definition describes (g : ArticleGroup.t) (cl : cluster) : Prop :=
  group_of g (center cl) (members cl) (distances cl)
  /\ (distances cl = [] -> ArticleGroup.averageDistance g = 0%Q)
  /\ (Z.of_nat (length (distances cl)) < 2 ^ 32 ->
      nearest_double (ArticleGroup.averageDistance g) (mean (distances cl))).

(** What the loop builds for the cluster [cl]: the group that lists it,
    with the average the division gives. *)
Definition built (g : ArticleGroup.t) (cl : cluster) : Prop :=
  group_of g (center cl) (members cl) (distances cl)
  /\ ArticleGroup.averageDistance g
     = average (ArticleGroup.memberIds g) (sum_list (distances cl)).

(** The validated comparator puts [a] and [b] farther apart than the
    threshold. *)
Definition far_apart (threshold : Z) (a b : ArticleInput.t) : Prop :=
  exists d,
    calculateHammingDistance (ArticleInput.simHash a) (ArticleInput.simHash b)
    = Ok d
    /\ threshold < d.

(** ** Examples *)

Definition mkArticle (i fp : string) (ts : Z) : ArticleInput.t :=
  ArticleInput.make (js i) None (js "h") (js fp) (Some ts) (js "example.com").


(** The batch of the grouping scenario, and a store that holds it. *)
Definition example_batch : list ArticleInput.t :=
  [mkArticle "a1" "ffffffffffffffff" 3;
   mkArticle "a2" "efffffffffffffff" 2;
   mkArticle "a3" "0000000000000000" 1].

Definition example_store : store :=
  {[ 1%positive := ArticleArray example_batch ]}.

(** A batch in which one id occurs twice. *)
Definition example_duplicates : list ArticleInput.t :=
  [mkArticle "a1" "ffffffffffffffff" 3;
   mkArticle "a1" "0000000000000000" 2;
   mkArticle "a2" "efffffffffffffff" 1].

(** A batch whose two older articles are each one bit from the newest. *)
Definition example_star : list ArticleInput.t :=
  [mkArticle "c" "ffffffffffffffff" 3;
   mkArticle "m1" "efffffffffffffff" 2;
   mkArticle "m2" "fffffffffffffffe" 1].

(** A batch whose older articles are 1, 1 and 2 bits from the newest: the
    mean of the distances, 4/3, is no double. *)
Definition example_thirds : list ArticleInput.t :=
  [mkArticle "c" "ffffffffffffffff" 4;
   mkArticle "m1" "efffffffffffffff" 3;
   mkArticle "m2" "fffffffffffffffe" 2;
   mkArticle "m3" "3fffffffffffffff" 1].

(** Two articles of one timestamp, in this order [a], [b], and a newer
    one after them. *)
Definition example_ties : list ArticleInput.t :=
  [mkArticle "a" "ffffffffffffffff" 1;
   mkArticle "b" "ffffffffffffffff" 1;
   mkArticle "n" "0000000000000000" 2].


(** For a threshold [t] of at most 32: a center and two articles that
    each differ from it in [t] bits and from each other in [2 * t]. *)
Definition spread_batch (t : Z) : list ArticleInput.t :=
  let fp v := padStart (toString16 v) 16 48 in
  [ArticleInput.make (js "c") None (js "h") (fp 0) (Some 3) (js "example.com");
   ArticleInput.make (js "m1") None (js "h") (fp (2 ^ t - 1)) (Some 2)
     (js "example.com");
   ArticleInput.make (js "m2") None (js "h") (fp ((2 ^ t - 1) * 2 ^ t)) (Some 1)
     (js "example.com")].

(** A host: one whose sort is a binary insertion sort.  Each element is
    inserted among the sorted elements before it, at the place a binary
    search gives: after the elements it does not compare below.  On a
    consistent comparator this is the stable order. *)
Fixpoint binary_search {A} (comparefn : A -> A -> option Z) (pivot : A)
    (sorted : list A) (left right fuel : nat) : nat :=
  match fuel with
  | O => left
  | S fuel' =>
      if (left <? right)%nat then
        let mid := (left + (right - left) / 2)%nat in
        if SortCompare comparefn pivot (nth mid sorted pivot) <? 0
        then binary_search comparefn pivot sorted left mid fuel'
        else binary_search comparefn pivot sorted (S mid) right fuel'
      else left
  end.

Definition binary_insert {A} (comparefn : A -> A -> option Z)
    (sorted : list A) (pivot : A) : list A :=
  let i := binary_search comparefn pivot sorted 0 (length sorted)
             (S (length sorted)) in
  take i sorted ++ pivot :: drop i sorted.

Definition binary_insertion_sort {A} (comparefn : A -> A -> option Z)
    (l : list A) : list A :=
  fold_left (binary_insert comparefn) l [].

Definition host_sort : list ArticleInput.t -> list ArticleInput.t :=
  binary_insertion_sort newest_first.
(** * Concrete runs (the scenarios of the tests and of the documentation) *)

Example hamming_ex1 :
  hammingDistance (js "ffffffffffffffff") (js "efffffffffffffff") = Ok 1.
Proof. vm_compute. reflexivity. Qed.

Example hamming_ex2 :
  calculateHammingDistance (js "f000000000000000") (js "0000000000000000") = Ok 4.
Proof. vm_compute. reflexivity. Qed.

Example simhash_ex1 : computeSimHash ascii_lower (js "") = ZERO_FINGERPRINT.
Proof. vm_compute. reflexivity. Qed.

Example fnv_ex : fnv1a64 (js "hello") = 11831194018420276491.
Proof. vm_compute. reflexivity. Qed.

Example group_ex host :
  groupArticlesBySimilarity host example_batch 3
  = Ok [ArticleGroup.make (js "cluster-1") (js "a1") [js "a1"; js "a2"] 1%Q;
        ArticleGroup.make (js "cluster-2") (js "a3") [js "a3"] 0%Q].
Proof. vm_compute. reflexivity. Qed.

(** 4 / 3 is 1.3333333333333333, the double 6004799503160661 * 2^-52. *)
Example division_ex :
  Number_div 4 3 = (6004799503160661 # 4503599627370496)%Q.
Proof. vm_compute. reflexivity. Qed.

Example average_ex host :
  groupArticlesBySimilarity host example_thirds 3
  = Ok [ArticleGroup.make (js "cluster-1") (js "c")
          [js "c"; js "m1"; js "m2"; js "m3"]
          (6004799503160661 # 4503599627370496)%Q].
Proof. vm_compute. reflexivity. Qed.

Example words_ex :
  words (js "an apple_1, a day") = [js "an"; js "apple_1"; js "a"; js "day"].
Proof. vm_compute. reflexivity. Qed.

(** * The hash primitive *)

Lemma MASK_64_ones : MASK_64 = Z.ones 64.
Proof. reflexivity. Qed.

Lemma fnv1a64_snoc str c :
  fnv1a64 (str ++ [c])
  = Z.land (Z.lxor (fnv1a64 str) c * FNV_PRIME) MASK_64.
Proof. unfold fnv1a64. rewrite fold_left_app. reflexivity. Qed.

Lemma fnv1a64_fnv1a str : fnv1a64 str = fnv1a str.
Proof.
  induction str as [|c str IH] using rev_ind; [reflexivity|].
  rewrite fnv1a64_snoc, MASK_64_ones, Z.land_ones, IH by lia.
  unfold fnv1a. rewrite fold_left_app. reflexivity.
Qed.

Lemma code_points_bmp str :
  Forall (fun c => is_surrogate c = false) str -> code_points str = str.
Proof.
  induction 1 as [|hi rest Hhi _ IH]; [reflexivity|].
  cbn [code_points]. destruct rest as [|lo rest']; [reflexivity|].
  assert (in_range 55296 56319 hi = false) as ->
    by (revert Hhi; unfold is_surrogate, in_range; lia).
  cbn [andb]. rewrite IH. reflexivity.
Qed.

(** C6 (amended): [fnv1a64] is FNV-1a on 64 bits over the UTF-16 code
    units of the string.  The empty string hashes to the offset basis; each further
    code unit is XORed into the hash, which is then multiplied by the
    prime modulo 2^64; the hash of every string lies in [0, 2^64).  On a
    string without surrogate code units, where the code units are the
    code points, it is FNV-1a over the code points.  The function is
    total. *)
Theorem fnv1a64_is_fnv1a :
  fnv1a64 [] = 14695981039346656037
  /\ (forall str c,
        fnv1a64 (str ++ [c])
        = (Z.lxor (fnv1a64 str) c * 1099511628211) mod 2 ^ 64)
  /\ (forall str, 0 <= fnv1a64 str < 2 ^ 64)
  /\ (forall str, fnv1a64 str = fnv1a str)
  /\ (forall str,
        Forall (fun c => is_surrogate c = false) str ->
        fnv1a64 str = fnv1a (code_points str)).
Proof.
  split; [reflexivity|]. split; [|split; [|split]].
  - intros str c. rewrite fnv1a64_snoc, MASK_64_ones, Z.land_ones by lia.
    reflexivity.
  - intros str. destruct str as [|c str] using rev_ind.
    + vm_compute. split; congruence.
    + rewrite fnv1a64_snoc, MASK_64_ones, Z.land_ones by lia.
      apply Z.mod_pos_bound. lia.
  - apply fnv1a64_fnv1a.
  - intros str Hbmp. rewrite (code_points_bmp str Hbmp). apply fnv1a64_fnv1a.
Qed.

(** C6, as stated, fails: with code points the claim does not hold
    beyond the Basic Multilingual Plane.  The character U+1F600 is the
    two code units 0xD83D 0xDE00, and the hash of the string is the hash
    of the two code units, not of the code point. *)
Theorem fnv1a64_not_over_code_points :
  code_points [55357; 56832] = [128512]
  /\ fnv1a64 [55357; 56832] = fnv1a [55357; 56832]
  /\ fnv1a64 [55357; 56832] <> fnv1a (code_points [55357; 56832]).
Proof.
  split; [reflexivity|]. split; [apply fnv1a64_fnv1a|].
  vm_compute. congruence.
Qed.

(** * Match classification *)

(** C7: on [0, 64] the classification is exact for 0, near for 1..3,
    similar for 4..10 and different for 11..64, and nothing else. *)
Theorem getMatchType_boundaries (d : Z) :
  0 <= d <= 64 ->
  (getMatchType d = exact <-> d = 0)
  /\ (getMatchType d = near <-> 1 <= d <= 3)
  /\ (getMatchType d = similar <-> 4 <= d <= 10)
  /\ (getMatchType d = different <-> 11 <= d <= 64).
Proof.
  intros Hd. unfold getMatchType.
  destruct (Z.eqb_spec d 0); [repeat split; intros; try lia; try discriminate|].
  destruct (Z.leb_spec d 3); [repeat split; intros; try lia; try discriminate|].
  destruct (Z.leb_spec d 10); repeat split; intros; try lia; try discriminate.
Qed.

Lemma getMatchType_boundaries_witness :
  (getMatchType 3 = exact <-> 3 = 0)
  /\ (getMatchType 3 = near <-> 1 <= 3 <= 3)
  /\ (getMatchType 3 = similar <-> 4 <= 3 <= 10)
  /\ (getMatchType 3 = different <-> 11 <= 3 <= 64).
Proof. apply (getMatchType_boundaries 3). lia. Defined.

(** * Counting bits *)

Lemma filter_length_map {A B} (f : B -> bool) (g : A -> B) (l : list A) :
  length (List.filter f (map g l)) = length (List.filter (fun x => f (g x)) l).
Proof.
  induction l as [|a l IH]; simpl; [reflexivity|].
  destruct (f (g a)); simpl; congruence.
Qed.

Lemma filter_length_ext {A} (f g : A -> bool) (l : list A) :
  (forall x, In x l -> f x = g x) ->
  length (List.filter f l) = length (List.filter g l).
Proof.
  induction l as [|a l IH]; simpl; intros H; [reflexivity|].
  rewrite (H a) by auto. destruct (g a); simpl; rewrite IH; auto.
Qed.

Lemma land_1_bit0 x : Z.land x 1 = Z.b2z (Z.testbit x 0).
Proof.
  change 1 with (Z.ones 1). rewrite Z.land_ones by lia.
  rewrite Z.bit0_mod. reflexivity.
Qed.

Lemma set_bits_succ n x :
  set_bits (S n) x = Z.land x 1 + set_bits n (Z.shiftr x 1).
Proof.
  unfold set_bits. rewrite land_1_bit0.
  change (seq 0 (S n)) with (0%nat :: seq 1 n).
  rewrite <- seq_shift. cbn [List.filter].
  change (Z.of_nat 0) with 0.
  assert (Hshift :
    length (List.filter (fun i => Z.testbit x (Z.of_nat i)) (map S (seq 0 n)))
    = length (List.filter (fun i => Z.testbit (Z.shiftr x 1) (Z.of_nat i)) (seq 0 n))).
  { rewrite filter_length_map. apply filter_length_ext. intros i _.
    rewrite Z.shiftr_spec by lia. f_equal. lia. }
  destruct (Z.testbit x 0); cbn [length Z.b2z]; rewrite Hshift; lia.
Qed.

Lemma set_bits_0 n : set_bits n 0 = 0.
Proof.
  unfold set_bits.
  rewrite (filter_length_ext _ (fun _ => false)).
  - induction (seq 0 n); simpl; auto.
  - intros i _. apply Z.testbit_0_l.
Qed.

Lemma set_bits_range n x : 0 <= set_bits n x <= Z.of_nat n.
Proof.
  unfold set_bits. split; [lia|].
  pose proof (List.filter_length_le (fun i => Z.testbit x (Z.of_nat i)) (seq 0 n)) as H.
  rewrite length_seq in H. lia.
Qed.

Lemma differing_bits_lxor n a b : differing_bits n a b = set_bits n (Z.lxor a b).
Proof.
  unfold differing_bits, set_bits. f_equal. apply filter_length_ext.
  intros i _. rewrite Z.lxor_spec. reflexivity.
Qed.

(** The loop adds the set bits of [xor] to [count], and it ends whenever
    it has one round more than [xor] has binary digits. *)
Lemma count_loop_set_bits fuel : forall x c n,
  0 <= x < 2 ^ Z.of_nat n ->
  (x = 0 \/ Z.log2 x + 2 <= Z.of_nat fuel) ->
  (1 <= fuel)%nat ->
  count_loop fuel x c = Some (c + set_bits n x).
Proof.
  induction fuel as [|fuel IH]; intros x c n Hx Hfuel Hpos; [lia|].
  cbn [count_loop]. destruct (Z.gtb_spec x 0) as [Hgt|Hle].
  - destruct n as [|n]; [cbn in Hx; lia|].
    rewrite set_bits_succ, Z.add_assoc.
    assert (Hhalf : Z.shiftr x 1 = x / 2)
      by (rewrite Z.shiftr_div_pow2 by lia; reflexivity).
    assert (Hlog : Z.log2 (Z.shiftr x 1) = Z.max 0 (Z.log2 x - 1))
      by (apply Z.log2_shiftr; lia).
    pose proof (Z.log2_nonneg x).
    apply IH.
    + rewrite Hhalf. rewrite Nat2Z.inj_succ, Z.pow_succ_r in Hx by lia.
      split; [apply Z.div_pos; lia|].
      apply Z.div_lt_upper_bound; lia.
    + destruct Hfuel as [?|Hfuel]; [lia|].
      destruct (Z.eq_dec (Z.shiftr x 1) 0) as [|Hnz]; [left; assumption|right].
      rewrite Hlog.
      assert (1 <= Z.log2 x); [|lia].
      destruct (Z.eq_dec x 1) as [->|]; [exfalso; apply Hnz; reflexivity|].
      apply Z.log2_le_mono with (a := 2) (b := x). lia.
    + destruct Hfuel as [?|Hfuel]; lia.
  - assert (x = 0) as -> by lia. rewrite set_bits_0. f_equal. lia.
Qed.

Lemma run_count_loop_nonneg x c n :
  0 <= x < 2 ^ Z.of_nat n -> run_count_loop x c = Ok (c + set_bits n x).
Proof.
  intros Hx. unfold run_count_loop, loop_fuel.
  rewrite (count_loop_set_bits _ x c n); auto.
  - right. pose proof (Z.log2_nonneg x). lia.
  - lia.
Qed.

Lemma run_count_loop_neg x c : x <= 0 -> run_count_loop x c = Ok c.
Proof.
  intros Hx. unfold run_count_loop, loop_fuel.
  rewrite Z.log2_nonpos by assumption.
  change (Z.to_nat 0 + 2)%nat with 2%nat. cbn [count_loop].
  destruct (Z.gtb_spec x 0); [lia|reflexivity].
Qed.

Lemma run_count_loop_total x c : exists c', run_count_loop x c = Ok c'.
Proof.
  destruct (Z_le_gt_dec x 0) as [Hle|Hgt].
  - exists c. apply run_count_loop_neg, Hle.
  - exists (c + set_bits (Z.to_nat (Z.log2 x + 1)) x).
    apply run_count_loop_nonneg. split; [lia|].
    rewrite Z2Nat.id by (pose proof (Z.log2_nonneg x); lia).
    apply Z.log2_lt_pow2; lia.
Qed.

Lemma differing_bits_range n a b : 0 <= differing_bits n a b <= Z.of_nat n.
Proof. rewrite differing_bits_lxor. apply set_bits_range. Qed.

Lemma differing_bits_comm n a b : differing_bits n a b = differing_bits n b a.
Proof. rewrite !differing_bits_lxor, Z.lxor_comm. reflexivity. Qed.

Lemma differing_bits_refl n a : differing_bits n a a = 0.
Proof. rewrite differing_bits_lxor, Z.lxor_nilpotent. apply set_bits_0. Qed.

Lemma filter_length_seq_shift (f : nat -> bool) m n :
  length (List.filter f (seq m n))
  = length (List.filter (fun i => f (m + i)%nat) (seq 0 n)).
Proof.
  induction n as [|n IH]; [reflexivity|].
  rewrite !seq_S, !List.filter_app, !length_app, IH.
  cbn [List.filter Nat.add]. destruct (f (m + n)%nat); reflexivity.
Qed.

Lemma testbit_low x y m i :
  0 <= y < 2 ^ m -> 0 <= i < m ->
  Z.testbit (x * 2 ^ m + y) i = Z.testbit y i.
Proof.
  intros Hy Hi. rewrite <- (Z.mod_pow2_bits_low (x * 2 ^ m + y) m i) by lia.
  rewrite Z.add_comm, Z.mod_add, Z.mod_small by lia. reflexivity.
Qed.

Lemma testbit_high x y m i :
  0 <= y < 2 ^ m -> 0 <= m -> 0 <= i ->
  Z.testbit (x * 2 ^ m + y) (i + m) = Z.testbit x i.
Proof.
  intros Hy Hm Hi. rewrite <- Z.div_pow2_bits by lia.
  rewrite Z.div_add_l, Z.div_small by lia. f_equal. lia.
Qed.

(** The differing bits of two numbers are those of their low [m] bits
    together with those of the rest. *)
Lemma differing_bits_split m n x y x' y' :
  0 <= y < 2 ^ Z.of_nat m -> 0 <= y' < 2 ^ Z.of_nat m ->
  differing_bits (m + n) (x * 2 ^ Z.of_nat m + y) (x' * 2 ^ Z.of_nat m + y')
  = differing_bits n x x' + differing_bits m y y'.
Proof.
  intros Hy Hy'. unfold differing_bits.
  rewrite seq_app, List.filter_app, length_app, Nat2Z.inj_add.
  rewrite Z.add_comm. f_equal; f_equal.
  - cbn [Nat.add]. rewrite filter_length_seq_shift.
    apply filter_length_ext. intros i _.
    rewrite Nat2Z.inj_add, (Z.add_comm (Z.of_nat m)).
    rewrite !testbit_high by lia. reflexivity.
  - apply filter_length_ext. intros i Hi. apply in_seq in Hi.
    rewrite !testbit_low by lia. reflexivity.
Qed.

Lemma lxor_bound n a b :
  0 <= n -> 0 <= a < 2 ^ n -> 0 <= b < 2 ^ n -> 0 <= Z.lxor a b < 2 ^ n.
Proof.
  intros Hn Ha Hb. assert (H0 : 0 <= Z.lxor a b) by (apply Z.lxor_nonneg; lia).
  split; [assumption|].
  destruct (Z.eq_dec (Z.lxor a b) 0) as [->|Hnz]; [lia|].
  destruct (Z.eq_dec n 0) as [->|Hn0].
  { change (2 ^ 0) with 1 in *. assert (a = 0) as -> by lia.
    assert (b = 0) as -> by lia. rewrite Z.lxor_0_l. lia. }
  apply Z.log2_lt_pow2; [lia|].
  pose proof (Z.log2_lxor a b) as Hl.
  assert (Hlog : forall c, 0 <= c < 2 ^ n -> Z.log2 c < n).
  { intros c Hc. destruct (Z.eq_dec c 0) as [->|].
    - change (Z.log2 0) with 0. lia.
    - apply Z.log2_lt_pow2; lia. }
  pose proof (Hlog a Ha). pose proof (Hlog b Hb). lia.
Qed.

(** * Hexadecimal strings *)

Lemma is_hex_char_cases c :
  is_hex_char c = true <-> 48 <= c <= 57 \/ 97 <= c <= 102 \/ 65 <= c <= 70.
Proof. unfold is_hex_char, in_range. lia. Qed.

Lemma hex_value_range c : is_hex_char c = true -> 0 <= hex_value c < 16.
Proof.
  rewrite is_hex_char_cases. unfold hex_value, in_range. intros H.
  destruct (Z.leb_spec 48 c), (Z.leb_spec c 57), (Z.leb_spec 97 c),
    (Z.leb_spec c 102); cbn; lia.
Qed.

Lemma hex_not_space c : is_hex_char c = true -> is_space_char c = false.
Proof. unfold is_hex_char, is_space_char, in_range. lia. Qed.

Lemma hex_fold s : forall v,
  fold_left (fun v c => v * 16 + hex_value c) s v
  = v * 16 ^ Z.of_nat (length s) + hex_number s.
Proof.
  unfold hex_number. induction s as [|c s IH]; intros v.
  - cbn. lia.
  - cbn [fold_left length]. rewrite IH, (IH (0 * 16 + hex_value c)).
    rewrite Nat2Z.inj_succ, Z.pow_succ_r by lia. ring.
Qed.

Lemma hex_number_app s1 s2 :
  hex_number (s1 ++ s2)
  = hex_number s1 * 16 ^ Z.of_nat (length s2) + hex_number s2.
Proof. unfold hex_number at 1. rewrite fold_left_app, hex_fold. reflexivity. Qed.

Lemma hex_number_range s :
  forallb is_hex_char s = true -> 0 <= hex_number s < 16 ^ Z.of_nat (length s).
Proof.
  induction s as [|c s IH] using rev_ind; intros H.
  - cbn. lia.
  - rewrite forallb_app in H. apply andb_prop in H as [Hs Hc].
    cbn in Hc. rewrite andb_true_r in Hc.
    specialize (IH Hs). pose proof (hex_value_range c Hc).
    rewrite hex_number_app, length_app, Nat2Z.inj_add.
    cbn [length]. change (hex_number [c]) with (0 * 16 + hex_value c).
    rewrite Z.pow_add_r by lia. change (16 ^ Z.of_nat 1) with 16. nia.
Qed.

Lemma hex_prefix_all s : forallb is_hex_char s = true -> hex_prefix s = s.
Proof.
  induction s as [|c s IH]; cbn; [reflexivity|].
  intros H. apply andb_prop in H as [-> Hs]. rewrite IH; auto.
Qed.

Lemma trimEnd_hex s : forallb is_hex_char s = true -> trimEnd s = s.
Proof.
  unfold trimEnd. destruct s as [|c s _] using rev_ind; [reflexivity|].
  rewrite forallb_app. intros H. apply andb_prop in H as [_ Hc].
  cbn in Hc. rewrite andb_true_r in Hc.
  rewrite rev_app_distr. cbn [rev app drop_spaces].
  rewrite (hex_not_space c Hc). cbn [rev]. rewrite rev_involutive.
  reflexivity.
Qed.

Lemma BigInt_0x_hex s :
  forallb is_hex_char s = true -> s <> [] ->
  BigInt_0x s = Some (hex_number s).
Proof.
  intros H Hne. unfold BigInt_0x. rewrite trimEnd_hex, H by assumption.
  destruct s; [congruence|reflexivity].
Qed.

Lemma parseInt16_hex s :
  forallb is_hex_char s = true -> s <> [] ->
  parseInt16 s = Some (hex_number s).
Proof.
  intros H Hne. destruct s as [|c s]; [congruence|].
  pose proof H as Hall. cbn in H. apply andb_prop in H as [Hc Hs].
  unfold parseInt16, trimStart. cbn [drop_spaces].
  rewrite (hex_not_space c Hc).
  pose proof (proj1 (is_hex_char_cases c) Hc) as Hr.
  destruct (Z.eqb_spec c 45); [lia|]. destruct (Z.eqb_spec c 43); [lia|].
  assert (Hpre : match c :: s with
                 | c1 :: c2 :: r =>
                     if (c1 =? 48) && ((c2 =? 120) || (c2 =? 88)) then r
                     else c :: s
                 | _ => c :: s
                 end = c :: s).
  { destruct s as [|c2 s]; [reflexivity|].
    cbn in Hs. apply andb_prop in Hs as [Hc2 _].
    apply is_hex_char_cases in Hc2.
    destruct (Z.eqb_spec c2 120); [lia|]. destruct (Z.eqb_spec c2 88); [lia|].
    rewrite andb_false_r. reflexivity. }
  rewrite Hpre, hex_prefix_all by assumption.
  cbn [length Nat.eqb]. f_equal. lia.
Qed.

Lemma toInt32_small v : - 2 ^ 31 <= v < 2 ^ 31 -> toInt32 (Some v) = v.
Proof. intros H. unfold toInt32. rewrite Z.mod_small; lia. Qed.

Lemma is_fingerprint_spec s :
  is_fingerprint s = true <-> length s = 16%nat /\ forallb is_hex_char s = true.
Proof.
  unfold is_fingerprint. rewrite andb_true_iff, Nat.eqb_eq. reflexivity.
Qed.

Lemma fingerprint_value_range s :
  is_fingerprint s = true -> 0 <= hex_number s < 2 ^ 64.
Proof.
  intros [Hlen Hhex]%is_fingerprint_spec.
  pose proof (hex_number_range s Hhex) as H. rewrite Hlen in H. exact H.
Qed.

(** * The two comparators *)

Lemma hammingDistance_fingerprints a b :
  is_fingerprint a = true -> is_fingerprint b = true ->
  hammingDistance a b = Ok (differing_bits 64 (hex_number a) (hex_number b)).
Proof.
  intros Ha Hb.
  pose proof (fingerprint_value_range a Ha) as Hva.
  pose proof (fingerprint_value_range b Hb) as Hvb.
  apply is_fingerprint_spec in Ha as [Hla Hha], Hb as [Hlb Hhb].
  unfold hammingDistance.
  rewrite !BigInt_0x_hex by (try assumption; intros ->; discriminate).
  rewrite (run_count_loop_nonneg _ 0 64) by (apply lxor_bound; lia).
  rewrite differing_bits_lxor. reflexivity.
Qed.

(** The four chunks of a fingerprint, most significant first. *)
Lemma fingerprint_chunks s :
  is_fingerprint s = true ->
  hex_number s
  = ((hex_number (substring s 0 4) * 2 ^ 16
      + hex_number (substring s 4 8)) * 2 ^ 16
     + hex_number (substring s 8 12)) * 2 ^ 16
    + hex_number (substring s 12 16)
  /\ Forall (fun i => forallb is_hex_char (substring s i (i + 4)) = true
                      /\ length (substring s i (i + 4)) = 4%nat)
       [0; 4; 8; 12]%nat.
Proof.
  intros [Hlen Hhex]%is_fingerprint_spec.
  do 17 (destruct s as [|? s]; try discriminate Hlen).
  cbn in Hhex. repeat (apply andb_prop in Hhex as [? Hhex]).
  split.
  - unfold substring, hex_number. cbn [take drop Nat.sub fold_left]. ring.
  - repeat constructor; unfold substring; cbn [take drop Nat.sub Nat.add forallb];
      repeat (apply andb_true_intro; split); auto.
Qed.

Lemma chunk_distance_hex a b d i :
  forallb is_hex_char (substring a i (i + 4)) = true ->
  length (substring a i (i + 4)) = 4%nat ->
  forallb is_hex_char (substring b i (i + 4)) = true ->
  length (substring b i (i + 4)) = 4%nat ->
  chunk_distance a b d i
  = Ok (d + differing_bits 16 (hex_number (substring a i (i + 4)))
                              (hex_number (substring b i (i + 4)))).
Proof.
  intros Ha Hla Hb Hlb. unfold chunk_distance.
  pose proof (hex_number_range _ Ha) as Hra. rewrite Hla in Hra.
  pose proof (hex_number_range _ Hb) as Hrb. rewrite Hlb in Hrb.
  change (16 ^ Z.of_nat 4) with (2 ^ 16) in *.
  rewrite !parseInt16_hex by (try assumption; intros E; rewrite E in *; discriminate).
  rewrite !toInt32_small by lia.
  rewrite (run_count_loop_nonneg _ d 16) by (apply lxor_bound; lia).
  rewrite differing_bits_lxor. reflexivity.
Qed.

Lemma calculateHammingDistance_fingerprints a b :
  is_fingerprint a = true -> is_fingerprint b = true ->
  calculateHammingDistance a b
  = Ok (differing_bits 64 (hex_number a) (hex_number b)).
Proof.
  intros Ha Hb.
  destruct (fingerprint_chunks a Ha) as [Eda Hca].
  destruct (fingerprint_chunks b Hb) as [Edb Hcb].
  pose proof Ha as [Hla _]%is_fingerprint_spec.
  pose proof Hb as [Hlb _]%is_fingerprint_spec.
  unfold calculateHammingDistance. rewrite Hla, Hlb. cbn [Nat.eqb negb orb].
  repeat match goal with
         | H : Forall _ (_ :: _) |- _ => inversion H; subst; clear H
         | H : _ /\ _ |- _ => destruct H
         end.
  cbn [fold_left result_bind Nat.add] in *.
  rewrite (chunk_distance_hex a b 0 0) by assumption. cbn [result_bind].
  rewrite (chunk_distance_hex a b _ 4) by assumption. cbn [result_bind].
  rewrite (chunk_distance_hex a b _ 8) by assumption. cbn [result_bind].
  rewrite (chunk_distance_hex a b _ 12) by assumption.
  cbn [Nat.add]. f_equal. rewrite Eda, Edb.
  assert (Hr : forall s, forallb is_hex_char s = true -> length s = 4%nat ->
                         0 <= hex_number s < 2 ^ Z.of_nat 16).
  { intros s Hs Hl. pose proof (hex_number_range s Hs) as Hrange.
    rewrite Hl in Hrange. exact Hrange. }
  change (2 ^ 16) with (2 ^ Z.of_nat 16).
  rewrite (differing_bits_split 16 48) by (apply Hr; assumption).
  rewrite (differing_bits_split 16 32) by (apply Hr; assumption).
  rewrite (differing_bits_split 16 16) by (apply Hr; assumption).
  lia.
Qed.

(** With both lengths 16 the validated comparator returns a number, hex
    digits or not. *)
Lemma calculateHammingDistance_total a b :
  length a = 16%nat -> length b = 16%nat ->
  exists d, calculateHammingDistance a b = Ok d.
Proof.
  intros Ha Hb. unfold calculateHammingDistance. rewrite Ha, Hb.
  cbn [Nat.eqb negb orb fold_left result_bind]. unfold chunk_distance.
  destruct (run_count_loop_total
    (Z.lxor (toInt32 (parseInt16 (substring a 0 (0 + 4))))
            (toInt32 (parseInt16 (substring b 0 (0 + 4))))) 0) as [d0 ->].
  cbn [result_bind].
  destruct (run_count_loop_total
    (Z.lxor (toInt32 (parseInt16 (substring a 4 (4 + 4))))
            (toInt32 (parseInt16 (substring b 4 (4 + 4))))) d0) as [d1 ->].
  cbn [result_bind].
  destruct (run_count_loop_total
    (Z.lxor (toInt32 (parseInt16 (substring a 8 (8 + 4))))
            (toInt32 (parseInt16 (substring b 8 (8 + 4))))) d1) as [d2 ->].
  cbn [result_bind].
  apply run_count_loop_total.
Qed.

Lemma calculateHammingDistance_throws a b :
  calculateHammingDistance a b = Throw FormatError
  <-> length a <> 16%nat \/ length b <> 16%nat.
Proof.
  split.
  - intros H. destruct (Nat.eq_dec (length a) 16%nat) as [Ha|]; [|auto].
    destruct (Nat.eq_dec (length b) 16%nat) as [Hb|]; [|auto].
    destruct (calculateHammingDistance_total a b Ha Hb) as [d Hd]. congruence.
  - intros H. unfold calculateHammingDistance.
    destruct (Nat.eqb_spec (length a) 16), (Nat.eqb_spec (length b) 16);
      cbn; try reflexivity. lia.
Qed.

(** C1 (amended): the validated comparator throws its format error exactly
    when one of the two lengths is not 16; with both lengths 16 it returns a
    number, and on two strings of 16 hexadecimal characters that number is
    the count of differing bits of the two 64-bit values. *)
Theorem calculateHammingDistance_validation (a b : jsstring) :
  (calculateHammingDistance a b = Throw FormatError
   <-> length a <> 16%nat \/ length b <> 16%nat)
  /\ (length a = 16%nat /\ length b = 16%nat ->
      exists d, calculateHammingDistance a b = Ok d)
  /\ (is_fingerprint a = true /\ is_fingerprint b = true ->
      calculateHammingDistance a b
      = Ok (differing_bits 64 (hex_number a) (hex_number b))).
Proof.
  split; [apply calculateHammingDistance_throws|]. split.
  - intros [Ha Hb]. apply calculateHammingDistance_total; assumption.
  - intros [Ha Hb]. apply calculateHammingDistance_fingerprints; assumption.
Qed.

(** C1, as stated, fails: a 16-character string with no hexadecimal digit
    is accepted, and a number is returned. *)
Lemma calculateHammingDistance_accepts_non_hex :
  is_fingerprint (js "zzzzzzzzzzzzzzzz") = false
  /\ calculateHammingDistance (js "zzzzzzzzzzzzzzzz") (js "0000000000000001")
     = Ok 1.
Proof. split; vm_compute; reflexivity. Qed.

(** C4: on two strings of 16 hexadecimal characters the validated
    comparator, which works on four chunks of 16 bits, returns what the
    fast path returns on the whole 64-bit values, and that is a number. *)
Theorem calculateHammingDistance_eq_hammingDistance (a b : jsstring) :
  is_fingerprint a = true -> is_fingerprint b = true ->
  calculateHammingDistance a b = hammingDistance a b
  /\ exists d, hammingDistance a b = Ok d.
Proof.
  intros Ha Hb.
  rewrite calculateHammingDistance_fingerprints,
    hammingDistance_fingerprints by assumption.
  split; [reflexivity|eauto].
Qed.

Lemma calculateHammingDistance_eq_hammingDistance_witness :
  calculateHammingDistance (js "f000000000000000") (js "0123456789abcDEF")
  = hammingDistance (js "f000000000000000") (js "0123456789abcDEF")
  /\ exists d,
      hammingDistance (js "f000000000000000") (js "0123456789abcDEF") = Ok d.
Proof.
  apply (calculateHammingDistance_eq_hammingDistance
           (js "f000000000000000") (js "0123456789abcDEF"));
    vm_compute; reflexivity.
Defined.

(** C8: on well-formed fingerprints the fast path gives 0 for a
    fingerprint and itself, is symmetric, and returns a number in
    [0, 64]. *)
Theorem hammingDistance_properties (a b : jsstring) :
  is_fingerprint a = true -> is_fingerprint b = true ->
  hammingDistance a a = Ok 0
  /\ hammingDistance a b = hammingDistance b a
  /\ exists d, hammingDistance a b = Ok d /\ 0 <= d <= 64.
Proof.
  intros Ha Hb. rewrite !hammingDistance_fingerprints by assumption.
  rewrite differing_bits_refl, (differing_bits_comm 64 (hex_number b)).
  repeat split. eexists; split; [reflexivity|].
  apply (differing_bits_range 64).
Qed.

Lemma hammingDistance_properties_witness :
  hammingDistance (js "ffffffffffffffff") (js "ffffffffffffffff") = Ok 0
  /\ hammingDistance (js "ffffffffffffffff") (js "efffffffffffffff")
     = hammingDistance (js "efffffffffffffff") (js "ffffffffffffffff")
  /\ exists d,
      hammingDistance (js "ffffffffffffffff") (js "efffffffffffffff") = Ok d
      /\ 0 <= d <= 64.
Proof.
  apply (hammingDistance_properties
           (js "ffffffffffffffff") (js "efffffffffffffff"));
    vm_compute; reflexivity.
Defined.

(** * The fingerprint *)

Lemma bit_of_hash hash i :
  (Z.land (Z.shiftr hash (Z.of_nat i)) 1 =? 1) = Z.testbit hash (Z.of_nat i).
Proof.
  rewrite land_1_bit0, Z.shiftr_spec, Z.add_0_l by lia.
  destruct (Z.testbit hash (Z.of_nat i)); reflexivity.
Qed.

(** The updates of one token touch each counter once. *)
Lemma vote_counters hash n : forall vector,
  (n <= length vector)%nat ->
  length (fold_left (vote_step hash) (seq 0 n) vector) = length vector
  /\ forall i, fold_left (vote_step hash) (seq 0 n) vector !!! i
               = if (i <? n)%nat then vector !!! i + bit_vote hash i
                 else vector !!! i.
Proof.
  induction n as [|n IH]; intros vector Hn.
  - split; [reflexivity|]. intros i. reflexivity.
  - rewrite seq_S, fold_left_app. cbn [fold_left Nat.add].
    destruct (IH vector ltac:(lia)) as [Hlen Hget].
    unfold vote_step at 1 3.
    split; [rewrite length_insert; exact Hlen|].
    intros i. destruct (Nat.eq_dec i n) as [->|Hne].
    + rewrite list_lookup_total_insert_eq by lia.
      rewrite Hget, bit_of_hash. unfold bit_vote.
      destruct (Nat.ltb_spec n n); [lia|].
      destruct (Nat.ltb_spec n (S n)); [|lia]. reflexivity.
    + rewrite list_lookup_total_insert_ne by congruence. rewrite Hget.
      destruct (Nat.ltb_spec i n), (Nat.ltb_spec i (S n)); try lia; reflexivity.
Qed.

Lemma vote_spec hash vector :
  length vector = 64%nat ->
  length (vote hash vector) = 64%nat
  /\ forall i, (i < 64)%nat ->
               vote hash vector !!! i = vector !!! i + bit_vote hash i.
Proof.
  intros Hlen. unfold vote.
  destruct (vote_counters hash 64 vector ltac:(lia)) as [Hl Hget].
  split; [rewrite Hl; exact Hlen|].
  intros i Hi. rewrite Hget.
  destruct (Nat.ltb_spec i 64); [reflexivity|lia].
Qed.

Lemma tally_cons t tokens i :
  tally (t :: tokens) i = bit_vote (fnv1a64 t) i + tally tokens i.
Proof. reflexivity. Qed.

Lemma fold_left_cons {A B} (f : A -> B -> A) x l a :
  fold_left f (x :: l) a = fold_left f l (f a x).
Proof. reflexivity. Qed.

Lemma votes_tally tokens : forall vector,
  length vector = 64%nat ->
  length (fold_left (fun v token => vote (fnv1a64 token) v) tokens vector)
  = 64%nat
  /\ forall i, (i < 64)%nat ->
       fold_left (fun v token => vote (fnv1a64 token) v) tokens vector !!! i
       = vector !!! i + tally tokens i.
Proof.
  induction tokens as [|t tokens IH]; intros vector Hlen.
  - split; [assumption|]. intros i _. cbn [fold_left].
    change (tally [] i) with 0. lia.
  - rewrite fold_left_cons.
    destruct (vote_spec (fnv1a64 t) vector Hlen) as [Hl Hv].
    destruct (IH (vote (fnv1a64 t) vector) Hl) as [Hl' Hget].
    split; [exact Hl'|]. intros i Hi.
    rewrite Hget, Hv, tally_cons by assumption. lia.
Qed.

Lemma lor_bound n a b :
  0 <= n -> 0 <= a < 2 ^ n -> 0 <= b < 2 ^ n -> 0 <= Z.lor a b < 2 ^ n.
Proof.
  intros Hn Ha Hb. assert (H0 : 0 <= Z.lor a b) by (apply Z.lor_nonneg; lia).
  split; [assumption|].
  destruct (Z.eq_dec (Z.lor a b) 0) as [->|Hnz]; [lia|].
  destruct (Z.eq_dec n 0) as [->|Hn0].
  { change (2 ^ 0) with 1 in *. assert (a = 0) as -> by lia.
    assert (b = 0) as -> by lia. rewrite Z.lor_0_l. lia. }
  apply Z.log2_lt_pow2; [lia|].
  rewrite Z.log2_lor by lia.
  assert (Hlog : forall c, 0 <= c < 2 ^ n -> Z.log2 c < n).
  { intros c Hc. destruct (Z.eq_dec c 0) as [->|].
    - change (Z.log2 0) with 0. lia.
    - apply Z.log2_lt_pow2; lia. }
  pose proof (Hlog a Ha). pose proof (Hlog b Hb). lia.
Qed.

(** After [n] rounds of the second loop exactly the bits below [n] with a
    positive counter are set. *)
Lemma collapse_bits vector n :
  0 <= fold_left (collapse_step vector) (seq 0 n) 0 < 2 ^ Z.of_nat n
  /\ forall i, Z.testbit (fold_left (collapse_step vector) (seq 0 n) 0)
                 (Z.of_nat i)
               = (i <? n)%nat && (vector !!! i >? 0).
Proof.
  induction n as [|n [IHr IHb]].
  - cbn. split; [lia|]. intros i. apply Z.testbit_0_l.
  - rewrite seq_S, fold_left_app. cbn [fold_left Nat.add].
    set (fp := fold_left _ (seq 0 n) 0) in *.
    assert (Hpow : 2 ^ Z.of_nat (S n) = 2 * 2 ^ Z.of_nat n)
      by (rewrite Nat2Z.inj_succ, Z.pow_succ_r by lia; reflexivity).
    assert (Hpos : 0 < 2 ^ Z.of_nat n) by (apply Z.pow_pos_nonneg; lia).
    unfold collapse_step.
    assert (Hlt : forall i, i <> n -> (i <? S n)%nat = (i <? n)%nat).
    { intros i Hne.
      destruct (Nat.ltb_spec i n), (Nat.ltb_spec i (S n)); try reflexivity; lia. }
    assert (Hnn : (n <? n)%nat = false) by apply Nat.ltb_irrefl.
    assert (HnS : (n <? S n)%nat = true) by (apply Nat.ltb_lt; lia).
    destruct (Z.gtb_spec (vector !!! n) 0) as [Hgt|Hle].
    + split.
      * apply lor_bound; [lia|lia|]. rewrite Z.shiftl_1_l. lia.
      * intros i. rewrite Z.lor_spec, IHb, Z.shiftl_1_l, Z.pow2_bits_eqb by lia.
        destruct (Nat.eq_dec i n) as [->|Hne].
        -- rewrite Hnn, HnS, Z.eqb_refl. cbn [andb orb].
           symmetry. apply Z.gtb_lt. lia.
        -- rewrite (Hlt i Hne).
           assert ((Z.of_nat n =? Z.of_nat i) = false) as ->
             by (apply Z.eqb_neq; lia).
           apply orb_false_r.
    + split; [lia|]. intros i. rewrite IHb.
      destruct (Nat.eq_dec i n) as [->|Hne].
      * rewrite Hnn, HnS. cbn [andb]. symmetry.
        destruct (Z.gtb_spec (vector !!! n) 0); [lia|reflexivity].
      * rewrite (Hlt i Hne). reflexivity.
Qed.

Lemma collapse_spec vector :
  0 <= collapse vector < 2 ^ 64
  /\ forall i, (i < 64)%nat ->
               Z.testbit (collapse vector) (Z.of_nat i) = (vector !!! i >? 0).
Proof.
  unfold collapse. destruct (collapse_bits vector 64) as [Hr Hb].
  split; [exact Hr|]. intros i Hi. rewrite Hb.
  destruct (Nat.ltb_spec i 64); [reflexivity|lia].
Qed.

(** ** Hexadecimal encoding *)

Lemma hex_digit_lower d :
  0 <= d < 16 ->
  is_lower_hex_char (hex_digit d) = true /\ hex_value (hex_digit d) = d.
Proof.
  intros Hd. unfold is_lower_hex_char, hex_value, hex_digit, in_range.
  destruct (Z.ltb_spec d 10).
  - destruct (Z.leb_spec 48 (48 + d)), (Z.leb_spec (48 + d) 57); cbn; lia.
  - destruct (Z.leb_spec 48 (87 + d)), (Z.leb_spec (87 + d) 57),
      (Z.leb_spec 97 (87 + d)), (Z.leb_spec (87 + d) 102); cbn; lia.
Qed.

Lemma hex_number_snoc s c : hex_number (s ++ [c]) = hex_number s * 16 + hex_value c.
Proof. unfold hex_number. rewrite fold_left_app. reflexivity. Qed.

(** The digits produced for [n] are its numeral: with enough rounds the
    loop emits lowercase digits of value [n], at most [k] of them when
    [n < 16^k]. *)
Lemma to_hex_loop_digits fuel : forall n acc k,
  0 <= n < 16 ^ Z.of_nat k -> n < 2 ^ Z.of_nat fuel ->
  exists ds,
    to_hex_loop fuel n acc = ds ++ acc
    /\ (length ds <= Nat.max 1 k)%nat
    /\ forallb is_lower_hex_char ds = true
    /\ hex_number ds = n.
Proof.
  induction fuel as [|fuel IH]; intros n acc k Hn Hfuel.
  - change (2 ^ Z.of_nat 0) with 1 in Hfuel. assert (n = 0) as -> by lia.
    exists []. cbn. repeat split; try reflexivity. lia.
  - cbn [to_hex_loop]. cbn zeta.
    assert (Hmod : 0 <= n mod 16 < 16) by (apply Z.mod_pos_bound; lia).
    destruct (hex_digit_lower (n mod 16) Hmod) as [Hlow Hval].
    destruct (Z.ltb_spec n 16) as [Hsmall|Hbig].
    + exists [hex_digit (n mod 16)]. cbn [app length forallb].
      rewrite Hlow. repeat split; [lia|].
      change (hex_number [hex_digit (n mod 16)])
        with (0 * 16 + hex_value (hex_digit (n mod 16))).
      rewrite Hval, Z.mod_small; lia.
    + destruct k as [|k]; [change (16 ^ Z.of_nat 0) with 1 in Hn; lia|].
      rewrite Nat2Z.inj_succ, Z.pow_succ_r in Hn, Hfuel by lia.
      assert (Hdiv : 0 <= n / 16 < 16 ^ Z.of_nat k).
      { split; [apply Z.div_pos; lia|apply Z.div_lt_upper_bound; lia]. }
      assert (Hdiv2 : n / 16 < 2 ^ Z.of_nat fuel).
      { apply Z.div_lt_upper_bound; lia. }
      destruct (IH (n / 16) (hex_digit (n mod 16) :: acc) k Hdiv Hdiv2)
        as (ds & Heq & Hlen & Hall & Hnum).
      exists (ds ++ [hex_digit (n mod 16)]).
      rewrite Heq, <- app_assoc. split; [reflexivity|].
      rewrite length_app, forallb_app, hex_number_snoc, Hall, Hnum, Hval.
      cbn [length forallb]. rewrite Hlow.
      destruct k as [|k].
      * change (16 ^ Z.of_nat 0) with 1 in Hdiv. lia.
      * repeat split; [lia|]. pose proof (Z.div_mod n 16). lia.
Qed.

Lemma hex_number_zeros k : hex_number (replicate k 48) = 0.
Proof.
  induction k as [|k IH]; [reflexivity|].
  change (replicate (S k) 48) with ([48] ++ replicate k 48).
  rewrite hex_number_app, IH. reflexivity.
Qed.

Lemma forallb_replicate {A} (f : A -> bool) k x :
  f x = true -> forallb f (replicate k x) = true.
Proof. intros H. induction k; cbn; [reflexivity|]. rewrite H. assumption. Qed.

Lemma padStart_toString16_encodes v :
  0 <= v < 2 ^ 64 -> encodes (padStart (toString16 v) 16 48) v.
Proof.
  intros Hv. unfold toString16, padStart.
  destruct (to_hex_loop_digits (S (Z.to_nat (Z.log2 v))) v [] 16)
    as (ds & Heq & Hlen & Hall & Hnum).
  - exact Hv.
  - destruct (Z.eq_dec v 0) as [->|Hnz].
    + apply Z.pow_pos_nonneg; lia.
    + rewrite Nat2Z.inj_succ, Z2Nat.id by apply Z.log2_nonneg.
      apply Z.log2_lt_pow2; lia.
  - rewrite Heq, app_nil_r. change (Nat.max 1 16) with 16%nat in Hlen.
    repeat split.
    + rewrite length_app, length_replicate. lia.
    + rewrite forallb_app, Hall, forallb_replicate; reflexivity.
    + rewrite hex_number_app, hex_number_zeros, Hnum. lia.
Qed.

(** ** Tokenization *)

Lemma replace_non_word_spaces s :
  forallb is_space_char s = true ->
  forallb is_space_char (replace_non_word s) = true.
Proof.
  unfold replace_non_word. induction s as [|c s IH]; [reflexivity|].
  cbn [forallb map]. intros [Hc Hs]%andb_prop.
  rewrite Hc, orb_true_r, Hc, IH; auto.
Qed.

Lemma split_spaces_blank s : forall sep,
  forallb is_space_char s = true ->
  Forall (fun piece => piece = []) (split_spaces s [] sep).
Proof.
  induction s as [|c s IH]; intros sep H.
  - cbn. repeat constructor.
  - cbn [forallb] in H. apply andb_prop in H as [Hc Hs].
    cbn [split_spaces]. rewrite Hc. destruct sep.
    + apply IH, Hs.
    + constructor; [reflexivity|apply IH, Hs].
Qed.

(** The pieces are made of the code units that are not white space. *)
Lemma split_spaces_chars (P : Z -> Prop) s : forall cur sep,
  Forall P cur ->
  Forall (fun c => is_space_char c = false -> P c) s ->
  Forall (Forall P) (split_spaces s cur sep).
Proof.
  induction s as [|c s IH]; intros cur sep Hcur Hs.
  - cbn. constructor; [|constructor]. apply Forall_rev, Hcur.
  - inversion Hs as [|? ? Hc Hs']; subst. cbn [split_spaces].
    destruct (is_space_char c) eqn:Ec.
    + destruct sep; [apply IH; auto|].
      constructor; [apply Forall_rev, Hcur|apply IH; auto].
    + apply IH; [constructor; auto|assumption].
Qed.

Lemma replace_non_word_chars s :
  Forall (fun c => is_space_char c = false -> is_word_char c = true)
    (replace_non_word s).
Proof.
  unfold replace_non_word. induction s as [|c s IH]; cbn [map]; constructor;
    [|exact IH].
  destruct (is_word_char c) eqn:Ew; cbn [orb]; [intros _; exact Ew|].
  destruct (is_space_char c) eqn:Es; [congruence|]. discriminate.
Qed.

Lemma filter_blank (pieces : list jsstring) :
  Forall (fun piece => piece = []) pieces ->
  List.filter (fun word => 2 <=? Z.of_nat (length word)) pieces = [].
Proof.
  induction 1 as [|p pieces -> _ IH]; [reflexivity|].
  cbn. exact IH.
Qed.

Lemma ascii_lower_blank s :
  forallb is_space_char s = true ->
  forallb is_space_char (ascii_lower s) = true.
Proof.
  unfold ascii_lower. induction s as [|c s IH]; [reflexivity|].
  cbn [forallb map]. intros [Hc Hs]%andb_prop. rewrite IH by assumption.
  assert (in_range 65 90 c = false) as ->
    by (revert Hc; unfold is_space_char, in_range; lia).
  rewrite Hc. reflexivity.
Qed.

(** The spec's words and the code's pieces. *)

Lemma is_word_not_space c : is_word_char c = true -> is_space_char c = false.
Proof. unfold is_word_char, is_space_char, in_range. lia. Qed.

Lemma words_run w :
  Forall (fun c => is_word_char c = true) w -> w <> [] -> words w = [w].
Proof.
  induction 1 as [|a w Ha Hw IH]; intros Hne; [congruence|].
  cbn [words]. rewrite Ha. destruct w as [|b w]; [reflexivity|].
  rewrite IH by discriminate. inversion Hw as [|? ? Hb _]; subst.
  cbn [starts_word]. rewrite Hb. reflexivity.
Qed.

Lemma words_app_sep w c s :
  Forall (fun c => is_word_char c = true) w -> is_word_char c = false ->
  words (w ++ c :: s) = match w with [] => [] | _ => [w] end ++ words s.
Proof.
  intros Hw Hc. induction Hw as [|a w Ha Hw IH].
  - cbn [app words]. rewrite Hc. reflexivity.
  - cbn [app words]. rewrite Ha, IH.
    destruct w as [|b w].
    + cbn [app starts_word]. rewrite Hc. destruct (words s); reflexivity.
    + cbn [app starts_word]. inversion Hw as [|? ? Hb _]; subst.
      rewrite Hb. reflexivity.
Qed.

Lemma words_Forall (P : Z -> Prop) s :
  Forall P s -> Forall (Forall P) (words s).
Proof.
  induction 1 as [|c r Hc Hr IH]; [constructor|].
  cbn [words]. destruct (is_word_char c); [|exact IH].
  destruct (words r) as [|w ws]; [repeat constructor; exact Hc|].
  inversion IH as [|? ? Hw Hws]; subst.
  destruct (starts_word r); repeat constructor; assumption.
Qed.

(** The pieces of the split that are not empty are the words. *)
Lemma split_spaces_words s :
  (forall cur,
     Forall (fun c => is_word_char c = true) cur ->
     List.filter (fun w => negb (Nat.eqb (length w) 0))
       (split_spaces (replace_non_word s) cur false)
     = words (rev cur ++ s))
  /\ List.filter (fun w => negb (Nat.eqb (length w) 0))
       (split_spaces (replace_non_word s) [] true)
     = words s.
Proof.
  assert (Hrun : forall cur,
            Forall (fun c => is_word_char c = true) cur ->
            List.filter (fun w => negb (Nat.eqb (length w) 0)) [rev cur]
            = match rev cur with [] => [] | _ => [rev cur] end).
  { intros cur _. cbn [List.filter]. destruct (rev cur); reflexivity. }
  induction s as [|c s [IHA IHB]].
  - split; [|reflexivity]. intros cur Hcur. cbn [replace_non_word map split_spaces].
    rewrite app_nil_r, (Hrun cur Hcur).
    destruct (rev cur) as [|a w] eqn:E; [reflexivity|].
    symmetry. apply words_run; [|discriminate].
    rewrite <- E. apply Forall_rev, Hcur.
  - unfold replace_non_word in *. cbn [map].
    destruct (is_word_char c) eqn:Ew.
    + cbn [orb split_spaces]. rewrite (is_word_not_space c Ew). split.
      * intros cur Hcur. rewrite IHA by (constructor; assumption).
        cbn [rev]. rewrite <- app_assoc. reflexivity.
      * rewrite IHA by (repeat constructor; assumption). reflexivity.
    + assert (Hsp : is_space_char
                      (if false || is_space_char c then c else 32) = true)
        by (destruct (is_space_char c) eqn:Es; [exact Es|reflexivity]).
      cbn [split_spaces]. rewrite Hsp. split.
      * intros cur Hcur.
        change (rev cur :: ?l) with ([rev cur] ++ l).
        rewrite List.filter_app, (Hrun cur Hcur), IHB.
        rewrite words_app_sep by (try apply Forall_rev; assumption).
        reflexivity.
      * rewrite IHB. cbn [words]. rewrite Ew. reflexivity.
Qed.

Lemma filter_long (pieces : list jsstring) :
  List.filter (fun w => 2 <=? Z.of_nat (length w)) pieces
  = List.filter (fun w => (2 <=? length w)%nat)
      (List.filter (fun w => negb (Nat.eqb (length w) 0)) pieces).
Proof.
  induction pieces as [|p pieces IH]; [reflexivity|].
  cbn [List.filter]. rewrite IH.
  destruct (Nat.eqb_spec (length p) 0) as [E|E]; cbn [negb List.filter].
  - destruct (Z.leb_spec 2 (Z.of_nat (length p))); [lia|reflexivity].
  - destruct (Z.leb_spec 2 (Z.of_nat (length p))),
      (Nat.leb_spec 2 (length p)); try reflexivity; lia.
Qed.

Lemma tokenize_long_words toLowerCase text :
  tokenize toLowerCase text 2 = long_words (toLowerCase text).
Proof.
  unfold tokenize, long_words. rewrite filter_long.
  destruct (split_spaces_words (toLowerCase text)) as [HA _].
  rewrite (HA [] (Forall_nil_2 _)). reflexivity.
Qed.

Lemma ascii_lower_no_upper s :
  Forall (fun c => in_range 65 90 c = false) (ascii_lower s).
Proof.
  unfold ascii_lower. induction s as [|c s IH]; cbn [map]; constructor;
    [|exact IH].
  destruct (in_range 65 90 c) eqn:E; [|exact E].
  revert E. unfold in_range. lia.
Qed.

Section Fingerprint.

Variable toLowerCase : jsstring -> jsstring.

(** White space has no case mapping: lower-casing a string of white
    space (the empty string too) gives a string of white space. *)
Hypothesis toLowerCase_blank : forall s,
  forallb is_space_char s = true ->
  forallb is_space_char (toLowerCase s) = true.

(** On a string of ASCII characters, lower-casing maps the letters A to Z
    to a to z and keeps the other characters. *)
Hypothesis toLowerCase_ascii : forall s,
  Forall (fun c => 0 <= c < 128) s -> toLowerCase s = ascii_lower s.

Lemma tokenize_blank text :
  forallb is_space_char text = true -> tokenize toLowerCase text 2 = [].
Proof.
  intros H. unfold tokenize. apply filter_blank, split_spaces_blank.
  apply replace_non_word_spaces, toLowerCase_blank, H.
Qed.

Lemma tokenize_words text :
  Forall
    (fun token =>
       (2 <= length token)%nat
       /\ Forall (fun c => is_word_char c = true) token)
    (tokenize toLowerCase text 2).
Proof.
  apply List.Forall_forall. intros token Hin. unfold tokenize in Hin.
  apply List.filter_In in Hin as [Hin Hlen]. split; [lia|].
  pose proof (split_spaces_chars (fun c => is_word_char c = true)
                (replace_non_word (toLowerCase text)) [] false
                (Forall_nil_2 _) (replace_non_word_chars _)) as Hall.
  rewrite List.Forall_forall in Hall. apply Hall, Hin.
Qed.

(** C2: [computeSimHash] follows the algorithm.  Its tokens are the words
    of the lower-cased text (the maximal runs of [\w] characters) that
    have at least two characters; for a text of ASCII characters these
    are made of lowercase letters, digits and underscores; empty and
    white-space-only text has no token; without tokens the result is the
    all-zero fingerprint; and in every case the result is the 16-character
    lowercase zero-padded hexadecimal numeral of the 64-bit value whose
    bit [i] is set exactly when the sum of the token votes at [i] is
    strictly positive (a sum of 0 gives bit 0). *)
Theorem computeSimHash_algorithm (text : jsstring) :
  tokenize toLowerCase text 2 = long_words (toLowerCase text)
  /\ (Forall (fun c => 0 <= c < 128) text ->
      long_words (toLowerCase text) = long_words (ascii_lower text)
      /\ Forall (Forall (fun c => is_lower_word_char c = true))
           (long_words (toLowerCase text)))
  /\ (forallb is_space_char text = true -> long_words (toLowerCase text) = [])
  /\ (long_words (toLowerCase text) = [] ->
      computeSimHash toLowerCase text = js "0000000000000000")
  /\ exists fp,
       encodes (computeSimHash toLowerCase text) fp
       /\ 0 <= fp < 2 ^ 64
       /\ forall i, (i < 64)%nat ->
            (Z.testbit fp (Z.of_nat i) = true
             <-> 0 < tally (long_words (toLowerCase text)) i).
Proof.
  pose proof (tokenize_long_words toLowerCase text) as Htok.
  split; [exact Htok|]. split; [|split; [|split]].
  - intros Hascii. rewrite (toLowerCase_ascii text Hascii).
    split; [reflexivity|].
    rewrite <- (tokenize_long_words ascii_lower text).
    pose proof (tokenize_words text) as Hw.
    rewrite Htok, (toLowerCase_ascii text Hascii) in Hw.
    rewrite (tokenize_long_words ascii_lower text).
    pose proof (words_Forall _ _ (ascii_lower_no_upper text)) as Hlow.
    rewrite List.Forall_forall in Hw, Hlow. apply List.Forall_forall.
    intros token Hin. destruct (Hw token Hin) as [_ Hword].
    assert (Hin' : In token (words (ascii_lower text)))
      by (apply List.filter_In in Hin; apply Hin).
    specialize (Hlow token Hin').
    rewrite List.Forall_forall in Hword, Hlow. apply List.Forall_forall.
    intros c Hc. specialize (Hword c Hc). specialize (Hlow c Hc).
    revert Hword Hlow. unfold is_word_char, is_lower_word_char, in_range. lia.
  - intros Hblank. rewrite <- Htok. apply tokenize_blank, Hblank.
  - intros Hnone. unfold computeSimHash. rewrite Htok, Hnone. reflexivity.
  - unfold computeSimHash. rewrite Htok.
    destruct (long_words (toLowerCase text)) as [|t tokens] eqn:Etok.
    + exists 0. split; [repeat split|]. split; [lia|].
      intros i Hi. rewrite Z.testbit_0_l. cbn [tally foldr]. split; [discriminate|lia].
    + cbn [length Nat.eqb].
      set (vector := fold_left _ (t :: tokens) (replicate 64 0)).
      destruct (votes_tally (t :: tokens) (replicate 64 0)
                  (length_replicate 64 0)) as [_ Hvec].
      fold vector in Hvec.
      destruct (collapse_spec vector) as [Hrange Hbits].
      exists (collapse vector).
      split; [apply padStart_toString16_encodes, Hrange|].
      split; [exact Hrange|].
      intros i Hi. rewrite Hbits, Hvec by assumption.
      rewrite lookup_total_replicate_2 by assumption.
      destruct (Z.gtb_spec (0 + tally (t :: tokens) i) 0); split; intros;
        try lia; try reflexivity; discriminate.
Qed.

End Fingerprint.

Lemma computeSimHash_algorithm_witness :
  long_words (ascii_lower (js "Breaking news: Major earthquake"))
  = [js "breaking"; js "news"; js "major"; js "earthquake"]
  /\ tokenize ascii_lower (js "Breaking news: Major earthquake") 2
     = long_words (ascii_lower (js "Breaking news: Major earthquake"))
  /\ Forall (Forall (fun c => is_lower_word_char c = true))
       (long_words (ascii_lower (js "Breaking news: Major earthquake")))
  /\ exists fp,
       encodes (computeSimHash ascii_lower
                  (js "Breaking news: Major earthquake")) fp
       /\ 0 <= fp < 2 ^ 64
       /\ forall i, (i < 64)%nat ->
            (Z.testbit fp (Z.of_nat i) = true
             <-> 0 < tally (long_words
                              (ascii_lower
                                 (js "Breaking news: Major earthquake"))) i).
Proof.
  split; [vm_compute; reflexivity|].
  destruct (computeSimHash_algorithm ascii_lower ascii_lower_blank
              (fun s _ => eq_refl) (js "Breaking news: Major earthquake"))
    as (Htok & Hascii & _ & _ & Hfp).
  split; [exact Htok|]. split; [|exact Hfp].
  apply Hascii. repeat constructor; vm_compute; intros H; discriminate H.
Defined.

(** * Further properties of the comparators *)

Lemma filter_length_0 {A} (f : A -> bool) (l : list A) :
  length (List.filter f l) = 0%nat -> forall x, In x l -> f x = false.
Proof.
  induction l as [|a l IH]; cbn [List.filter]; intros H x [].
  - subst. destruct (f x); [discriminate|reflexivity].
  - destruct (f a); [discriminate|]. apply IH; assumption.
Qed.

Lemma filter_length_le_or {A} (f g h : A -> bool) (l : list A) :
  (forall x, f x = true -> g x = true \/ h x = true) ->
  (length (List.filter f l)
   <= length (List.filter g l) + length (List.filter h l))%nat.
Proof.
  intros Hf. induction l as [|a l IH]; cbn [List.filter]; [cbn; lia|].
  destruct (f a) eqn:Efa.
  - destruct (Hf a Efa) as [-> | ->]; destruct (g a), (h a); cbn [length]; lia.
  - destruct (g a), (h a); cbn [length]; lia.
Qed.

Lemma set_bits_zero n x :
  0 <= x < 2 ^ Z.of_nat n -> set_bits n x = 0 -> x = 0.
Proof.
  intros Hx H0. unfold set_bits in H0.
  assert (Hlen : length (List.filter (fun i => Z.testbit x (Z.of_nat i))
                           (seq 0 n)) = 0%nat) by lia.
  apply Z.bits_inj'. intros i Hi. rewrite Z.testbit_0_l.
  destruct (Z.lt_ge_cases i (Z.of_nat n)) as [Hlt|Hge].
  - rewrite <- (Z2Nat.id i Hi).
    apply (filter_length_0 _ _ Hlen (Z.to_nat i)). apply in_seq. lia.
  - destruct (Z.eq_dec x 0) as [->|Hnz]; [apply Z.testbit_0_l|].
    apply Z.bits_above_log2; [lia|].
    assert (Z.log2 x < Z.of_nat n) by (apply Z.log2_lt_pow2; lia). lia.
Qed.

Lemma differing_bits_zero n a b :
  0 <= a < 2 ^ Z.of_nat n -> 0 <= b < 2 ^ Z.of_nat n ->
  differing_bits n a b = 0 <-> a = b.
Proof.
  intros Ha Hb. split.
  - rewrite differing_bits_lxor. intros H0. apply Z.lxor_eq.
    apply (set_bits_zero n); [apply lxor_bound; lia|exact H0].
  - intros ->. apply differing_bits_refl.
Qed.

Lemma differing_bits_triangle n a b c :
  differing_bits n a c <= differing_bits n a b + differing_bits n b c.
Proof.
  unfold differing_bits. rewrite <- Nat2Z.inj_add. apply Nat2Z.inj_le.
  apply filter_length_le_or. intros i.
  destruct (Z.testbit a (Z.of_nat i)), (Z.testbit b (Z.of_nat i)),
    (Z.testbit c (Z.of_nat i)); cbn; auto.
Qed.

(** X1: on well-formed fingerprints the fast-path distance is a metric on
    the 64-bit values: it is 0 exactly when the two fingerprints denote
    the same value, and it satisfies the triangle inequality. *)
Theorem hammingDistance_metric (a b c : jsstring) :
  is_fingerprint a = true -> is_fingerprint b = true ->
  is_fingerprint c = true ->
  exists dab dbc dac,
    hammingDistance a b = Ok dab
    /\ hammingDistance b c = Ok dbc
    /\ hammingDistance a c = Ok dac
    /\ dac <= dab + dbc
    /\ (dab = 0 <-> hex_number a = hex_number b).
Proof.
  intros Ha Hb Hc. rewrite !hammingDistance_fingerprints by assumption.
  do 3 eexists. do 3 (split; [reflexivity|]).
  split; [apply differing_bits_triangle|].
  apply (differing_bits_zero 64); apply fingerprint_value_range; assumption.
Qed.

Lemma hammingDistance_metric_witness :
  exists dab dbc dac,
    hammingDistance (js "ffffffffffffffff") (js "FFFFFFFFFFFFFFFF") = Ok dab
    /\ hammingDistance (js "FFFFFFFFFFFFFFFF") (js "0123456789abcdef") = Ok dbc
    /\ hammingDistance (js "ffffffffffffffff") (js "0123456789abcdef") = Ok dac
    /\ dac <= dab + dbc
    /\ (dab = 0
        <-> hex_number (js "ffffffffffffffff") = hex_number (js "FFFFFFFFFFFFFFFF")).
Proof.
  apply (hammingDistance_metric (js "ffffffffffffffff")
           (js "FFFFFFFFFFFFFFFF") (js "0123456789abcdef"));
    vm_compute; reflexivity.
Defined.

(** X2: the fast path checks no length.  On two non-empty strings of
    hexadecimal digits of any lengths it returns the number of differing
    bits of their values, over any width that holds both. *)
Theorem hammingDistance_any_length (a b : jsstring) (n : nat) :
  a <> [] -> b <> [] ->
  forallb is_hex_char a = true -> forallb is_hex_char b = true ->
  (4 * length a <= n)%nat -> (4 * length b <= n)%nat ->
  hammingDistance a b = Ok (differing_bits n (hex_number a) (hex_number b)).
Proof.
  intros Hna Hnb Ha Hb Hla Hlb. unfold hammingDistance.
  rewrite !BigInt_0x_hex by assumption.
  assert (Hr : forall s, forallb is_hex_char s = true ->
                         (4 * length s <= n)%nat ->
                         0 <= hex_number s < 2 ^ Z.of_nat n).
  { intros s Hs Hl. pose proof (hex_number_range s Hs) as [H0 H1].
    split; [exact H0|]. eapply Z.lt_le_trans; [exact H1|].
    change 16 with (2 ^ 4). rewrite <- Z.pow_mul_r by lia.
    apply Z.pow_le_mono_r; lia. }
  rewrite (run_count_loop_nonneg _ 0 n) by (apply lxor_bound; auto; lia).
  rewrite differing_bits_lxor. reflexivity.
Qed.

Lemma hammingDistance_any_length_witness :
  hammingDistance (js "ff") (js "00000000000000000f0")
  = Ok (differing_bits 76 (hex_number (js "ff"))
          (hex_number (js "00000000000000000f0"))).
Proof.
  apply (hammingDistance_any_length (js "ff") (js "00000000000000000f0") 76);
    try discriminate; try reflexivity; vm_compute; lia.
Defined.

Lemma drop_spaces_split l :
  exists spaces,
    l = spaces ++ drop_spaces l /\ forallb is_space_char spaces = true.
Proof.
  induction l as [|c l (spaces & Hl & Hs)]; [exists []; split; reflexivity|].
  cbn [drop_spaces]. destruct (is_space_char c) eqn:Ec.
  - exists (c :: spaces). cbn [app forallb]. rewrite Ec, Hs, <- Hl.
    split; reflexivity.
  - exists []. split; reflexivity.
Qed.

Lemma drop_spaces_app_spaces spaces l :
  forallb is_space_char spaces = true ->
  drop_spaces (spaces ++ l) = drop_spaces l.
Proof.
  induction spaces as [|c spaces IH]; [reflexivity|].
  cbn [forallb app drop_spaces]. intros [-> Hs]%andb_prop. apply IH, Hs.
Qed.

Lemma forallb_rev_true {A} (f : A -> bool) (l : list A) :
  forallb f l = true -> forallb f (rev l) = true.
Proof.
  rewrite !forallb_forall. intros H x Hx. apply H, in_rev, Hx.
Qed.

Lemma trimEnd_split s :
  exists spaces,
    s = trimEnd s ++ spaces /\ forallb is_space_char spaces = true.
Proof.
  unfold trimEnd. destruct (drop_spaces_split (rev s)) as (spaces & Hs & Hall).
  exists (rev spaces). split; [|apply forallb_rev_true, Hall].
  rewrite <- rev_app_distr, <- Hs, rev_involutive. reflexivity.
Qed.

Lemma trimEnd_app_spaces digits spaces :
  forallb is_space_char spaces = true ->
  trimEnd (digits ++ spaces) = trimEnd digits.
Proof.
  intros Hs. unfold trimEnd. rewrite rev_app_distr.
  rewrite drop_spaces_app_spaces by (apply forallb_rev_true, Hs).
  reflexivity.
Qed.

(** [BigInt('0x' + s)] parses exactly the hexadecimal literals. *)
Lemma BigInt_0x_literal s :
  (exists v, BigInt_0x s = Some v) <-> hex_literal s.
Proof.
  split.
  - intros [v Hv]. unfold BigInt_0x in Hv.
    destruct (negb (length (trimEnd s) =? 0)%nat
              && forallb is_hex_char (trimEnd s)) eqn:E; [|discriminate].
    apply andb_prop in E as [Hne Hhex].
    destruct (trimEnd_split s) as (spaces & Hs & Hspaces).
    exists (trimEnd s), spaces. repeat split; try assumption.
    intros E0. rewrite E0 in Hne. discriminate.
  - intros (digits & spaces & -> & Hne & Hhex & Hspaces).
    exists (hex_number digits). unfold BigInt_0x.
    rewrite trimEnd_app_spaces, trimEnd_hex, Hhex by assumption.
    destruct digits; [congruence|reflexivity].
Qed.

Lemma count_loop_ge fuel : forall x c c',
  count_loop fuel x c = Some c' -> c <= c'.
Proof.
  induction fuel as [|fuel IH]; intros x c c' H; [discriminate|].
  cbn [count_loop] in H. destruct (x >? 0).
  - apply IH in H. assert (0 <= Z.land x 1); [|lia].
    rewrite land_1_bit0. destruct (Z.testbit x 0); cbn; lia.
  - injection H as <-. lia.
Qed.

Lemma run_count_loop_ge x c :
  exists c', run_count_loop x c = Ok c' /\ c <= c'.
Proof.
  destruct (run_count_loop_total x c) as [c' Hc']. exists c'.
  split; [exact Hc'|]. unfold run_count_loop in Hc'.
  destruct (count_loop (loop_fuel x) x c) as [c''|] eqn:E; [|discriminate].
  injection Hc' as <-. eapply count_loop_ge, E.
Qed.

(** X3: the outcomes of the fast path.  It throws a SyntaxError exactly
    when one of its inputs is not a hexadecimal literal (a non-empty run
    of hexadecimal digits, then white space only); on two literals it
    returns a count that is not negative. *)
Theorem hammingDistance_outcome (a b : jsstring) :
  (hammingDistance a b = Throw SyntaxError
   <-> ~ hex_literal a \/ ~ hex_literal b)
  /\ (hex_literal a -> hex_literal b ->
      exists d, hammingDistance a b = Ok d /\ 0 <= d).
Proof.
  unfold hammingDistance.
  pose proof (BigInt_0x_literal a) as Ha. pose proof (BigInt_0x_literal b) as Hb.
  destruct (BigInt_0x a) as [va|], (BigInt_0x b) as [vb|].
  - destruct (run_count_loop_ge (Z.lxor va vb) 0) as (d & Hd & Hge).
    rewrite Hd. split.
    + split; [discriminate|]. intros [H|H]; exfalso; apply H;
        [apply Ha|apply Hb]; eauto.
    + intros _ _. exists d. split; [reflexivity|exact Hge].
  - split.
    + split; [|reflexivity]. intros _. right. intros H.
      apply Hb in H as [v Hv]. discriminate.
    + intros _ H. apply Hb in H as [v Hv]. discriminate.
  - split.
    + split; [|reflexivity]. intros _. left. intros H.
      apply Ha in H as [v Hv]. discriminate.
    + intros H. apply Ha in H as [v Hv]. discriminate.
  - split.
    + split; [|reflexivity]. intros _. left. intros H.
      apply Ha in H as [v Hv]. discriminate.
    + intros H. apply Ha in H as [v Hv]. discriminate.
Qed.

Lemma drop_spaces_length s : (length (drop_spaces s) <= length s)%nat.
Proof.
  induction s as [|c s IH]; cbn [drop_spaces]; [lia|].
  destruct (is_space_char c); cbn [length]; lia.
Qed.

Lemma hex_prefix_hex s :
  forallb is_hex_char (hex_prefix s) = true
  /\ (length (hex_prefix s) <= length s)%nat.
Proof.
  induction s as [|c s [IHh IHl]]; cbn [hex_prefix]; [split; [reflexivity|lia]|].
  destruct (is_hex_char c) eqn:Ec; cbn [forallb length].
  - rewrite Ec, IHh. split; [reflexivity|lia].
  - split; [reflexivity|lia].
Qed.

(** [parseInt] of a string of [n] characters, in base 16, is NaN or an
    integer of absolute value below [16^n]. *)
Lemma parseInt16_bound s v :
  parseInt16 s = Some v -> Z.abs v < 16 ^ Z.of_nat (length s).
Proof.
  unfold parseInt16, trimStart.
  pose proof (drop_spaces_length s) as H1.
  set (s1 := drop_spaces s) in *.
  assert (Hsign : exists sign s2,
    match s1 with
    | c :: r => if c =? 45 then (-1, r) else if c =? 43 then (1, r) else (1, s1)
    | [] => (1, s1)
    end = (sign, s2)
    /\ (sign = 1 \/ sign = -1) /\ (length s2 <= length s1)%nat).
  { destruct s1 as [|c r]; [exists 1, []; auto|].
    destruct (c =? 45); [exists (-1), r; cbn [length]; auto|].
    destruct (c =? 43); [exists 1, r; cbn [length]; auto|].
    exists 1, (c :: r). auto. }
  destruct Hsign as (sign & s2 & -> & Hsign & H2).
  set (s3 := match s2 with
             | c1 :: c2 :: r =>
                 if (c1 =? 48) && ((c2 =? 120) || (c2 =? 88)) then r else s2
             | _ => s2
             end).
  assert (H3 : (length s3 <= length s2)%nat).
  { subst s3. destruct s2 as [|c1 [|c2 r]]; try lia.
    destruct ((c1 =? 48) && ((c2 =? 120) || (c2 =? 88))); cbn [length]; lia. }
  destruct (hex_prefix_hex s3) as [Hhex H4].
  destruct (length (hex_prefix s3) =? 0)%nat; [discriminate|].
  intros [= <-].
  pose proof (hex_number_range _ Hhex) as Hr.
  assert (16 ^ Z.of_nat (length (hex_prefix s3)) <= 16 ^ Z.of_nat (length s))
    by (apply Z.pow_le_mono_r; lia).
  destruct Hsign as [-> | ->]; lia.
Qed.

Lemma substring_length s i j : (length (substring s i j) <= j - i)%nat.
Proof. unfold substring. rewrite length_take. lia. Qed.

Lemma chunk_value_bound s i :
  - 2 ^ 16 < toInt32 (parseInt16 (substring s i (i + 4))) < 2 ^ 16.
Proof.
  destruct (parseInt16 (substring s i (i + 4))) as [v|] eqn:E;
    [|cbn; lia].
  apply parseInt16_bound in E.
  assert (16 ^ Z.of_nat (length (substring s i (i + 4))) <= 16 ^ 4).
  { apply Z.pow_le_mono_r; [lia|].
    pose proof (substring_length s i (i + 4)). lia. }
  change (16 ^ 4) with (2 ^ 16) in *.
  rewrite toInt32_small by lia. lia.
Qed.

(** A positive XOR of two integers of absolute value below [2^n] is below
    [2^n]: two negative operands XOR like their complements. *)
Lemma lxor_small n x y :
  0 <= n -> - 2 ^ n < x < 2 ^ n -> - 2 ^ n < y < 2 ^ n ->
  0 < Z.lxor x y -> Z.lxor x y < 2 ^ n.
Proof.
  intros Hn Hx Hy Hpos.
  assert (Hsame : 0 <= x <-> 0 <= y) by (apply Z.lxor_nonneg; lia).
  destruct (Z.le_gt_cases 0 x) as [Hx0|Hx0].
  - apply lxor_bound; lia.
  - assert (Hy0 : y < 0) by lia.
    rewrite <- (Z.lnot_involutive x), <- (Z.lnot_involutive y),
      Z.lxor_lnot_lnot.
    unfold Z.lnot at 1 2. apply lxor_bound; unfold Z.lnot; lia.
Qed.

Lemma chunk_distance_comm a b d i :
  chunk_distance a b d i = chunk_distance b a d i.
Proof. unfold chunk_distance. rewrite Z.lxor_comm. reflexivity. Qed.

Lemma chunk_distance_same a d i : chunk_distance a a d i = Ok d.
Proof.
  unfold chunk_distance. rewrite Z.lxor_nilpotent.
  apply run_count_loop_neg. lia.
Qed.

Lemma chunk_distance_bound a b d i :
  exists d', chunk_distance a b d i = Ok d' /\ d <= d' <= d + 16.
Proof.
  unfold chunk_distance.
  pose proof (chunk_value_bound a i) as Ha.
  pose proof (chunk_value_bound b i) as Hb.
  set (x := Z.lxor _ _).
  destruct (Z.le_gt_cases x 0) as [Hx|Hx].
  - exists d. rewrite run_count_loop_neg by assumption. split; [reflexivity|lia].
  - assert (x < 2 ^ 16) by (apply lxor_small; [lia|assumption..|lia]).
    exists (d + set_bits 16 x).
    rewrite (run_count_loop_nonneg x d 16) by (change (Z.of_nat 16) with 16; lia).
    split; [reflexivity|]. pose proof (set_bits_range 16 x). lia.
Qed.

Lemma calculateHammingDistance_comm a b :
  calculateHammingDistance a b = calculateHammingDistance b a.
Proof.
  unfold calculateHammingDistance. rewrite orb_comm.
  destruct (negb (length b =? 16)%nat || negb (length a =? 16)%nat);
    [reflexivity|].
  cbn [fold_left result_bind]. unfold result_bind.
  rewrite (chunk_distance_comm a b 0 0).
  destruct (chunk_distance b a 0 0) as [d0| |]; try reflexivity.
  rewrite (chunk_distance_comm a b d0 4).
  destruct (chunk_distance b a d0 4) as [d1| |]; try reflexivity.
  rewrite (chunk_distance_comm a b d1 8).
  destruct (chunk_distance b a d1 8) as [d2| |]; try reflexivity.
  apply chunk_distance_comm.
Qed.

Lemma calculateHammingDistance_same a :
  length a = 16%nat -> calculateHammingDistance a a = Ok 0.
Proof.
  intros Ha. unfold calculateHammingDistance. rewrite Ha.
  cbn [Nat.eqb negb orb fold_left result_bind].
  rewrite !chunk_distance_same. cbn [result_bind].
  rewrite !chunk_distance_same. cbn [result_bind].
  rewrite !chunk_distance_same. cbn [result_bind].
  apply chunk_distance_same.
Qed.

Lemma calculateHammingDistance_range a b :
  length a = 16%nat -> length b = 16%nat ->
  exists d, calculateHammingDistance a b = Ok d /\ 0 <= d <= 64.
Proof.
  intros Ha Hb. unfold calculateHammingDistance. rewrite Ha, Hb.
  cbn [Nat.eqb negb orb fold_left result_bind].
  destruct (chunk_distance_bound a b 0 0) as (d0 & -> & H0).
  cbn [result_bind].
  destruct (chunk_distance_bound a b d0 4) as (d1 & -> & H1).
  cbn [result_bind].
  destruct (chunk_distance_bound a b d1 8) as (d2 & -> & H2).
  cbn [result_bind].
  destruct (chunk_distance_bound a b d2 12) as (d3 & -> & H3).
  exists d3. split; [reflexivity|lia].
Qed.

(** X4: the validated comparator on every pair of 16-character strings,
    hexadecimal or not: it is symmetric, it gives 0 for a string and
    itself, and its result lies in [0, 64]. *)
Theorem calculateHammingDistance_any_strings (a b : jsstring) :
  calculateHammingDistance a b = calculateHammingDistance b a
  /\ (length a = 16%nat -> calculateHammingDistance a a = Ok 0)
  /\ (length a = 16%nat -> length b = 16%nat ->
      exists d, calculateHammingDistance a b = Ok d /\ 0 <= d <= 64).
Proof.
  split; [apply calculateHammingDistance_comm|].
  split; [apply calculateHammingDistance_same|].
  apply calculateHammingDistance_range.
Qed.

Lemma isNearDuplicate_fingerprints a b threshold :
  is_fingerprint a = true -> is_fingerprint b = true ->
  isNearDuplicate a b threshold
  = Ok (differing_bits 64 (hex_number a) (hex_number b) <=? threshold).
Proof.
  intros Ha Hb. unfold isNearDuplicate.
  rewrite hammingDistance_fingerprints by assumption. reflexivity.
Qed.

(** X5: [isNearDuplicate] on well-formed fingerprints is symmetric, holds
    between a fingerprint and itself for every threshold that is not
    negative, fails for every negative threshold, holds for every threshold
    from 64 on, and is monotone in the threshold. *)
Theorem isNearDuplicate_properties (a b : jsstring) (t t' : Z) :
  is_fingerprint a = true -> is_fingerprint b = true ->
  isNearDuplicate a b t = isNearDuplicate b a t
  /\ (0 <= t -> isNearDuplicate a a t = Ok true)
  /\ (t < 0 -> isNearDuplicate a b t = Ok false)
  /\ (64 <= t -> isNearDuplicate a b t = Ok true)
  /\ (t <= t' -> isNearDuplicate a b t = Ok true ->
      isNearDuplicate a b t' = Ok true).
Proof.
  intros Ha Hb. rewrite !isNearDuplicate_fingerprints by assumption.
  rewrite differing_bits_refl, (differing_bits_comm 64 (hex_number b)).
  pose proof (differing_bits_range 64 (hex_number a) (hex_number b)) as Hr.
  change (Z.of_nat 64) with 64 in Hr.
  split; [reflexivity|]. split; [|split; [|split]].
  - intros Ht. f_equal. apply Z.leb_le, Ht.
  - intros Ht. f_equal. apply Z.leb_gt. lia.
  - intros Ht. f_equal. apply Z.leb_le. lia.
  - intros Ht [= H]. f_equal. apply Z.leb_le. apply Z.leb_le in H. lia.
Qed.

Lemma isNearDuplicate_properties_witness :
  isNearDuplicate (js "ffffffffffffffff") (js "efffffffffffffff") 3
  = isNearDuplicate (js "efffffffffffffff") (js "ffffffffffffffff") 3
  /\ (0 <= 3 ->
      isNearDuplicate (js "ffffffffffffffff") (js "ffffffffffffffff") 3 = Ok true)
  /\ (3 < 0 ->
      isNearDuplicate (js "ffffffffffffffff") (js "efffffffffffffff") 3 = Ok false)
  /\ (64 <= 3 ->
      isNearDuplicate (js "ffffffffffffffff") (js "efffffffffffffff") 3 = Ok true)
  /\ (3 <= 10 ->
      isNearDuplicate (js "ffffffffffffffff") (js "efffffffffffffff") 3 = Ok true ->
      isNearDuplicate (js "ffffffffffffffff") (js "efffffffffffffff") 10 = Ok true).
Proof.
  apply (isNearDuplicate_properties
           (js "ffffffffffffffff") (js "efffffffffffffff") 3 10);
    vm_compute; reflexivity.
Defined.

(** X6: [areArticlesSimilar] reads only the two fingerprints.  It throws
    the format error exactly when one of them does not have 16 characters;
    it is symmetric; and on well-formed fingerprints it answers as
    [isNearDuplicate] does on the fast path. *)
Theorem areArticlesSimilar_spec (a b : ArticleInput.t) (threshold : Z) :
  (areArticlesSimilar a b threshold = Throw FormatError
   <-> length (ArticleInput.simHash a) <> 16%nat
       \/ length (ArticleInput.simHash b) <> 16%nat)
  /\ areArticlesSimilar a b threshold = areArticlesSimilar b a threshold
  /\ (is_fingerprint (ArticleInput.simHash a) = true ->
      is_fingerprint (ArticleInput.simHash b) = true ->
      areArticlesSimilar a b threshold
      = isNearDuplicate (ArticleInput.simHash a) (ArticleInput.simHash b)
          threshold).
Proof.
  unfold areArticlesSimilar. split; [|split].
  - rewrite <- calculateHammingDistance_throws.
    destruct (calculateHammingDistance _ _) as [d|e|]; cbn [result_bind].
    + destruct (d >? threshold); split; discriminate.
    + split; intros [= ->]; reflexivity.
    + split; discriminate.
  - rewrite (calculateHammingDistance_comm (ArticleInput.simHash a)).
    reflexivity.
  - intros Ha Hb.
    rewrite calculateHammingDistance_fingerprints,
      isNearDuplicate_fingerprints by assumption.
    cbn [result_bind].
    destruct (Z.gtb_spec (differing_bits 64 (hex_number (ArticleInput.simHash a))
                            (hex_number (ArticleInput.simHash b))) threshold),
      (Z.leb_spec (differing_bits 64 (hex_number (ArticleInput.simHash a))
                            (hex_number (ArticleInput.simHash b))) threshold);
      try reflexivity; lia.
Qed.

(** X7: for distances in [0, 64] the similarity score lies in [0, 1],
    decreases strictly as the distance grows, and determines the distance:
    [64 * (1 - similarity) = distance]. *)
Theorem distanceToSimilarity_properties (d d' : Z) :
  0 <= d <= 64 -> 0 <= d' <= 64 ->
  ((0 <= distanceToSimilarity d)%Q /\ (distanceToSimilarity d <= 1)%Q)
  /\ (d < d' <-> (distanceToSimilarity d' < distanceToSimilarity d)%Q)
  /\ (inject_Z 64 * (1 - distanceToSimilarity d) == inject_Z d)%Q.
Proof.
  intros Hd Hd'. unfold distanceToSimilarity. split; [|split].
  - unfold Qle. cbn. lia.
  - unfold Qlt. cbn. lia.
  - unfold Qeq. cbn. lia.
Qed.

Lemma distanceToSimilarity_properties_witness :
  ((0 <= distanceToSimilarity 3)%Q /\ (distanceToSimilarity 3 <= 1)%Q)
  /\ (3 < 32 <-> (distanceToSimilarity 32 < distanceToSimilarity 3)%Q)
  /\ (inject_Z 64 * (1 - distanceToSimilarity 3) == inject_Z 3)%Q.
Proof. apply (distanceToSimilarity_properties 3 32); lia. Defined.

(** X8: the default threshold and the match classes agree.  For two
    well-formed fingerprints at distance [d], they are near-duplicates at
    threshold 3 exactly when the match type of [d] is exact or near, and
    the match type is exact exactly when they denote the same value. *)
Theorem isNearDuplicate_match_type (a b : jsstring) :
  is_fingerprint a = true -> is_fingerprint b = true ->
  exists d,
    hammingDistance a b = Ok d
    /\ (isNearDuplicate a b 3 = Ok true
        <-> getMatchType d = exact \/ getMatchType d = near)
    /\ (getMatchType d = exact <-> hex_number a = hex_number b).
Proof.
  intros Ha Hb. rewrite isNearDuplicate_fingerprints by assumption.
  rewrite hammingDistance_fingerprints by assumption.
  eexists. split; [reflexivity|].
  pose proof (differing_bits_range 64 (hex_number a) (hex_number b)) as Hr.
  pose proof (differing_bits_zero 64 (hex_number a) (hex_number b)
                (fingerprint_value_range a Ha) (fingerprint_value_range b Hb))
    as Hz.
  set (d := differing_bits 64 (hex_number a) (hex_number b)) in *.
  unfold getMatchType. split.
  - destruct (Z.eqb_spec d 0) as [E0|E0], (Z.leb_spec d 3) as [E3|E3],
      (Z.leb_spec d 10) as [E10|E10];
      split; intros Hyp; try lia; auto; try discriminate;
      try (destruct Hyp; discriminate).
  - rewrite <- Hz. destruct (Z.eqb_spec d 0) as [E0|E0],
      (Z.leb_spec d 3) as [E3|E3], (Z.leb_spec d 10) as [E10|E10];
      split; intros Hyp; try lia; auto; discriminate.
Qed.

Lemma isNearDuplicate_match_type_witness :
  exists d,
    hammingDistance (js "ffffffffffffffff") (js "efffffffffffffff") = Ok d
    /\ (isNearDuplicate (js "ffffffffffffffff") (js "efffffffffffffff") 3
        = Ok true
        <-> getMatchType d = exact \/ getMatchType d = near)
    /\ (getMatchType d = exact
        <-> hex_number (js "ffffffffffffffff")
            = hex_number (js "efffffffffffffff")).
Proof.
  apply (isNearDuplicate_match_type
           (js "ffffffffffffffff") (js "efffffffffffffff"));
    vm_compute; reflexivity.
Defined.

(** * Further properties of the fingerprint *)

(** With tokens, the fingerprint is the numeral of a 64-bit value whose
    bits are the signs of the tallies. *)
Lemma computeSimHash_tokens (toLowerCase : jsstring -> jsstring) text :
  tokenize toLowerCase text 2 <> [] ->
  exists fp,
    computeSimHash toLowerCase text = padStart (toString16 fp) 16 48
    /\ 0 <= fp < 2 ^ 64
    /\ forall i, (i < 64)%nat ->
         Z.testbit fp (Z.of_nat i)
         = (tally (tokenize toLowerCase text 2) i >? 0).
Proof.
  intros Hne. unfold computeSimHash.
  destruct (tokenize toLowerCase text 2) as [|t tokens]; [congruence|].
  cbn [length Nat.eqb].
  set (vector := fold_left _ (t :: tokens) (replicate 64 0)).
  destruct (votes_tally (t :: tokens) (replicate 64 0)
              (length_replicate 64 0)) as [_ Hvec].
  fold vector in Hvec.
  destruct (collapse_spec vector) as [Hrange Hbits].
  exists (collapse vector). split; [reflexivity|]. split; [exact Hrange|].
  intros i Hi. rewrite Hbits, Hvec by assumption.
  rewrite lookup_total_replicate_2 by assumption. reflexivity.
Qed.

Lemma value_by_bits x y :
  0 <= x < 2 ^ 64 -> 0 <= y < 2 ^ 64 ->
  (forall i, (i < 64)%nat -> Z.testbit x (Z.of_nat i) = Z.testbit y (Z.of_nat i)) ->
  x = y.
Proof.
  intros Hx Hy Hbits. apply Z.bits_inj'. intros i Hi.
  destruct (Z.lt_ge_cases i 64) as [Hlt|Hge].
  - rewrite <- (Z2Nat.id i Hi). apply Hbits. lia.
  - assert (Hhigh : forall z, 0 <= z < 2 ^ 64 -> Z.testbit z i = false).
    { intros z Hz. destruct (Z.eq_dec z 0) as [->|]; [apply Z.testbit_0_l|].
      apply Z.bits_above_log2; [lia|].
      assert (Z.log2 z < 64) by (apply Z.log2_lt_pow2; lia). lia. }
    rewrite (Hhigh x Hx), (Hhigh y Hy). reflexivity.
Qed.

Lemma encodes_fingerprint s v : encodes s v -> is_fingerprint s = true.
Proof.
  intros (Hlen & Hlow & _). apply is_fingerprint_spec. split; [exact Hlen|].
  rewrite forallb_forall in *. intros c Hc. specialize (Hlow c Hc).
  unfold is_lower_hex_char in Hlow. unfold is_hex_char.
  apply orb_prop in Hlow as [-> | ->]; [reflexivity|].
  rewrite orb_true_r. reflexivity.
Qed.

Lemma computeSimHash_encodes (toLowerCase : jsstring -> jsstring) text :
  exists fp, encodes (computeSimHash toLowerCase text) fp.
Proof.
  destruct (tokenize toLowerCase text 2) as [|t tokens] eqn:Etok.
  - exists 0. unfold computeSimHash. rewrite Etok. cbn [length Nat.eqb].
    repeat split.
  - destruct (computeSimHash_tokens toLowerCase text) as (fp & -> & Hr & _);
      [rewrite Etok; discriminate|].
    exists fp. apply padStart_toString16_encodes, Hr.
Qed.

(** X9: every fingerprint that [computeSimHash] returns is well formed,
    whatever the text, so both comparators accept any two of them, agree
    on them, and return a distance in [0, 64]. *)
Theorem computeSimHash_comparable
    (toLowerCase : jsstring -> jsstring) (text1 text2 : jsstring) :
  is_fingerprint (computeSimHash toLowerCase text1) = true
  /\ forallb is_lower_hex_char (computeSimHash toLowerCase text1) = true
  /\ exists d,
       hammingDistance (computeSimHash toLowerCase text1)
         (computeSimHash toLowerCase text2) = Ok d
       /\ calculateHammingDistance (computeSimHash toLowerCase text1)
            (computeSimHash toLowerCase text2) = Ok d
       /\ 0 <= d <= 64.
Proof.
  destruct (computeSimHash_encodes toLowerCase text1) as [fp1 H1].
  destruct (computeSimHash_encodes toLowerCase text2) as [fp2 H2].
  pose proof (encodes_fingerprint _ _ H1) as F1.
  pose proof (encodes_fingerprint _ _ H2) as F2.
  split; [exact F1|]. split; [apply H1|].
  rewrite hammingDistance_fingerprints,
    calculateHammingDistance_fingerprints by assumption.
  eexists. split; [reflexivity|]. split; [reflexivity|].
  apply (differing_bits_range 64).
Qed.

Lemma tally_app l1 l2 i : tally (l1 ++ l2) i = tally l1 i + tally l2 i.
Proof.
  induction l1 as [|t l1 IH]; [reflexivity|].
  change ((t :: l1) ++ l2) with (t :: (l1 ++ l2)).
  rewrite !tally_cons, IH. lia.
Qed.

Lemma tally_perm l1 l2 i : Permutation l1 l2 -> tally l1 i = tally l2 i.
Proof.
  induction 1 as [|t l1 l2 _ IH|t u l|l1 l2 l3 _ IH1 _ IH2].
  - reflexivity.
  - rewrite !tally_cons, IH. reflexivity.
  - rewrite !tally_cons. lia.
  - congruence.
Qed.

Lemma tally_repeat l k i :
  tally (concat (replicate k l)) i = Z.of_nat k * tally l i.
Proof.
  induction k as [|k IH]; [reflexivity|].
  change (replicate (S k) l) with (l :: replicate k l).
  cbn [concat]. rewrite tally_app, IH. lia.
Qed.

(** Texts whose tallies have the same signs have the same fingerprint. *)
Lemma computeSimHash_by_signs (toLowerCase : jsstring -> jsstring) text1 text2 :
  (tokenize toLowerCase text1 2 = [] <-> tokenize toLowerCase text2 2 = []) ->
  (forall i, (i < 64)%nat ->
     0 < tally (tokenize toLowerCase text1 2) i
     <-> 0 < tally (tokenize toLowerCase text2 2) i) ->
  computeSimHash toLowerCase text1 = computeSimHash toLowerCase text2.
Proof.
  intros Hnil Hsign.
  destruct (tokenize toLowerCase text1 2) as [|t1 l1] eqn:E1.
  - assert (E2 : tokenize toLowerCase text2 2 = []) by (apply Hnil; reflexivity).
    unfold computeSimHash. rewrite E1, E2. reflexivity.
  - assert (N1 : tokenize toLowerCase text1 2 <> [])
      by (rewrite E1; discriminate).
    assert (N2 : tokenize toLowerCase text2 2 <> []).
    { intros E2. apply Hnil in E2. discriminate. }
    destruct (computeSimHash_tokens toLowerCase text1 N1) as (fp1 & -> & R1 & B1).
    destruct (computeSimHash_tokens toLowerCase text2 N2) as (fp2 & -> & R2 & B2).
    rewrite E1 in B1. do 3 f_equal. apply value_by_bits; try assumption.
    intros i Hi. rewrite B1, B2 by assumption. specialize (Hsign i Hi).
    destruct (Z.gtb_spec (tally (t1 :: l1) i) 0),
      (Z.gtb_spec (tally (tokenize toLowerCase text2 2) i) 0);
      try reflexivity; lia.
Qed.

(** X10: the fingerprint depends on the bag of tokens only: two texts
    whose token lists are permutations of each other have the same
    fingerprint (word order does not matter). *)
Theorem computeSimHash_word_order
    (toLowerCase : jsstring -> jsstring) (text1 text2 : jsstring) :
  Permutation (tokenize toLowerCase text1 2) (tokenize toLowerCase text2 2) ->
  computeSimHash toLowerCase text1 = computeSimHash toLowerCase text2.
Proof.
  intros Hperm. apply computeSimHash_by_signs.
  - split; intros E; rewrite E in Hperm.
    + apply Permutation_nil, Hperm.
    + apply Permutation_nil, Permutation_sym, Hperm.
  - intros i _. rewrite (tally_perm _ _ i Hperm). reflexivity.
Qed.

Lemma computeSimHash_word_order_witness :
  computeSimHash ascii_lower (js "Major earthquake hits city")
  = computeSimHash ascii_lower (js "City hits: MAJOR earthquake!").
Proof.
  apply (computeSimHash_word_order ascii_lower
           (js "Major earthquake hits city")
           (js "City hits: MAJOR earthquake!")).
  apply (bool_decide_unpack _). vm_compute. exact I.
Defined.

Lemma concat_replicate_nil {A} k :
  @nil A ++ concat (replicate k []) = [].
Proof. induction k as [|k IH]; [reflexivity|exact IH]. Qed.

(** X11: repeating a text does not change its fingerprint: if the tokens
    of one text are those of another repeated one or more times, the two
    fingerprints are equal. *)
Theorem computeSimHash_repetition
    (toLowerCase : jsstring -> jsstring) (text1 text2 : jsstring) (k : nat) :
  tokenize toLowerCase text2 2
  = concat (replicate (S k) (tokenize toLowerCase text1 2)) ->
  computeSimHash toLowerCase text1 = computeSimHash toLowerCase text2.
Proof.
  intros Hrep. apply computeSimHash_by_signs.
  - rewrite Hrep. change (replicate (S k) (tokenize toLowerCase text1 2))
      with (tokenize toLowerCase text1 2
            :: replicate k (tokenize toLowerCase text1 2)).
    cbn [concat]. split.
    + intros ->. apply concat_replicate_nil.
    + intros E. apply app_eq_nil in E. apply E.
  - intros i _. rewrite Hrep, tally_repeat. nia.
Qed.

Lemma computeSimHash_repetition_witness :
  computeSimHash ascii_lower (js "breaking news")
  = computeSimHash ascii_lower (js "Breaking news. Breaking news! breaking NEWS").
Proof.
  apply (computeSimHash_repetition ascii_lower (js "breaking news")
           (js "Breaking news. Breaking news! breaking NEWS") 2).
  vm_compute. reflexivity.
Defined.

Lemma fnv1a64_range str : 0 <= fnv1a64 str < 2 ^ 64.
Proof.
  destruct str as [|c str _] using rev_ind.
  - vm_compute. split; congruence.
  - rewrite fnv1a64_snoc, MASK_64_ones, Z.land_ones by lia.
    apply Z.mod_pos_bound. lia.
Qed.

(** X12: the fingerprint of a text with a single token is the numeral of
    the FNV-1a hash of that token. *)
Theorem computeSimHash_single_token
    (toLowerCase : jsstring -> jsstring) (text token : jsstring) :
  tokenize toLowerCase text 2 = [token] ->
  encodes (computeSimHash toLowerCase text) (fnv1a64 token).
Proof.
  intros Etok.
  destruct (computeSimHash_tokens toLowerCase text) as (fp & -> & Hr & Hbits);
    [rewrite Etok; discriminate|].
  rewrite Etok in Hbits.
  assert (fp = fnv1a64 token) as ->.
  { apply value_by_bits; [exact Hr|apply fnv1a64_range|].
    intros i Hi. rewrite Hbits by assumption.
    rewrite tally_cons. change (tally [] i) with 0. unfold bit_vote.
    destruct (Z.testbit (fnv1a64 token) (Z.of_nat i)); reflexivity. }
  apply padStart_toString16_encodes, fnv1a64_range.
Qed.

Lemma computeSimHash_single_token_witness :
  encodes (computeSimHash ascii_lower (js "  Hello, a! "))
    (fnv1a64 (js "hello")).
Proof.
  apply (computeSimHash_single_token ascii_lower (js "  Hello, a! ")
           (js "hello")).
  vm_compute. reflexivity.
Defined.

(** * Further properties of the hash primitive *)

(** Multiplication by the FNV prime is invertible modulo 2^64 (the prime
    is odd), so the masking loses no information on 64-bit values. *)
Lemma fnv_multiply_injective x y :
  0 <= x < 2 ^ 64 -> 0 <= y < 2 ^ 64 ->
  Z.land (x * FNV_PRIME) MASK_64 = Z.land (y * FNV_PRIME) MASK_64 ->
  x = y.
Proof.
  intros Hx Hy. rewrite MASK_64_ones, !Z.land_ones by lia. intros E.
  assert (Hinv : forall z, 0 <= z < 2 ^ 64 ->
            ((z * FNV_PRIME) mod 2 ^ 64 * 14886173955864302971) mod 2 ^ 64 = z).
  { intros z Hz. rewrite Z.mul_mod_idemp_l by lia.
    rewrite <- Z.mul_assoc, <- Z.mul_mod_idemp_r by lia.
    change ((FNV_PRIME * 14886173955864302971) mod 2 ^ 64) with 1.
    rewrite Z.mul_1_r. apply Z.mod_small, Hz. }
  rewrite <- (Hinv x Hx), <- (Hinv y Hy), E. reflexivity.
Qed.

Lemma lxor_cancel_r a b x : Z.lxor a x = Z.lxor b x -> a = b.
Proof.
  intros E. apply (f_equal (fun z => Z.lxor z x)) in E.
  rewrite !Z.lxor_assoc, Z.lxor_nilpotent, !Z.lxor_0_r in E. exact E.
Qed.

Lemma lxor_cancel_l h a b : Z.lxor h a = Z.lxor h b -> a = b.
Proof. rewrite !(Z.lxor_comm h). apply lxor_cancel_r. Qed.

(** X13: FNV-1a never collides on a substitution of one code unit: two
    strings that differ in exactly one position have different hashes. *)
Theorem fnv1a64_substitution (s t : jsstring) (c1 c2 : Z) :
  0 <= c1 < 65536 -> 0 <= c2 < 65536 ->
  Forall (fun c => 0 <= c < 65536) t ->
  c1 <> c2 ->
  fnv1a64 (s ++ c1 :: t) <> fnv1a64 (s ++ c2 :: t).
Proof.
  intros Hc1 Hc2 Ht Hne.
  induction t as [|x t IH] using rev_ind.
  - change (s ++ [c1]) with (s ++ [c1]). rewrite !fnv1a64_snoc. intros E.
    pose proof (fnv1a64_range s) as Hs.
    apply fnv_multiply_injective in E;
      [|apply lxor_bound; lia|apply lxor_bound; lia].
    apply Hne. eapply lxor_cancel_l, E.
  - apply Forall_app in Ht as [Ht Hx]. inversion Hx as [|? ? Hx0 _]; subst.
    specialize (IH Ht).
    change (s ++ c1 :: t ++ [x]) with (s ++ (c1 :: t) ++ [x]).
    change (s ++ c2 :: t ++ [x]) with (s ++ (c2 :: t) ++ [x]).
    rewrite !app_assoc, !fnv1a64_snoc. intros E.
    pose proof (fnv1a64_range (s ++ c1 :: t)) as H1.
    pose proof (fnv1a64_range (s ++ c2 :: t)) as H2.
    apply fnv_multiply_injective in E;
      [|apply lxor_bound; lia|apply lxor_bound; lia].
    apply IH. eapply lxor_cancel_r, E.
Qed.

Lemma fnv1a64_substitution_witness :
  fnv1a64 (js "ci" ++ 116 :: js "y") <> fnv1a64 (js "ci" ++ 118 :: js "y").
Proof.
  apply (fnv1a64_substitution (js "ci") (js "y") 116 118); try lia.
  repeat constructor; lia.
Defined.


(** * Numbers *)

Lemma round_ties_even_nearest n d j :
  0 < d ->
  Z.abs (round_ties_even n d * d - n) <= Z.abs (j * d - n).
Proof.
  intros Hd. unfold round_ties_even.
  pose proof (Z.div_mod n d ltac:(lia)) as Hdm.
  pose proof (Z.mod_pos_bound n d Hd) as Hr.
  set (m := n / d) in *. set (r := n mod d) in *.
  assert (Hj : j <= m \/ m + 1 <= j) by lia.
  destruct (Z.ltb_spec (2 * r) d); [nia|].
  destruct (Z.ltb_spec d (2 * r)); [nia|].
  destruct (Z.even m); nia.
Qed.

Lemma round_ties_even_bounds n d lo hi :
  0 < d -> lo * d <= n <= hi * d ->
  lo <= round_ties_even n d <= hi.
Proof.
  intros Hd Hn.
  pose proof (round_ties_even_nearest n d lo Hd).
  pose proof (round_ties_even_nearest n d hi Hd).
  nia.
Qed.

Lemma Number_div_spec a b :
  0 < a -> 0 < b -> a <= 2 ^ 52 * b ->
  exists k,
    0 <= k <= 53 + Z.log2 b
    /\ 2 ^ 52 * b <= a * 2 ^ k < 2 ^ 53 * b
    /\ (Number_div a b == round_ties_even (a * 2 ^ k) b # Z.to_pos (2 ^ k))%Q.
Proof.
  intros Ha Hb Hab. unfold Number_div. cbv beta zeta.
  destruct (Z.eqb_spec a 0) as [|_]; [lia|].
  destruct (Z.log2_spec a Ha) as [Ha1 Ha2].
  destruct (Z.log2_spec b Hb) as [Hb1 Hb2].
  pose proof (Z.log2_nonneg a) as Hla. pose proof (Z.log2_nonneg b) as Hlb.
  set (la := Z.log2 a) in *. set (lb := Z.log2 b) in *.
  assert (Hk0 : 0 <= 52 + lb - la).
  { assert (2 ^ la < 2 ^ (53 + lb)).
    { rewrite Z.pow_add_r by lia. rewrite Z.pow_succ_r in Hb2 by lia. lia. }
    apply Z.pow_lt_mono_r_iff in H; lia. }
  set (k0 := 52 + lb - la) in *.
  assert (Hpow : 2 ^ la * 2 ^ k0 = 2 ^ 52 * 2 ^ lb).
  { rewrite <- !Z.pow_add_r by lia. f_equal. lia. }
  rewrite Z.pow_succ_r in Ha2, Hb2 by lia.
  assert (HT : 0 < 2 ^ k0) by (apply Z.pow_pos_nonneg; lia).
  assert (HA : 0 < 2 ^ la) by (apply Z.pow_pos_nonneg; lia).
  assert (HB : 0 < 2 ^ lb) by (apply Z.pow_pos_nonneg; lia).
  rewrite (Z.max_r 0 k0), (Z.max_l 0 (- k0)), Z.pow_0_r, Z.mul_1_r by lia.
  destruct (Z.leb_spec (2 ^ 52 * b) (a * 2 ^ k0)) as [Hle|Hgt].
  - exists k0.
    rewrite (Z.max_r 0 k0), (Z.max_l 0 (- k0)), Z.pow_0_r, !Z.mul_1_r by lia.
    split; [lia|]. split; [nia|]. apply Qred_correct.
  - exists (k0 + 1).
    rewrite (Z.max_r 0 (k0 + 1)), (Z.max_l 0 (- (k0 + 1))), Z.pow_0_r,
      !Z.mul_1_r by lia.
    split; [lia|]. split; [|apply Qred_correct].
    rewrite Z.pow_add_r, Z.pow_1_r by lia. nia.
Qed.

Lemma Qabs_diff_le (x1 x2 a : Z) (p1 p2 pq : positive) :
  Z.abs (x1 * Zpos pq - a * Zpos p1) * Zpos p2
  <= Z.abs (x2 * Zpos pq - a * Zpos p2) * Zpos p1 ->
  (Qabs ((x1 # p1) - (a # pq)) <= Qabs ((x2 # p2) - (a # pq)))%Q.
Proof.
  intros H. unfold Qle, Qabs, Qminus, Qplus, Qopp. cbn [Qnum Qden].
  rewrite !Pos2Z.inj_mul.
  replace (x1 * Zpos pq + - a * Zpos p1) with (x1 * Zpos pq - a * Zpos p1) by lia.
  replace (x2 * Zpos pq + - a * Zpos p2) with (x2 * Zpos pq - a * Zpos p2) by lia.
  pose proof (Pos2Z.is_pos pq). nia.
Qed.

Lemma Qpower2_nonneg e : 0 <= e -> (2 ^ e == inject_Z (2 ^ e))%Q.
Proof. intros He. symmetry. apply (Zpower_Qpower 2 e He). Qed.

Lemma Qpower2_neg e : 0 < e -> (2 ^ (- e) == 1 # Z.to_pos (2 ^ e))%Q.
Proof.
  intros He. rewrite Qpower_opp, Qpower2_nonneg by lia.
  assert (Hp : 0 < 2 ^ e) by (apply Z.pow_pos_nonneg; lia).
  destruct (2 ^ e) as [|p|p]; try lia. reflexivity.
Qed.

Lemma Qdiv_inject a b : 0 < b -> (inject_Z a / inject_Z b == a # Z.to_pos b)%Q.
Proof.
  intros Hb. destruct b as [|p|p]; try lia.
  unfold Qdiv, Qinv, Qmult, inject_Z, Qeq. cbn. lia.
Qed.

(** No number of 53 significant bits, whatever its exponent, is nearer to
    the quotient. *)
Lemma Number_div_nearest a b M E y :
  0 < a -> 0 < b -> a <= 2 ^ 52 * b ->
  Z.abs M < 2 ^ 53 -> (y == inject_Z M * 2 ^ E)%Q ->
  (Qabs (Number_div a b - inject_Z a / inject_Z b)
   <= Qabs (y - inject_Z a / inject_Z b))%Q.
Proof.
  intros Ha Hb Hab HM Hy.
  destruct (Number_div_spec a b Ha Hb Hab) as (k & Hk & Hscale & Hx).
  rewrite Hx, Hy, (Qdiv_inject a b Hb). clear Hx Hy.
  set (m := round_ties_even (a * 2 ^ k) b).
  assert (Hnear : forall j, Z.abs (m * b - a * 2 ^ k) <= Z.abs (j * b - a * 2 ^ k))
    by (intros j; apply round_ties_even_nearest, Hb).
  assert (HP : 0 < 2 ^ k) by (apply Z.pow_pos_nonneg; lia).
  assert (HbP : Zpos (Z.to_pos b) = b) by (apply Z2Pos.id, Hb).
  assert (HkP : Zpos (Z.to_pos (2 ^ k)) = 2 ^ k) by (apply Z2Pos.id, HP).
  destruct (Z.le_gt_cases 0 E) as [HE|HE].
  - (* the double is an integer *)
    rewrite Qpower2_nonneg, <- inject_Z_mult by assumption.
    apply Qabs_diff_le. rewrite HbP, HkP.
    specialize (Hnear (M * 2 ^ E * 2 ^ k)). nia.
  - replace E with (- - E) by lia. rewrite Qpower2_neg by lia.
    assert (HpP : 0 < 2 ^ (- E)) by (apply Z.pow_pos_nonneg; lia).
    assert (Hy : (inject_Z M * (1 # Z.to_pos (2 ^ (- E))) == M # Z.to_pos (2 ^ (- E)))%Q).
    { unfold Qmult, inject_Z, Qeq. cbn [Qnum Qden]. rewrite Pos.mul_1_l. lia. }
    rewrite Hy. apply Qabs_diff_le.
    rewrite HbP, HkP, (Z2Pos.id _ HpP).
    destruct (Z.le_gt_cases (- E) k) as [Hle|Hgt].
    + (* a multiple of the unit in the last place *)
      assert (Hsplit : 2 ^ k = 2 ^ (- E) * 2 ^ (k - - E)).
      { rewrite <- Z.pow_add_r by lia. f_equal. lia. }
      specialize (Hnear (M * 2 ^ (k - - E))).
      assert (HR : 0 < 2 ^ (k - - E)) by (apply Z.pow_pos_nonneg; lia).
      rewrite Hsplit in *.
      set (P := 2 ^ (- E)) in *. set (R := 2 ^ (k - - E)) in *.
      assert (Habs : Z.abs (M * R * b - a * (P * R))
                     = Z.abs (M * b - a * P) * R).
      { rewrite <- (Z.abs_eq R) at 3 by lia. rewrite <- Z.abs_mul.
        f_equal. ring. }
      rewrite Habs in Hnear.
      apply Z.le_trans with (Z.abs (M * b - a * P) * R * P);
        [apply Z.mul_le_mono_nonneg_r; lia|lia].
    + (* below 2^52, the least significand *)
      assert (Hsplit : 2 ^ (- E) = 2 ^ k * 2 ^ (- E - k)).
      { rewrite <- Z.pow_add_r by lia. f_equal. lia. }
      assert (H2 : 2 <= 2 ^ (- E - k)).
      { change 2 with (2 ^ 1) at 1. apply Z.pow_le_mono_r; lia. }
      specialize (Hnear (2 ^ 52)).
      rewrite Hsplit.
      set (P := 2 ^ k) in *. set (R := 2 ^ (- E - k)) in *.
      assert (Hlow : Z.abs (m * b - a * P) <= a * P - 2 ^ 52 * b) by lia.
      assert (Hhigh : a * (P * R) - M * b <= Z.abs (M * b - a * (P * R))) by lia.
      assert (HMb : M * b <= 2 ^ 52 * b * R) by nia.
      apply Z.le_trans with ((a * P - 2 ^ 52 * b) * (P * R));
        [apply Z.mul_le_mono_nonneg_r; nia|].
      apply Z.le_trans with ((a * (P * R) - M * b) * P);
        [nia|apply Z.mul_le_mono_nonneg_r; lia].
Qed.

Lemma Qpower2_frac m k :
  0 <= k -> (inject_Z m * 2 ^ (- k) == m # Z.to_pos (2 ^ k))%Q.
Proof.
  intros Hk. destruct (Z.eq_dec k 0) as [->|Hnz].
  - change (2 ^ (- 0))%Q with 1%Q. change (Z.to_pos (2 ^ 0)) with 1%positive.
    rewrite Qmult_1_r. reflexivity.
  - rewrite Qpower2_neg by lia. unfold Qeq, Qmult, inject_Z.
    cbn [Qnum Qden]. rewrite Pos.mul_1_l. lia.
Qed.

Lemma Number_div_is_double a b :
  0 < a -> 0 < b -> a <= 2 ^ 52 * b -> b < 2 ^ 32 ->
  is_double (Number_div a b).
Proof.
  intros Ha Hb Hab Hsmall.
  destruct (Number_div_spec a b Ha Hb Hab) as (k & Hk & Hscale & Hx).
  assert (Hlog : Z.log2 b < 32) by (apply Z.log2_lt_pow2; lia).
  pose proof (round_ties_even_bounds (a * 2 ^ k) b (2 ^ 52) (2 ^ 53) Hb
                ltac:(lia)) as Hm.
  set (m := round_ties_even (a * 2 ^ k) b) in *.
  destruct (Z.eq_dec m (2 ^ 53)) as [E|NE].
  - exists (2 ^ 52), (1 - k). split; [lia|]. split; [lia|].
    rewrite Hx. replace (1 - k) with (1 + - k) by lia.
    rewrite Qpower_plus by discriminate.
    change (2 ^ 1)%Q with (inject_Z 2).
    rewrite Qmult_assoc, <- inject_Z_mult, Qpower2_frac by lia.
    rewrite E. reflexivity.
  - exists m, (- k). split; [lia|]. split; [lia|].
    rewrite Hx, Qpower2_frac by lia. reflexivity.
Qed.

Lemma Number_div_bounds a b lo hi :
  0 < a -> 0 < b -> a <= 2 ^ 52 * b -> lo * b <= a <= hi * b ->
  (inject_Z lo <= Number_div a b)%Q /\ (Number_div a b <= inject_Z hi)%Q.
Proof.
  intros Ha Hb Hab Hlohi.
  destruct (Number_div_spec a b Ha Hb Hab) as (k & Hk & Hscale & Hx).
  assert (HP : 0 < 2 ^ k) by (apply Z.pow_pos_nonneg; lia).
  pose proof (round_ties_even_bounds (a * 2 ^ k) b (lo * 2 ^ k) (hi * 2 ^ k) Hb
                ltac:(nia)) as Hm.
  rewrite Hx. unfold Qle, inject_Z. cbn [Qnum Qden].
  rewrite (Z2Pos.id _ HP). lia.
Qed.


Lemma is_double_0 : is_double 0.
Proof. exists 0, 0. split; [reflexivity|]. split; [lia|reflexivity]. Qed.

Lemma Number_div_0 b : Number_div 0 b = 0%Q.
Proof. reflexivity. Qed.

(** The division of the model gives the double nearest to the quotient. *)
Lemma Number_div_nearest_double a b :
  0 <= a -> 0 < b -> a <= 2 ^ 52 * b -> b < 2 ^ 32 ->
  nearest_double (Number_div a b) (inject_Z a / inject_Z b).
Proof.
  intros Ha Hb Hab Hsmall. destruct (Z.eq_dec a 0) as [->|Hnz].
  - rewrite Number_div_0. split; [apply is_double_0|]. intros y _.
    assert (Hz : (0 - inject_Z 0 / inject_Z b == 0)%Q).
    { unfold Qdiv. change (inject_Z 0) with 0%Q. ring. }
    rewrite Hz. apply Qabs_nonneg.
  - split; [apply Number_div_is_double; lia|].
    intros y (M & E & HM & _ & Hy).
    apply (Number_div_nearest a b M E y); try assumption. lia.
Qed.

Lemma Number_div_range a b lo hi :
  0 <= a -> 0 < b -> a <= 2 ^ 52 * b -> lo <= 0 <= hi ->
  lo * b <= a <= hi * b ->
  (inject_Z lo <= Number_div a b)%Q /\ (Number_div a b <= inject_Z hi)%Q.
Proof.
  intros Ha Hb Hab H0 Hlohi. destruct (Z.eq_dec a 0) as [->|Hnz].
  - rewrite Number_div_0. change 0%Q with (inject_Z 0).
    rewrite <- !Zle_Qle. lia.
  - apply Number_div_bounds; try assumption. lia.
Qed.

(** * Sorting *)

Lemma sort_insert_perm {A} (comparefn : A -> A -> option Z) a l :
  Permutation (sort_insert comparefn a l) (a :: l).
Proof.
  induction l as [|b l IH]; cbn [sort_insert]; [reflexivity|].
  destruct (SortCompare comparefn a b <=? 0); [reflexivity|].
  rewrite IH. apply perm_swap.
Qed.

Lemma Array_sort_perm {A} (comparefn : A -> A -> option Z) l :
  Permutation (Array_sort comparefn l) l.
Proof.
  induction l as [|a l IH]; [reflexivity|].
  cbn [Array_sort foldr]. fold (Array_sort comparefn l).
  rewrite sort_insert_perm, IH. reflexivity.
Qed.












(** The binary insertion sort reorders: it loses and adds nothing,
    whatever the comparator answers. *)
Lemma binary_insert_perm {A} (comparefn : A -> A -> option Z) sorted pivot :
  Permutation (binary_insert comparefn sorted pivot) (pivot :: sorted).
Proof.
  unfold binary_insert.
  set (i := binary_search _ _ _ _ _ _).
  rewrite <- Permutation_middle, take_drop. reflexivity.
Qed.

Lemma binary_insertion_sort_perm {A} (comparefn : A -> A -> option Z) l :
  Permutation (binary_insertion_sort comparefn l) l.
Proof.
  unfold binary_insertion_sort.
  assert (H : forall acc,
    Permutation (fold_left (binary_insert comparefn) l acc) (acc ++ l)).
  { induction l as [|a l IH]; intros acc; cbn [fold_left].
    - rewrite app_nil_r. reflexivity.
    - rewrite IH, binary_insert_perm.
      rewrite <- Permutation_middle. reflexivity. }
  apply (H []).
Qed.

Lemma host_sort_perm l : Permutation (host_sort l) l.
Proof. apply binary_insertion_sort_perm. Qed.

(** On the batch of two ties the binary insertion sort gives the stable
    order. *)
Lemma host_sort_ties :
  host_sort example_ties = Array_sort newest_first example_ties.
Proof. reflexivity. Qed.

(** * The greedy grouping *)

(** What one scan does, when it returns: it appends to the member list the
    ids of some candidates [ms], marks them assigned, and adds their
    distances [ds] to the total. *)
Lemma scan_candidates_inv article threshold candidates :
  forall memberIds assigned total memberIds' assigned' total',
  scan_candidates article threshold candidates memberIds assigned total
  = Ok (memberIds', assigned', total') ->
  exists ms ds,
    memberIds' = memberIds ++ ids ms
    /\ assigned' = list_to_set (ids ms) ∪ assigned
    /\ total' = total + sum_list ds
    /\ Forall2
         (fun m d =>
            calculateHammingDistance (ArticleInput.simHash article)
              (ArticleInput.simHash m) = Ok d)
         ms ds
    /\ NoDup (ids ms)
    /\ (forall m, In m ms ->
          In m candidates
          /\ ArticleInput.id m <> ArticleInput.id article
          /\ ArticleInput.id m ∉ assigned).
Proof.
  induction candidates as [|c rest IH];
    intros memberIds assigned total memberIds' assigned' total' Hrun.
  - cbn in Hrun. injection Hrun as <- <- <-.
    exists [], []. cbn [map sum_list foldr list_to_set].
    split; [rewrite app_nil_r; reflexivity|].
    split; [symmetry; apply (left_id_L (∅ : gset (list Z)) (∪))|].
    split; [lia|].
    split; [constructor|]. split; [constructor|]. intros m [].
  - cbn [scan_candidates] in Hrun.
    destruct (bool_decide (ArticleInput.id c = ArticleInput.id article)
              || bool_decide (ArticleInput.id c ∈ assigned)) eqn:Eskip.
    { destruct (IH _ _ _ _ _ _ Hrun) as (ms & ds & Hm & Ha & Ht & Hds & Hnd & Hms).
      exists ms, ds. do 5 (split; [assumption|]).
      intros m Hin. destruct (Hms m Hin) as (Hin' & Hne & Hnot).
      repeat split; [right|..]; assumption. }
    apply orb_false_elim in Eskip as [Hid Hasg].
    apply bool_decide_eq_false in Hid, Hasg.
    destruct (calculateHammingDistance (ArticleInput.simHash article)
                (ArticleInput.simHash c)) as [d| |] eqn:Ed;
      cbn [result_bind] in Hrun; try discriminate.
    destruct (d <=? threshold).
    + destruct (IH _ _ _ _ _ _ Hrun)
        as (ms & ds & -> & -> & -> & Hds & Hnd & Hms).
      exists (c :: ms), (d :: ds). cbn [map sum_list foldr list_to_set].
      fold (sum_list ds).
      split; [rewrite <- app_assoc; reflexivity|].
      split.
      { rewrite (assoc_L (∪)), (comm_L (∪) (list_to_set (ids ms))).
        reflexivity. }
      split; [lia|].
      split; [constructor; assumption|].
      split.
      * apply NoDup_cons. split; [|assumption].
        rewrite list_elem_of_In, in_map_iff. intros (m & Hm & Hin).
        apply Hms in Hin as (_ & _ & Hnot). apply Hnot. rewrite Hm.
        apply elem_of_union_l, elem_of_singleton. reflexivity.
      * intros m [<-|Hin]; [repeat split; auto; left; reflexivity|].
        apply Hms in Hin as (Hin' & Hne & Hnot).
        split; [right; assumption|]. split; [assumption|].
        intros Hin. apply Hnot, elem_of_union_r, Hin.
    + destruct (IH _ _ _ _ _ _ Hrun) as (ms & ds & Hm & Ha & Ht & Hds & Hnd & Hms).
      exists ms, ds. do 5 (split; [assumption|]).
      intros m Hin. destruct (Hms m Hin) as (Hin' & Hne & Hnot).
      repeat split; [right|..]; assumption.
Qed.

Lemma scan_candidates_total article threshold candidates :
  hash_length_ok article -> Forall hash_length_ok candidates ->
  forall memberIds assigned total,
  exists st,
    scan_candidates article threshold candidates memberIds assigned total
    = Ok st.
Proof.
  intros Ha. induction 1 as [|c rest Hc _ IH]; intros memberIds assigned total.
  - eexists. reflexivity.
  - cbn [scan_candidates].
    destruct (bool_decide _ || bool_decide _); [apply IH|].
    destruct (calculateHammingDistance_total _ _ Ha Hc) as [d ->].
    cbn [result_bind]. destruct (d <=? threshold); apply IH.
Qed.

Lemma no_members x : In x (all_members []) <-> x ∈ (∅ : gset (list Z)).
Proof.
  split; [intros []|]. intros H. apply elem_of_empty in H. destruct H.
Qed.

Lemma all_members_snoc groups g :
  all_members (groups ++ [g]) = all_members groups ++ ArticleGroup.memberIds g.
Proof.
  unfold all_members. rewrite map_app, concat_app. cbn. rewrite app_nil_r.
  reflexivity.
Qed.

(** The invariant of the outer loop: the member lists built so far hold
    exactly the assigned ids, each once.  When the loop returns, the ids of
    all articles it was given are members, and every member is the id of
    an article. *)
Lemma build_groups_inv sorted threshold todo :
  forall groups assigned groups',
  build_groups sorted threshold todo groups assigned = Ok groups' ->
  NoDup (all_members groups) ->
  (forall x, In x (all_members groups) <-> x ∈ assigned) ->
  (forall a, In a todo -> In a sorted) ->
  exists new,
    groups' = groups ++ new
    /\ NoDup (all_members groups')
    /\ (forall a, In a todo -> In (ArticleInput.id a) (all_members groups'))
    /\ (forall x, In x (all_members groups') ->
          In x (all_members groups) \/ In x (ids sorted)).
Proof.
  induction todo as [|article rest IH];
    intros groups assigned groups' Hrun Hnd Hasg Hsub.
  - cbn in Hrun. injection Hrun as <-. exists []. rewrite app_nil_r.
    repeat split; auto. contradiction.
  - cbn [build_groups] in Hrun.
    assert (Hrest : forall a, In a rest -> In a sorted)
      by (intros a Ha; apply Hsub; right; exact Ha).
    destruct (bool_decide (ArticleInput.id article ∈ assigned)) eqn:Edone.
    { apply bool_decide_eq_true in Edone.
      destruct (IH _ _ _ Hrun Hnd Hasg Hrest)
        as (new & Hg & Hnd' & Hall & Hback).
      exists new. repeat split; try assumption.
      intros a [<-|Ha]; [|apply Hall, Ha].
      rewrite Hg. unfold all_members. rewrite map_app, concat_app.
      apply in_or_app. left. apply Hasg, Edone. }
    apply bool_decide_eq_false in Edone.
    destruct (scan_candidates article threshold sorted
                [ArticleInput.id article] assigned 0)
      as [[[memberIds assigned'] total]| |] eqn:Escan;
      cbn [result_bind] in Hrun; try discriminate.
    destruct (scan_candidates_inv _ _ _ _ _ _ _ _ _ Escan)
      as (ms & ds & -> & -> & -> & Hds & Hndms & Hms).
    set (g := ArticleGroup.make _ _ _ _) in Hrun.
    assert (Hmem : ArticleGroup.memberIds g
                   = ArticleInput.id article :: ids ms) by reflexivity.
    assert (Hfresh : forall x, In x (ArticleInput.id article :: ids ms) ->
                               x ∉ assigned).
    { intros x [<-|Hx]; [exact Edone|].
      apply in_map_iff in Hx as (m & <- & Hm). apply Hms, Hm. }
    destruct (IH (groups ++ [g])
                ({[ArticleInput.id article]} ∪
                 (list_to_set (ids ms) ∪ assigned)) groups' Hrun)
      as (new & Hg & Hnd' & Hall & Hback).
    + rewrite all_members_snoc, Hmem. apply NoDup_app.
      split; [exact Hnd|]. split.
      * intros x Hx Hx'. apply list_elem_of_In in Hx, Hx'.
        apply (Hfresh x Hx'), Hasg, Hx.
      * apply NoDup_cons. split; [|exact Hndms].
        rewrite list_elem_of_In, in_map_iff. intros (m & Hm & Hin).
        apply Hms in Hin as (_ & Hne & _). congruence.
    + intros x. rewrite all_members_snoc, Hmem, in_app_iff, Hasg.
      cbn [In]. rewrite !elem_of_union, elem_of_singleton,
        elem_of_list_to_set, list_elem_of_In.
      split; intros H; repeat destruct H as [H|H]; auto.
    + exact Hrest.
    + exists (g :: new).
      split; [rewrite Hg, <- app_assoc; reflexivity|].
      split; [exact Hnd'|]. split.
      * intros a [<-|Ha]; [|apply Hall, Ha].
        rewrite Hg. unfold all_members. rewrite !map_app, !concat_app.
        apply in_or_app. left. apply in_or_app. right. cbn [map concat].
        rewrite Hmem. left. reflexivity.
      * intros x Hx. destruct (Hback x Hx) as [Hx'|Hx']; [|right; exact Hx'].
        rewrite all_members_snoc, Hmem in Hx'.
        apply in_app_or in Hx' as [Hx'|[<-|Hx']]; [left; exact Hx'| |].
        -- right. apply in_map, Hsub. left. reflexivity.
        -- right. apply in_map_iff in Hx' as (m & <- & Hm).
           apply in_map, Hms, Hm.
Qed.

Lemma build_groups_total sorted threshold todo :
  Forall hash_length_ok sorted -> Forall hash_length_ok todo ->
  forall groups assigned,
  exists groups', build_groups sorted threshold todo groups assigned = Ok groups'.
Proof.
  intros Hs. induction 1 as [|article rest Ha _ IH]; intros groups assigned.
  - eexists. reflexivity.
  - cbn [build_groups]. destruct (bool_decide _); [apply IH|].
    destruct (scan_candidates_total article threshold sorted Ha Hs
                [ArticleInput.id article] assigned 0) as [[[m a] t] ->].
    cbn [result_bind]. apply IH.
Qed.

Lemma fingerprint_length_ok articles :
  Forall (fun a => is_fingerprint (ArticleInput.simHash a) = true) articles ->
  Forall hash_length_ok articles.
Proof.
  apply List.Forall_impl. intros a Ha.
  apply is_fingerprint_spec in Ha. apply Ha.
Qed.

(** One scan, in full: the candidates it adds are within the threshold
    and are taken in the order of the candidates, and every candidate it
    leaves unassigned is farther away. *)
Lemma scan_candidates_full article threshold candidates :
  forall memberIds assigned total memberIds' assigned' total',
  scan_candidates article threshold candidates memberIds assigned total
  = Ok (memberIds', assigned', total') ->
  exists ms ds,
    memberIds' = memberIds ++ ids ms
    /\ assigned' = list_to_set (ids ms) ∪ assigned
    /\ total' = total + sum_list ds
    /\ Forall2
         (fun m d =>
            calculateHammingDistance (ArticleInput.simHash article)
              (ArticleInput.simHash m) = Ok d)
         ms ds
    /\ Forall (fun d => d <= threshold) ds
    /\ Forall
         (fun m =>
            In m candidates
            /\ ArticleInput.id m <> ArticleInput.id article
            /\ ArticleInput.id m ∉ assigned)
         ms
    /\ (forall c, In c candidates ->
          ArticleInput.id c <> ArticleInput.id article ->
          ArticleInput.id c ∉ assigned' ->
          far_apart threshold article c)
    /\ ms `sublist_of` candidates.
Proof.
  induction candidates as [|c rest IH];
    intros memberIds assigned total memberIds' assigned' total' Hrun.
  - cbn in Hrun. injection Hrun as <- <- <-.
    exists [], []. cbn [map sum_list foldr list_to_set].
    split; [rewrite app_nil_r; reflexivity|].
    split; [symmetry; apply (left_id_L (∅ : gset (list Z)) (∪))|].
    split; [lia|]. do 3 (split; [constructor|]).
    split; [intros c []|constructor].
  - cbn [scan_candidates] in Hrun.
    destruct (bool_decide (ArticleInput.id c = ArticleInput.id article)
              || bool_decide (ArticleInput.id c ∈ assigned)) eqn:Eskip.
    { destruct (IH _ _ _ _ _ _ Hrun)
        as (ms & ds & Hm & Ha & Ht & Hds & Hle & Hms & Hfar & Hsl).
      exists ms, ds. do 5 (split; [assumption|]). split; [|split].
      - eapply List.Forall_impl; [|exact Hms].
        intros m (Hin & Hne & Hnot). repeat split; [right|..]; assumption.
      - intros x [<-|Hx] Hne Hnot; [|apply Hfar; assumption].
        exfalso. apply orb_prop in Eskip as [E|E];
          apply bool_decide_eq_true in E; [contradiction|].
        apply Hnot. rewrite Ha. apply elem_of_union_r, E.
      - apply sublist_cons, Hsl. }
    apply orb_false_elim in Eskip as [Hid Hasg].
    apply bool_decide_eq_false in Hid, Hasg.
    destruct (calculateHammingDistance (ArticleInput.simHash article)
                (ArticleInput.simHash c)) as [d| |] eqn:Ed;
      cbn [result_bind] in Hrun; try discriminate.
    destruct (Z.leb_spec d threshold) as [Hd|Hd].
    + destruct (IH _ _ _ _ _ _ Hrun)
        as (ms & ds & -> & -> & -> & Hds & Hle & Hms & Hfar & Hsl).
      exists (c :: ms), (d :: ds). cbn [map sum_list foldr list_to_set].
      fold (sum_list ds).
      split; [rewrite <- app_assoc; reflexivity|].
      split.
      { rewrite (assoc_L (∪)), (comm_L (∪) (list_to_set (ids ms))).
        reflexivity. }
      split; [lia|].
      split; [constructor; assumption|].
      split; [constructor; assumption|].
      split; [|split].
      * constructor; [repeat split; auto; left; reflexivity|].
        eapply List.Forall_impl; [|exact Hms].
        intros m (Hin & Hne & Hnot). split; [right; assumption|].
        split; [assumption|]. intros Hin'. apply Hnot, elem_of_union_r, Hin'.
      * intros x [<-|Hx] Hne Hnot; [|apply Hfar; assumption].
        exfalso. apply Hnot, elem_of_union_r, elem_of_union_l, elem_of_singleton.
        reflexivity.
      * apply sublist_skip, Hsl.
    + destruct (IH _ _ _ _ _ _ Hrun)
        as (ms & ds & Hm & Ha & Ht & Hds & Hle & Hms & Hfar & Hsl).
      exists ms, ds. do 5 (split; [assumption|]). split; [|split].
      * eapply List.Forall_impl; [|exact Hms].
        intros m (Hin & Hne & Hnot). repeat split; [right|..]; assumption.
      * intros x [<-|Hx] Hne Hnot; [|apply Hfar; assumption].
        exists d. split; [exact Ed|lia].
      * apply sublist_cons, Hsl.
Qed.

Lemma sublist_In {A} (l1 l2 : list A) x :
  l1 `sublist_of` l2 -> In x l1 -> In x l2.
Proof.
  intros Hs Hx. apply list_elem_of_In. eapply elem_of_sublist; [|exact Hs].
  apply list_elem_of_In, Hx.
Qed.

(** A sublist that has no element of a prefix is a sublist of the
    rest. *)
Lemma sublist_drop_prefix {A} (l pre k : list A) :
  l `sublist_of` pre ++ k -> (forall x, In x pre -> ~ In x l) ->
  l `sublist_of` k.
Proof.
  induction pre as [|p pre IH]; intros Hs Hnot; [exact Hs|].
  cbn [app] in Hs. apply sublist_cons_r in Hs as [Hs|(l' & -> & Hs)].
  - apply IH; [exact Hs|]. intros x Hx. apply Hnot. right. exact Hx.
  - exfalso. apply (Hnot p); left; reflexivity.
Qed.

(** The outer loop, in full.  The articles already visited are assigned.
    The new groups list clusters whose centers are taken from the
    articles to do, in their order, each with its members after it in
    that order; the groups are numbered from the number of groups so far;
    members are within the threshold of their center; and every center
    is farther than the threshold from the centers and the members of all
    later clusters. *)
Lemma build_groups_full sorted threshold todo :
  forall visited groups assigned groups',
  sorted = visited ++ todo ->
  Forall (fun a => ArticleInput.id a ∈ assigned) visited ->
  build_groups sorted threshold todo groups assigned = Ok groups' ->
  exists new clusters,
    groups' = groups ++ new
    /\ Forall2 built new clusters
    /\ map ArticleGroup.id new
       = map cluster_id (seq (length groups + 1) (length new))
    /\ map center clusters `sublist_of` todo
    /\ Forall
         (fun cl =>
            incl (members cl) sorted
            /\ Forall (fun d => d <= threshold) (distances cl)
            /\ (ArticleInput.id (center cl) ∉ assigned)
            /\ Forall
                 (fun m =>
                    (ArticleInput.id m ∉ assigned)
                    /\ ArticleInput.id m <> ArticleInput.id (center cl))
                 (members cl)
            /\ (center cl :: members cl) `sublist_of` todo)
         clusters
    /\ ForallOrdPairs
         (fun cl1 cl2 =>
            far_apart threshold (center cl1) (center cl2)
            /\ Forall (far_apart threshold (center cl1)) (members cl2))
         clusters
    /\ (forall a rest, todo = a :: rest -> ArticleInput.id a ∉ assigned ->
        exists cl cls, clusters = cl :: cls /\ center cl = a).
Proof.
  induction todo as [|article rest IH];
    intros visited groups assigned groups' Hsorted Hvisited Hrun.
  - cbn in Hrun. injection Hrun as <-. exists [], []. rewrite app_nil_r.
    split; [reflexivity|]. do 2 (split; [constructor|]).
    split; [constructor|]. do 2 (split; [constructor|]).
    intros a rest' E. discriminate.
  - cbn [build_groups] in Hrun.
    assert (Hnext : sorted = (visited ++ [article]) ++ rest)
      by (rewrite <- app_assoc; exact Hsorted).
    assert (Hrest : forall a, In a rest -> In a sorted).
    { intros a Ha. rewrite Hsorted. apply in_or_app. right. right. exact Ha. }
    destruct (bool_decide (ArticleInput.id article ∈ assigned)) eqn:Edone.
    { apply bool_decide_eq_true in Edone.
      assert (Hvisited' : Forall (fun a => ArticleInput.id a ∈ assigned)
                            (visited ++ [article])).
      { apply Forall_app. split; [exact Hvisited|]. repeat constructor.
        exact Edone. }
      destruct (IH (visited ++ [article]) groups assigned groups'
                  Hnext Hvisited' Hrun)
        as (new & clusters & Hg & Hdesc & Hids & Hsl & Hcl & Hfar & _).
      exists new, clusters. do 3 (split; [assumption|]).
      split; [apply sublist_cons, Hsl|]. split; [|split; [assumption|]].
      - eapply List.Forall_impl; [|exact Hcl].
        intros cl (H1 & H2 & H3 & H4 & H5). do 4 (split; [assumption|]).
        apply sublist_cons, H5.
      - intros a rest' [= <- <-] Hnot. contradiction. }
    apply bool_decide_eq_false in Edone.
    destruct (scan_candidates article threshold sorted
                [ArticleInput.id article] assigned 0)
      as [[[memberIds assigned'] total]| |] eqn:Escan;
      cbn [result_bind] in Hrun; try discriminate.
    destruct (scan_candidates_full _ _ _ _ _ _ _ _ _ Escan)
      as (ms & ds & -> & -> & -> & Hds & Hle & Hms & Hscan & Hmsl).
    set (g := ArticleGroup.make _ _ _ _) in Hrun.
    set (assigned' := list_to_set (ids ms) ∪ assigned) in *.
    assert (Hvisited' : Forall
              (fun a => ArticleInput.id a
                        ∈ {[ArticleInput.id article]} ∪ assigned')
              (visited ++ [article])).
    { apply Forall_app. split.
      - eapply List.Forall_impl; [|exact Hvisited]. intros a Ha.
        apply elem_of_union_r, elem_of_union_r, Ha.
      - repeat constructor. apply elem_of_union_l, elem_of_singleton.
        reflexivity. }
    destruct (IH (visited ++ [article]) (groups ++ [g])
                ({[ArticleInput.id article]} ∪ assigned') groups'
                Hnext Hvisited' Hrun)
      as (new & clusters & Hg & Hdesc & Hids & Hsl & Hcl & Hfar & _).
    assert (Hweak : forall x,
              x ∉ {[ArticleInput.id article]} ∪ assigned' ->
              x <> ArticleInput.id article
              /\ (x ∉ assigned') /\ (x ∉ assigned)).
    { intros x Hx. split; [|split].
      - intros ->. apply Hx, elem_of_union_l, elem_of_singleton. reflexivity.
      - intros Hin. apply Hx, elem_of_union_r, Hin.
      - intros Hin. apply Hx, elem_of_union_r, elem_of_union_r, Hin. }
    assert (Hafter : ms `sublist_of` rest).
    { apply (sublist_drop_prefix ms (visited ++ [article]) rest).
      - rewrite <- Hnext. exact Hmsl.
      - rewrite List.Forall_forall in Hms, Hvisited.
        intros x Hx Hin. destruct (Hms x Hin) as (_ & Hne & Hnot).
        apply in_app_or in Hx as [Hx|[<-|[]]]; [|congruence].
        apply Hnot, Hvisited, Hx. }
    exists (g :: new), (mkCluster article ms ds :: clusters).
    split; [rewrite Hg, <- app_assoc; reflexivity|].
    split.
    { constructor; [|exact Hdesc].
      unfold built, group_of. cbn [center members distances].
      unfold g. cbn [ArticleGroup.centerArticleId ArticleGroup.memberIds
                       ArticleGroup.averageDistance app].
      split; [split; [reflexivity|split; [reflexivity|exact Hds]]|].
      rewrite Z.add_0_l. reflexivity. }
    split.
    { cbn [map length seq]. f_equal. rewrite Hids, length_app. cbn [length].
      replace (length groups + 1 + 1)%nat with (S (length groups + 1)) by lia.
      reflexivity. }
    split; [cbn [map center]; apply sublist_skip, Hsl|].
    split.
    { constructor.
      - cbn [center members distances]. split.
        + intros m Hm. rewrite List.Forall_forall in Hms. apply Hms, Hm.
        + split; [exact Hle|]. split; [exact Edone|]. split.
          * eapply List.Forall_impl; [|exact Hms]. intros m (_ & Hne & Hnot).
            split; assumption.
          * apply sublist_skip, Hafter.
      - eapply List.Forall_impl; [|exact Hcl].
        intros cl (Hincl & Hdle & Hc & Hm & Hord). do 2 (split; [assumption|]).
        split; [apply Hweak, Hc|]. split.
        + eapply List.Forall_impl; [|exact Hm]. intros m [Hnot Hne].
          split; [apply Hweak, Hnot|exact Hne].
        + apply sublist_cons, Hord. }
    split.
    { constructor; [|exact Hfar]. cbn [center].
      rewrite List.Forall_forall in Hcl. apply List.Forall_forall.
      intros cl Hin. destruct (Hcl cl Hin) as (Hincl & _ & Hc & Hm & _). split.
      - destruct (Hweak _ Hc) as (Hne & Hnot & _).
        apply Hscan; [|assumption..]. apply Hrest.
        eapply sublist_In; [exact Hsl|]. apply in_map, Hin.
      - rewrite List.Forall_forall in Hm. apply List.Forall_forall.
        intros m Hmin. destruct (Hm m Hmin) as [Hnot _].
        destruct (Hweak _ Hnot) as (Hne & Hnot' & _).
        apply Hscan; [apply Hincl, Hmin|assumption..]. }
    intros a rest' [= <- <-] _. eexists _, _. split; reflexivity.
Qed.

(** The validated comparator returns a number in [0, 64] or throws its
    format error, and nothing else. *)
Lemma calculateHammingDistance_outcome a b :
  (exists d, calculateHammingDistance a b = Ok d /\ 0 <= d <= 64)
  \/ calculateHammingDistance a b = Throw FormatError.
Proof.
  destruct (Nat.eq_dec (length a) 16%nat) as [Ha|Ha];
    [destruct (Nat.eq_dec (length b) 16%nat) as [Hb|Hb]|].
  - left. apply calculateHammingDistance_range; assumption.
  - right. apply calculateHammingDistance_throws. auto.
  - right. apply calculateHammingDistance_throws. auto.
Qed.

Lemma scan_candidates_outcome article threshold candidates :
  forall memberIds assigned total,
  (exists st,
     scan_candidates article threshold candidates memberIds assigned total
     = Ok st)
  \/ scan_candidates article threshold candidates memberIds assigned total
     = Throw FormatError.
Proof.
  induction candidates as [|c rest IH]; intros memberIds assigned total.
  - left. eexists. reflexivity.
  - cbn [scan_candidates].
    destruct (bool_decide _ || bool_decide _); [apply IH|].
    destruct (calculateHammingDistance_outcome (ArticleInput.simHash article)
                (ArticleInput.simHash c)) as [(d & -> & _)| ->];
      cbn [result_bind]; [|right; reflexivity].
    destruct (d <=? threshold); apply IH.
Qed.

Lemma build_groups_outcome sorted threshold todo :
  forall groups assigned,
  (exists groups',
     build_groups sorted threshold todo groups assigned = Ok groups')
  \/ build_groups sorted threshold todo groups assigned = Throw FormatError.
Proof.
  induction todo as [|article rest IH]; intros groups assigned.
  - left. eexists. reflexivity.
  - cbn [build_groups]. destruct (bool_decide _); [apply IH|].
    destruct (scan_candidates_outcome article threshold sorted
                [ArticleInput.id article] assigned 0) as [[[[m a] t] ->]| ->];
      cbn [result_bind]; [apply IH|right; reflexivity].
Qed.

Lemma Forall2_exists_r {A B} (R : A -> B -> Prop) (l : list A) (k : list B) :
  Forall2 R l k -> Forall (fun x => exists y, R x y /\ In y k) l.
Proof.
  induction 1 as [|x y l k Hxy _ IH]; constructor.
  - exists y. split; [exact Hxy|left; reflexivity].
  - eapply List.Forall_impl; [|exact IH]. intros a (b & Hab & Hb).
    exists b. split; [exact Hab|right; exact Hb].
Qed.

Lemma calculateHammingDistance_Ok_range a b d :
  calculateHammingDistance a b = Ok d -> 0 <= d <= 64.
Proof.
  intros H. destruct (calculateHammingDistance_outcome a b)
    as [(d' & Hd' & Hr)|Ht]; congruence.
Qed.

Lemma sum_list_bounds lo hi ds :
  Forall (fun d => lo <= d <= hi) ds ->
  lo * Z.of_nat (length ds) <= sum_list ds <= hi * Z.of_nat (length ds).
Proof.
  induction 1 as [|d ds Hd _ IH]; [cbn; lia|].
  cbn [sum_list foldr length]. fold (sum_list ds).
  rewrite Nat2Z.inj_succ. lia.
Qed.

Lemma distances_in_range c ms ds threshold :
  Forall2
    (fun m d =>
       calculateHammingDistance (ArticleInput.simHash c)
         (ArticleInput.simHash m) = Ok d)
    ms ds ->
  Forall (fun d => d <= threshold) ds ->
  Forall (fun d => 0 <= d <= threshold) ds.
Proof.
  induction 1 as [|m d ms ds Hd _ IH]; intros Hle; constructor.
  - apply calculateHammingDistance_Ok_range in Hd.
    inversion Hle; subst. lia.
  - apply IH. inversion Hle; assumption.
Qed.


Lemma Forall2_In_l {A B} (R : A -> B -> Prop) l k x :
  Forall2 R l k -> In x l -> exists y, In y k /\ R x y.
Proof.
  induction 1 as [|a b l k Hab _ IH]; intros []; subst.
  - exists b. split; [left; reflexivity|exact Hab].
  - destruct IH as (y & Hy & Hxy); [assumption|].
    exists y. split; [right; exact Hy|exact Hxy].
Qed.

Lemma distances_range c ms ds :
  Forall2
    (fun m d =>
       calculateHammingDistance (ArticleInput.simHash c)
         (ArticleInput.simHash m) = Ok d)
    ms ds ->
  Forall (fun d => 0 <= d <= 64) ds.
Proof.
  induction 1 as [|m d ms ds Hd _ IH]; constructor; [|exact IH].
  apply calculateHammingDistance_Ok_range in Hd. exact Hd.
Qed.

(** The average of a group that was built, when there is a member besides
    the center: the division of the total by the number of distances. *)
Lemma built_average g cl :
  built g cl -> distances cl <> [] ->
  ArticleGroup.averageDistance g
  = Number_div (sum_list (distances cl)) (Z.of_nat (length (distances cl))).
Proof.
  intros [(_ & Hmem & Hds) Havg] Hne. rewrite Havg, Hmem. unfold average.
  cbn [length]. rewrite length_map, (Forall2_length _ _ _ Hds).
  destruct (distances cl) as [|d ds]; [congruence|]. cbn [length].
  destruct (Nat.ltb_spec 1 (S (S (length ds)))) as [_|H]; [|lia].
  f_equal. lia.
Qed.

Lemma built_alone g cl :
  built g cl -> distances cl = [] -> ArticleGroup.averageDistance g = 0%Q.
Proof.
  intros [(_ & Hmem & Hds) Havg] Hnil. rewrite Havg, Hmem. unfold average.
  cbn [length]. rewrite length_map, (Forall2_length _ _ _ Hds), Hnil.
  reflexivity.
Qed.

Lemma built_describes g cl : built g cl -> describes g cl.
Proof.
  intros Hb. pose proof Hb as [Hg _]. split; [exact Hg|].
  split; [apply built_alone, Hb|]. intros Hlen.
  destruct Hg as (_ & _ & Hds). apply distances_range in Hds.
  pose proof (sum_list_bounds 0 64 _ Hds) as Hsum.
  destruct (distances cl) as [|d ds] eqn:E.
  - rewrite (built_alone g cl Hb E). split; [apply is_double_0|].
    intros y _. apply Qabs_nonneg.
  - rewrite (built_average g cl Hb) by (rewrite E; discriminate).
    rewrite E. unfold mean.
    apply Number_div_nearest_double; cbn [length] in *; lia.
Qed.

Lemma built_average_bounds g cl threshold :
  built g cl -> Forall (fun d => 0 <= d <= threshold) (distances cl) ->
  (0 <= ArticleGroup.averageDistance g)%Q
  /\ (0 <= threshold ->
      (ArticleGroup.averageDistance g <= inject_Z threshold)%Q).
Proof.
  intros Hb Hrange. pose proof Hb as [(_ & _ & Hds) _].
  apply distances_range in Hds.
  pose proof (sum_list_bounds 0 64 _ Hds) as Hsum.
  pose proof (sum_list_bounds 0 threshold _ Hrange) as Hsum'.
  destruct (distances cl) as [|d ds] eqn:E.
  - rewrite (built_alone g cl Hb E). split; [apply Qle_refl|].
    intros Ht. rewrite (Zle_Qle 0 threshold) in Ht. exact Ht.
  - rewrite (built_average g cl Hb) by (rewrite E; discriminate).
    rewrite E. assert (0 <= threshold) by (inversion Hrange; lia).
    destruct (Number_div_range (sum_list (d :: ds))
                (Z.of_nat (length (d :: ds))) 0 threshold) as [Hlo Hhi];
      try (cbn [length] in *; lia).
    split; [exact Hlo|]. intros _. exact Hhi.
Qed.


Lemma built_all_describes groups clusters :
  Forall2 built groups clusters -> Forall2 describes groups clusters.
Proof.
  induction 1 as [|g cl groups clusters Hb _ IH]; constructor;
    [apply built_describes, Hb|exact IH].
Qed.

(** * The grouping, whatever the host's sort does on an array with an
    invalid date *)

Section Grouping.

Variable host_order : list ArticleInput.t -> list ArticleInput.t.

(** The order the host gives to an array is an order of the elements of
    the array. *)
Hypothesis host_order_perm : forall l, Permutation (host_order l) l.

Lemma sort_newest_first_perm l :
  Permutation (sort_newest_first host_order l) l.
Proof.
  unfold sort_newest_first.
  destruct (forallb has_date l); [apply Array_sort_perm|apply host_order_perm].
Qed.


Lemma sort_newest_first_one a : sort_newest_first host_order [a] = [a].
Proof.
  apply Permutation_length_1_inv. symmetry. apply sort_newest_first_perm.
Qed.

Lemma groupArticlesBySimilarity_sorted articles threshold :
  articles <> [] ->
  groupArticlesBySimilarity host_order articles threshold
  = build_groups (sort_newest_first host_order articles) threshold
      (sort_newest_first host_order articles) [] ∅.
Proof. intros H. destruct articles; [congruence|reflexivity]. Qed.

Lemma grouping_total articles threshold :
  Forall hash_length_ok articles ->
  exists groups,
    groupArticlesBySimilarity host_order articles threshold = Ok groups.
Proof.
  intros Hlen. destruct articles as [|a0 l] eqn:E; [eexists; reflexivity|].
  rewrite <- E in *.
  rewrite groupArticlesBySimilarity_sorted by (subst; discriminate).
  assert (Hs : Forall hash_length_ok (sort_newest_first host_order articles)).
  { rewrite (sort_newest_first_perm articles). exact Hlen. }
  apply build_groups_total; exact Hs.
Qed.

(** The clusters behind the groups that are returned. *)
Lemma groupArticlesBySimilarity_clusters articles threshold groups :
  groupArticlesBySimilarity host_order articles threshold = Ok groups ->
  exists clusters,
    Forall2 built groups clusters
    /\ map ArticleGroup.id groups = map cluster_id (seq 1 (length groups))
    /\ map center clusters `sublist_of` sort_newest_first host_order articles
    /\ Forall
         (fun cl =>
            incl (members cl) articles
            /\ Forall (fun d => d <= threshold) (distances cl)
            /\ Forall
                 (fun m => ArticleInput.id m <> ArticleInput.id (center cl))
                 (members cl)
            /\ (center cl :: members cl)
               `sublist_of` sort_newest_first host_order articles)
         clusters
    /\ ForallOrdPairs
         (fun cl1 cl2 =>
            far_apart threshold (center cl1) (center cl2)
            /\ Forall (far_apart threshold (center cl1)) (members cl2))
         clusters
    /\ (forall newest rest,
          sort_newest_first host_order articles = newest :: rest ->
          exists cl cls, clusters = cl :: cls /\ center cl = newest).
Proof.
  intros Hrun. destruct articles as [|a0 l] eqn:E.
  { cbn in Hrun. injection Hrun as <-. exists [].
    do 2 (split; [constructor|]). split; [constructor|].
    do 2 (split; [constructor|]). intros newest rest Hs.
    pose proof (sort_newest_first_perm []) as Hp. rewrite Hs in Hp.
    apply Permutation_sym, Permutation_nil in Hp. discriminate. }
  rewrite <- E in *. assert (Hne : articles <> []) by (subst; discriminate).
  clear E. rewrite groupArticlesBySimilarity_sorted in Hrun by assumption.
  set (sorted := sort_newest_first host_order articles) in *.
  assert (Hperm : Permutation sorted articles) by apply sort_newest_first_perm.
  destruct (build_groups_full sorted threshold sorted [] [] ∅ groups
              eq_refl (Forall_nil_2 _) Hrun)
    as (new & clusters & Hg & Hdesc & Hids & Hsl & Hcl & Hfar & Hfirst).
  cbn [app] in Hg. subst new. exists clusters.
  split; [exact Hdesc|]. split; [exact Hids|]. split; [exact Hsl|].
  split; [|split; [exact Hfar|]].
  - eapply List.Forall_impl; [|exact Hcl].
    intros cl (Hincl & Hle & _ & Hm & Hord). split; [|split; [exact Hle|split]].
    + intros m Hin. apply (Permutation_in _ Hperm), Hincl, Hin.
    + eapply List.Forall_impl; [|exact Hm]. intros m [_ Hm']. exact Hm'.
    + exact Hord.
  - intros newest rest Hs. apply (Hfirst newest rest Hs), not_elem_of_empty.
Qed.

Lemma grouping_members articles threshold groups :
  groupArticlesBySimilarity host_order articles threshold = Ok groups ->
  NoDup (all_members groups)
  /\ forall x, In x (all_members groups) <-> In x (ids articles).
Proof.
  intros Hrun. destruct articles as [|a0 l] eqn:E.
  { cbn in Hrun. injection Hrun as <-. split; [constructor|]. reflexivity. }
  rewrite <- E in *. assert (Hne : articles <> []) by (subst; discriminate).
  clear E. rewrite groupArticlesBySimilarity_sorted in Hrun by assumption.
  set (sorted := sort_newest_first host_order articles) in *.
  assert (Hperm : Permutation sorted articles) by apply sort_newest_first_perm.
  destruct (build_groups_inv sorted threshold sorted [] ∅ groups Hrun)
    as (new & _ & Hnd & Hall & Hback);
    [constructor|apply no_members|auto|].
  split; [exact Hnd|]. intros x. split.
  - intros Hx. destruct (Hback x Hx) as [[]|Hx'].
    apply in_map_iff in Hx' as (a & <- & Ha). apply in_map.
    apply (Permutation_in _ Hperm), Ha.
  - intros Hx. apply in_map_iff in Hx as (a & <- & Ha).
    apply Hall. apply (Permutation_in _ (Permutation_sym Hperm)), Ha.
Qed.

Lemma cluster_center_in articles clusters cl :
  map center clusters `sublist_of` sort_newest_first host_order articles ->
  In cl clusters -> In (center cl) articles.
Proof.
  intros Hsl Hin. apply (Permutation_in _ (sort_newest_first_perm articles)).
  eapply sublist_In; [exact Hsl|]. apply in_map, Hin.
Qed.

(** C3: on a batch with pairwise distinct ids and well-formed
    fingerprints the grouping returns clusters whose member lists, put
    together, are the ids of the batch, each exactly once; the empty batch
    gives the empty cluster list. *)
Theorem groupArticlesBySimilarity_partition
    (articles : list ArticleInput.t) (threshold : Z) :
  NoDup (ids articles) ->
  Forall (fun a => is_fingerprint (ArticleInput.simHash a) = true) articles ->
  groupArticlesBySimilarity host_order [] threshold = Ok []
  /\ exists groups,
       groupArticlesBySimilarity host_order articles threshold = Ok groups
       /\ Permutation (all_members groups) (ids articles)
       /\ NoDup (all_members groups).
Proof.
  intros Hnd Hfp. split; [reflexivity|].
  destruct (grouping_total articles threshold (fingerprint_length_ok _ Hfp))
    as [groups Hrun].
  destruct (grouping_members _ _ _ Hrun) as [Hnd' Hiff].
  exists groups. split; [exact Hrun|]. split; [|exact Hnd'].
  apply NoDup_Permutation; [exact Hnd'|exact Hnd|].
  intros x. rewrite !list_elem_of_In. apply Hiff.
Qed.


(** * The grouping on the store *)

(** A run on a store whose reference [r] holds the array [articles]: every
    object that existed keeps its value; the outcome is the one of the
    function of the array value; on success the returned reference is new
    and holds the groups. *)
Lemma groupArticlesBySimilarity_ref_run (h : store) (r : ref)
    (articles : list ArticleInput.t) (threshold : Z) :
  h !! r = Some (ArticleArray articles) ->
  exists h',
    snd (groupArticlesBySimilarity_ref host_order r threshold h) = h'
    /\ (forall r', r' ∈ dom h -> h' !! r' = h !! r')
    /\ (match groupArticlesBySimilarity host_order articles threshold with
        | Ok gs =>
            exists ret,
              fst (groupArticlesBySimilarity_ref host_order r threshold h) = Ok ret
              /\ (ret ∉ dom h)
              /\ h' !! ret = Some (GroupArray gs)
        | Throw e =>
            fst (groupArticlesBySimilarity_ref host_order r threshold h) = Throw e
        | OutOfFuel =>
            fst (groupArticlesBySimilarity_ref host_order r threshold h) = OutOfFuel
        end).
Proof.
  intros Hr.
  assert (Hfresh : forall (m : store) r', r' ∈ dom m -> r' <> fresh (dom m)).
  { intros m r' Hin ->. exact (is_fresh (dom m) Hin). }
  destruct articles as [|a0 articles0] eqn:Earts.
  { assert (Hrun : groupArticlesBySimilarity_ref host_order r threshold h
                     = (Ok (fresh (dom h)),
                        <[fresh (dom h) := GroupArray []]> h)).
    { unfold groupArticlesBySimilarity_ref, bind, read_articles, alloc.
      rewrite Hr. reflexivity. }
    rewrite Hrun. cbn [fst snd].
    eexists; split; [reflexivity|]. split.
    - intros r' Hin. apply lookup_insert_ne. apply not_eq_sym, Hfresh, Hin.
    - cbn. exists (fresh (dom h)). split; [reflexivity|].
      split; [apply is_fresh|apply lookup_insert_eq]. }
  rewrite <- Earts in *. assert (Hne : articles <> []) by (subst; discriminate).
  assert (Hlen : Nat.eqb (length articles) 0 = false)
    by (subst; reflexivity).
  clear Earts.
  rewrite groupArticlesBySimilarity_sorted by assumption.
  set (g := fresh (dom h)).
  set (h1 := <[g := GroupArray []]> h).
  set (c := fresh (dom h1)).
  set (h2 := <[c := ArticleArray articles]> h1).
  set (sorted := sort_newest_first host_order articles).
  set (h3 := <[c := ArticleArray sorted]> h2).
  assert (Hg : g ∉ dom h) by apply is_fresh.
  assert (Hc : c ∉ dom h1) by apply is_fresh.
  assert (Hcg : c <> g).
  { intros E. apply Hc. rewrite E. unfold h1. rewrite dom_insert_L.
    apply elem_of_union_l, elem_of_singleton. reflexivity. }
  assert (Hkeep : forall r', r' ∈ dom h -> h3 !! r' = h !! r').
  { intros r' Hin.
    assert (r' <> g) by (intros ->; contradiction).
    assert (r' <> c).
    { intros ->. apply Hc. unfold h1. rewrite dom_insert_L.
      apply elem_of_union_r, Hin. }
    unfold h3, h2, h1. rewrite !lookup_insert_ne by congruence. reflexivity. }
  assert (Hrun : groupArticlesBySimilarity_ref host_order r threshold h
                 = match build_groups sorted threshold sorted [] ∅ with
                   | Ok gs => (Ok g, <[g := GroupArray gs]> h3)
                   | Throw e => (Throw e, h3)
                   | OutOfFuel => (OutOfFuel, h3)
                   end).
  { unfold groupArticlesBySimilarity_ref, bind, read_articles, alloc,
      sort_in_place, lift, store_groups, ret.
    rewrite Hr, Hlen. fold g. fold h1. fold c. fold h2.
    unfold h2 at 1. rewrite lookup_insert_eq. fold sorted. fold h3.
    unfold h3 at 1. rewrite lookup_insert_eq.
    destruct (build_groups sorted threshold sorted [] ∅); reflexivity. }
  rewrite Hrun.
  destruct (build_groups sorted threshold sorted [] ∅) as [gs|e|];
    cbn [fst snd].
  - eexists; split; [reflexivity|]. split.
    + intros r' Hin. rewrite lookup_insert_ne; [apply Hkeep, Hin|].
      intros ->. contradiction.
    + exists g. split; [reflexivity|]. split; [exact Hg|apply lookup_insert_eq].
  - exists h3. repeat split; assumption.
  - exists h3. repeat split; assumption.
Qed.

Lemma returned_groups_run (h : store) (r : ref)
    (articles : list ArticleInput.t) (threshold : Z) :
  h !! r = Some (ArticleArray articles) ->
  returned_groups (groupArticlesBySimilarity_ref host_order r threshold h)
  = groupArticlesBySimilarity host_order articles threshold.
Proof.
  intros Hr.
  destruct (groupArticlesBySimilarity_ref_run h r articles threshold Hr)
    as (h' & Hsnd & _ & Hout).
  destruct (groupArticlesBySimilarity_ref host_order r threshold h) as [res hres].
  cbn [fst snd] in *. subst hres.
  destruct (groupArticlesBySimilarity host_order articles threshold) as [gs|e|].
  - destruct Hout as (ret & -> & _ & Hret). cbn [returned_groups].
    rewrite Hret. reflexivity.
  - rewrite Hout. reflexivity.
  - rewrite Hout. reflexivity.
Qed.

(** C9: the call leaves its input unchanged.  After a run on a store whose
    reference [r] holds the array [articles], [r] still holds the same
    articles in the same order, and so does every object that existed
    before (the sort works on a copy); when a reference is returned it is
    new, and it holds the groups computed from [articles]. *)
Theorem groupArticlesBySimilarity_leaves_input (h : store) (r : ref)
    (articles : list ArticleInput.t) (threshold : Z) :
  h !! r = Some (ArticleArray articles) ->
  snd (groupArticlesBySimilarity_ref host_order r threshold h) !! r
  = Some (ArticleArray articles)
  /\ (forall r', r' ∈ dom h ->
       snd (groupArticlesBySimilarity_ref host_order r threshold h) !! r' = h !! r')
  /\ (forall ret,
       fst (groupArticlesBySimilarity_ref host_order r threshold h) = Ok ret ->
       (ret ∉ dom h)
       /\ exists gs,
           snd (groupArticlesBySimilarity_ref host_order r threshold h) !! ret
           = Some (GroupArray gs)
           /\ groupArticlesBySimilarity host_order articles threshold = Ok gs).
Proof.
  intros Hr.
  destruct (groupArticlesBySimilarity_ref_run h r articles threshold Hr)
    as (h' & Hsnd & Hkeep & Hout).
  rewrite Hsnd. split; [|split].
  - rewrite Hkeep; [exact Hr|]. apply elem_of_dom. eexists. exact Hr.
  - exact Hkeep.
  - intros ret Hret.
    destruct (groupArticlesBySimilarity host_order articles threshold) as [gs|e|].
    + destruct Hout as (ret' & Hret' & Hnew & Hgs).
      assert (ret' = ret) as -> by congruence.
      split; [exact Hnew|]. exists gs. split; [exact Hgs|reflexivity].
    + congruence.
    + congruence.
Qed.

(** * Further properties of the grouping *)

(** X14: how the grouping fails.  It returns groups or throws the format
    error of the comparator, nothing else; it returns groups when every
    fingerprint has 16 characters, so a throw means that some fingerprint
    has not; and a batch of one article is never checked: it gives one
    group of one member whatever its fingerprint is. *)
Theorem groupArticlesBySimilarity_failure
    (articles : list ArticleInput.t) (threshold : Z) :
  ((exists groups,
      groupArticlesBySimilarity host_order articles threshold = Ok groups)
   \/ (groupArticlesBySimilarity host_order articles threshold
       = Throw FormatError
       /\ Exists (fun a => ~ hash_length_ok a) articles))
  /\ (Forall hash_length_ok articles ->
      exists groups,
        groupArticlesBySimilarity host_order articles threshold = Ok groups)
  /\ (forall a,
        groupArticlesBySimilarity host_order [a] threshold
        = Ok [ArticleGroup.make (cluster_id 1) (ArticleInput.id a)
                [ArticleInput.id a] 0%Q]).
Proof.
  split; [|split; [apply grouping_total|]].
  - destruct (List.Forall_Exists_dec hash_length_ok
                (fun a => Nat.eq_dec (length (ArticleInput.simHash a)) 16%nat)
                articles) as [Hall|Hbad];
      [left; apply grouping_total, Hall|].
    destruct articles as [|a0 l] eqn:E; [left; eexists; reflexivity|].
    rewrite <- E in *.
    rewrite groupArticlesBySimilarity_sorted by (subst; discriminate).
    destruct (build_groups_outcome (sort_newest_first host_order articles)
                threshold (sort_newest_first host_order articles) [] ∅)
      as [Hok| ->];
      [left; exact Hok|right; split; [reflexivity|exact Hbad]].
  - intros a. unfold groupArticlesBySimilarity.
    cbn [length Nat.eqb]. rewrite sort_newest_first_one.
    cbn [build_groups].
    rewrite bool_decide_false by (apply not_elem_of_empty).
    cbn [scan_candidates].
    rewrite (bool_decide_true (ArticleInput.id a = ArticleInput.id a))
      by reflexivity.
    cbn [orb result_bind build_groups]. reflexivity.
Qed.

(** X15: each id is listed once, duplicates or not.  Whenever groups are
    returned, no id occurs twice in their member lists, and the ids that
    occur are exactly the ids of the batch: of several articles with one
    id, one is listed. *)
Theorem groupArticlesBySimilarity_each_id_once
    (articles : list ArticleInput.t) (threshold : Z)
    (groups : list ArticleGroup.t) :
  groupArticlesBySimilarity host_order articles threshold = Ok groups ->
  NoDup (all_members groups)
  /\ forall x, In x (all_members groups) <-> In x (ids articles).
Proof. apply grouping_members. Qed.

(** X16: members are within the threshold.  In every group that is
    returned, each member besides the center is at a distance between 0
    and the threshold from the center, so the average distance is not
    negative and, for a threshold that is not negative, not above the
    threshold. *)
Theorem groupArticlesBySimilarity_within_threshold
    (articles : list ArticleInput.t) (threshold : Z)
    (groups : list ArticleGroup.t) :
  groupArticlesBySimilarity host_order articles threshold = Ok groups ->
  Forall
    (fun g =>
       exists c ms ds,
         In c articles /\ incl ms articles /\ group_of g c ms ds
         /\ Forall (fun d => 0 <= d <= threshold) ds
         /\ (0 <= ArticleGroup.averageDistance g)%Q
         /\ (0 <= threshold ->
             (ArticleGroup.averageDistance g <= inject_Z threshold)%Q))
    groups.
Proof.
  intros Hrun.
  destruct (groupArticlesBySimilarity_clusters _ _ _ Hrun)
    as (clusters & Hbuilt & _ & Hsl & Hcl & _ & _).
  rewrite List.Forall_forall in Hcl.
  eapply List.Forall_impl; [|exact (Forall2_exists_r _ _ _ Hbuilt)].
  intros g (cl & Hb & Hin).
  destruct (Hcl cl Hin) as (Hincl & Hle & _).
  pose proof Hb as [Hgroup _]. pose proof Hgroup as (_ & _ & Hds).
  pose proof (distances_in_range _ _ _ _ Hds Hle) as Hrange.
  exists (center cl), (members cl), (distances cl).
  split; [apply (cluster_center_in articles clusters cl Hsl Hin)|].
  do 3 (split; [assumption|]).
  apply (built_average_bounds g cl threshold Hb Hrange).
Qed.

(** X17: the greedy structure.  The groups that are returned list
    clusters in which every center is farther than the threshold from the
    center and from every member of each later cluster: no two centers are
    near-duplicates, and an article joins the first center, newest first,
    that is within the threshold. *)
Theorem groupArticlesBySimilarity_greedy
    (articles : list ArticleInput.t) (threshold : Z)
    (groups : list ArticleGroup.t) :
  groupArticlesBySimilarity host_order articles threshold = Ok groups ->
  exists clusters,
    Forall2 describes groups clusters
    /\ Forall (fun cl => In (center cl) articles /\ incl (members cl) articles)
         clusters
    /\ ForallOrdPairs
         (fun cl1 cl2 =>
            far_apart threshold (center cl1) (center cl2)
            /\ Forall (far_apart threshold (center cl1)) (members cl2))
         clusters.
Proof.
  intros Hrun.
  destruct (groupArticlesBySimilarity_clusters _ _ _ Hrun)
    as (clusters & Hbuilt & _ & Hsl & Hcl & Hfar & _).
  exists clusters. split; [apply built_all_describes, Hbuilt|].
  split; [|exact Hfar].
  rewrite List.Forall_forall in *. intros cl Hin. split.
  - apply (cluster_center_in articles clusters cl Hsl Hin).
  - apply (Hcl cl Hin).
Qed.


(** X19: with a negative threshold nothing is grouped: every group that
    is returned has its center as only member and average distance 0. *)
Theorem groupArticlesBySimilarity_negative_threshold
    (articles : list ArticleInput.t) (threshold : Z)
    (groups : list ArticleGroup.t) :
  threshold < 0 ->
  groupArticlesBySimilarity host_order articles threshold = Ok groups ->
  Forall
    (fun g =>
       ArticleGroup.memberIds g = [ArticleGroup.centerArticleId g]
       /\ ArticleGroup.averageDistance g = 0%Q)
    groups.
Proof.
  intros Hneg Hrun.
  destruct (groupArticlesBySimilarity_clusters _ _ _ Hrun)
    as (clusters & Hbuilt & _ & _ & Hcl & _ & _).
  rewrite List.Forall_forall in Hcl.
  eapply List.Forall_impl; [|exact (Forall2_exists_r _ _ _ Hbuilt)].
  intros g (cl & Hb & Hin).
  destruct (Hcl cl Hin) as (_ & Hle & _).
  pose proof Hb as [(Hc & Hmem & Hds) _].
  pose proof (distances_in_range _ _ _ _ Hds Hle) as Hrange.
  assert (Hnil : distances cl = []).
  { destruct (distances cl) as [|d ds]; [reflexivity|].
    inversion Hrange; subst. lia. }
  split; [|apply (built_alone g cl Hb Hnil)].
  rewrite Hnil in Hds. inversion Hds as [Hms|]; subst.
  rewrite Hmem, Hc, <- Hms. reflexivity.
Qed.

(** X20: with a threshold of 64 or more everything is grouped: a
    non-empty batch whose fingerprints have 16 characters gives exactly
    one group, and its members are the ids of the batch, each once. *)
Theorem groupArticlesBySimilarity_wide_threshold
    (articles : list ArticleInput.t) (threshold : Z) :
  64 <= threshold -> articles <> [] -> Forall hash_length_ok articles ->
  exists g,
    groupArticlesBySimilarity host_order articles threshold = Ok [g]
    /\ NoDup (ArticleGroup.memberIds g)
    /\ forall x, In x (ArticleGroup.memberIds g) <-> In x (ids articles).
Proof.
  intros Hwide Hne Hlen.
  pose proof (sort_newest_first_perm articles) as Hperm.
  destruct (grouping_total articles threshold Hlen) as [groups Hrun].
  destruct (groupArticlesBySimilarity_clusters _ _ _ Hrun)
    as (clusters & Hbuilt & _ & _ & _ & Hfar & Hfirst).
  destruct (sort_newest_first host_order articles) as [|newest rest] eqn:Es.
  { apply Permutation_nil in Hperm. contradiction. }
  destruct (Hfirst newest rest eq_refl) as (cl & cls & -> & _).
  destruct cls as [|cl2 cls].
  - inversion Hbuilt as [|g ? groups0 ? _ Hnil]; subst.
    inversion Hnil; subst. exists g. split; [exact Hrun|].
    destruct (grouping_members _ _ _ Hrun) as [Hnd Hiff].
    unfold all_members in Hnd, Hiff. cbn [map concat] in Hnd, Hiff.
    rewrite app_nil_r in Hnd, Hiff. split; assumption.
  - exfalso. inversion Hfar as [|? ? Hall _]; subst.
    inversion Hall as [|? ? [(d & Hd & Hgt) _] _]; subst.
    apply calculateHammingDistance_Ok_range in Hd. lia.
Qed.

(** X21: a group has diameter at most twice the threshold.  On a batch
    of well-formed fingerprints and for a threshold that is not negative,
    any two articles of one group, the center or a member, are at
    distance at most twice the threshold from each other. *)
Theorem groupArticlesBySimilarity_diameter
    (articles : list ArticleInput.t) (threshold : Z)
    (groups : list ArticleGroup.t) :
  0 <= threshold ->
  Forall (fun a => is_fingerprint (ArticleInput.simHash a) = true) articles ->
  groupArticlesBySimilarity host_order articles threshold = Ok groups ->
  Forall
    (fun g =>
       exists c ms ds,
         In c articles /\ incl ms articles /\ group_of g c ms ds
         /\ forall m1 m2, In m1 (c :: ms) -> In m2 (c :: ms) ->
              exists d,
                calculateHammingDistance (ArticleInput.simHash m1)
                  (ArticleInput.simHash m2) = Ok d
                /\ d <= 2 * threshold)
    groups.
Proof.
  intros Hpos Hfp Hrun.
  destruct (groupArticlesBySimilarity_clusters _ _ _ Hrun)
    as (clusters & Hbuilt & _ & Hsl & Hcl & _ & _).
  rewrite List.Forall_forall in Hcl, Hfp.
  eapply List.Forall_impl; [|exact (Forall2_exists_r _ _ _ Hbuilt)].
  intros g (cl & [Hgroup _] & Hin).
  destruct (Hcl cl Hin) as (Hincl & Hle & _).
  pose proof Hgroup as (_ & _ & Hds).
  assert (Hc : In (center cl) articles)
    by (apply (cluster_center_in articles clusters cl Hsl Hin)).
  exists (center cl), (members cl), (distances cl).
  do 3 (split; [assumption|]).
  assert (Hnear : forall m, In m (center cl :: members cl) ->
            In m articles
            /\ differing_bits 64
                 (hex_number (ArticleInput.simHash (center cl)))
                 (hex_number (ArticleInput.simHash m)) <= threshold).
  { intros m [<-|Hm].
    - split; [exact Hc|]. rewrite differing_bits_refl. exact Hpos.
    - split; [apply Hincl, Hm|].
      destruct (Forall2_In_l _ _ _ _ Hds Hm) as (d & Hd & Hdist).
      rewrite calculateHammingDistance_fingerprints in Hdist
        by (apply Hfp; auto).
      injection Hdist as ->. rewrite List.Forall_forall in Hle.
      apply Hle, Hd. }
  intros m1 m2 H1 H2.
  destruct (Hnear m1 H1) as [Hin1 Hd1]. destruct (Hnear m2 H2) as [Hin2 Hd2].
  rewrite calculateHammingDistance_fingerprints by (apply Hfp; auto).
  eexists. split; [reflexivity|].
  pose proof (differing_bits_triangle 64
                (hex_number (ArticleInput.simHash m1))
                (hex_number (ArticleInput.simHash (center cl)))
                (hex_number (ArticleInput.simHash m2))) as Htri.
  rewrite (differing_bits_comm 64 (hex_number (ArticleInput.simHash m1))
             (hex_number (ArticleInput.simHash (center cl)))) in Htri.
  lia.
Qed.

(** X23: the bound of X21 is attained, so two members of a group need not
    be within the threshold of each other.  For every threshold from 0 to
    32 there is a batch of three well-formed articles that gives one
    group, in which the two members besides the center are at distance
    exactly twice the threshold. *)
Theorem groupArticlesBySimilarity_diameter_attained (threshold : Z) :
  0 <= threshold <= 32 ->
  exists c m1 m2 g,
    spread_batch threshold = [c; m1; m2]
    /\ Forall (fun a => is_fingerprint (ArticleInput.simHash a) = true)
         [c; m1; m2]
    /\ groupArticlesBySimilarity host_order [c; m1; m2] threshold = Ok [g]
    /\ ArticleGroup.centerArticleId g = ArticleInput.id c
    /\ ArticleGroup.memberIds g = ids [c; m1; m2]
    /\ calculateHammingDistance (ArticleInput.simHash m1)
         (ArticleInput.simHash m2) = Ok (2 * threshold).
Proof.
  intros Ht.
  assert (Hn : exists n, (n <= 32)%nat /\ threshold = Z.of_nat n)
    by (exists (Z.to_nat threshold); lia).
  destruct Hn as (n & Hn & ->).
  do 33 (destruct n as [|n];
         [do 4 eexists; split; [reflexivity|]; split; [repeat constructor|];
          split; [vm_compute; reflexivity|];
          split; [reflexivity|]; split; [reflexivity|];
          vm_compute; reflexivity
         |]).
  lia.
Qed.

End Grouping.

(** * The theorems on concrete batches *)

Lemma groupArticlesBySimilarity_partition_witness :
  groupArticlesBySimilarity host_sort [] 3 = Ok []
  /\ exists groups,
       groupArticlesBySimilarity host_sort example_batch 3 = Ok groups
       /\ Permutation (all_members groups) (ids example_batch)
       /\ NoDup (all_members groups).
Proof.
  apply (groupArticlesBySimilarity_partition host_sort host_sort_perm
           example_batch 3).
  - apply (bool_decide_unpack _). vm_compute. exact I.
  - repeat constructor.
Defined.


Lemma groupArticlesBySimilarity_leaves_input_witness :
  snd (groupArticlesBySimilarity_ref host_sort 1%positive 3 example_store)
    !! 1%positive
  = Some (ArticleArray example_batch)
  /\ (forall r', r' ∈ dom example_store ->
       snd (groupArticlesBySimilarity_ref host_sort 1%positive 3
              example_store) !! r'
       = example_store !! r')
  /\ (forall ret,
       fst (groupArticlesBySimilarity_ref host_sort 1%positive 3
              example_store) = Ok ret ->
       (ret ∉ dom example_store)
       /\ exists gs,
           snd (groupArticlesBySimilarity_ref host_sort 1%positive 3
                  example_store) !! ret
           = Some (GroupArray gs)
           /\ groupArticlesBySimilarity host_sort example_batch 3 = Ok gs).
Proof.
  apply (groupArticlesBySimilarity_leaves_input host_sort
           example_store 1%positive example_batch 3).
  vm_compute. reflexivity.
Defined.

Lemma groupArticlesBySimilarity_failure_witness :
  ((exists groups,
      groupArticlesBySimilarity host_sort example_batch 3 = Ok groups)
   \/ (groupArticlesBySimilarity host_sort example_batch 3
       = Throw FormatError
       /\ Exists (fun a => ~ hash_length_ok a) example_batch))
  /\ (Forall hash_length_ok example_batch ->
      exists groups,
        groupArticlesBySimilarity host_sort example_batch 3 = Ok groups)
  /\ (forall a,
        groupArticlesBySimilarity host_sort [a] 3
        = Ok [ArticleGroup.make (cluster_id 1) (ArticleInput.id a)
                [ArticleInput.id a] 0%Q]).
Proof.
  exact (groupArticlesBySimilarity_failure host_sort host_sort_perm
           example_batch 3).
Defined.

Lemma groupArticlesBySimilarity_each_id_once_witness :
  NoDup (all_members
           [ArticleGroup.make (js "cluster-1") (js "a1") [js "a1"; js "a2"] 1%Q])
  /\ forall x,
       In x (all_members
               [ArticleGroup.make (js "cluster-1") (js "a1")
                  [js "a1"; js "a2"] 1%Q])
       <-> In x (ids example_duplicates).
Proof.
  apply (groupArticlesBySimilarity_each_id_once host_sort host_sort_perm
           example_duplicates 3).
  vm_compute. reflexivity.
Defined.

Lemma groupArticlesBySimilarity_within_threshold_witness :
  Forall
    (fun g =>
       exists c ms ds,
         In c example_batch /\ incl ms example_batch /\ group_of g c ms ds
         /\ Forall (fun d => 0 <= d <= 3) ds
         /\ (0 <= ArticleGroup.averageDistance g)%Q
         /\ (0 <= 3 -> (ArticleGroup.averageDistance g <= inject_Z 3)%Q))
    [ArticleGroup.make (js "cluster-1") (js "a1") [js "a1"; js "a2"] 1%Q;
     ArticleGroup.make (js "cluster-2") (js "a3") [js "a3"] 0%Q].
Proof.
  apply (groupArticlesBySimilarity_within_threshold host_sort host_sort_perm
           example_batch 3).
  vm_compute. reflexivity.
Defined.

Lemma groupArticlesBySimilarity_greedy_witness :
  exists clusters,
    Forall2 describes
      [ArticleGroup.make (js "cluster-1") (js "a1") [js "a1"; js "a2"] 1%Q;
       ArticleGroup.make (js "cluster-2") (js "a3") [js "a3"] 0%Q]
      clusters
    /\ Forall (fun cl => In (center cl) example_batch
                         /\ incl (members cl) example_batch)
         clusters
    /\ ForallOrdPairs
         (fun cl1 cl2 =>
            far_apart 3 (center cl1) (center cl2)
            /\ Forall (far_apart 3 (center cl1)) (members cl2))
         clusters.
Proof.
  apply (groupArticlesBySimilarity_greedy host_sort host_sort_perm
           example_batch 3).
  vm_compute. reflexivity.
Defined.


Lemma groupArticlesBySimilarity_negative_threshold_witness :
  Forall
    (fun g =>
       ArticleGroup.memberIds g = [ArticleGroup.centerArticleId g]
       /\ ArticleGroup.averageDistance g = 0%Q)
    [ArticleGroup.make (js "cluster-1") (js "a1") [js "a1"] 0%Q;
     ArticleGroup.make (js "cluster-2") (js "a2") [js "a2"] 0%Q;
     ArticleGroup.make (js "cluster-3") (js "a3") [js "a3"] 0%Q].
Proof.
  apply (groupArticlesBySimilarity_negative_threshold host_sort
           host_sort_perm example_batch (-1)).
  - lia.
  - vm_compute. reflexivity.
Defined.

Lemma groupArticlesBySimilarity_wide_threshold_witness :
  exists g,
    groupArticlesBySimilarity host_sort example_batch 64 = Ok [g]
    /\ NoDup (ArticleGroup.memberIds g)
    /\ forall x, In x (ArticleGroup.memberIds g) <-> In x (ids example_batch).
Proof.
  apply (groupArticlesBySimilarity_wide_threshold host_sort host_sort_perm
           example_batch 64).
  - lia.
  - discriminate.
  - repeat constructor.
Defined.

Lemma groupArticlesBySimilarity_diameter_witness :
  Forall
    (fun g =>
       exists c ms ds,
         In c example_star /\ incl ms example_star /\ group_of g c ms ds
         /\ forall m1 m2, In m1 (c :: ms) -> In m2 (c :: ms) ->
              exists d,
                calculateHammingDistance (ArticleInput.simHash m1)
                  (ArticleInput.simHash m2) = Ok d
                /\ d <= 2 * 1)
    [ArticleGroup.make (js "cluster-1") (js "c") [js "c"; js "m1"; js "m2"]
       1%Q].
Proof.
  apply (groupArticlesBySimilarity_diameter host_sort host_sort_perm
           example_star 1).
  - lia.
  - repeat constructor.
  - vm_compute. reflexivity.
Defined.

Lemma groupArticlesBySimilarity_diameter_attained_witness :
  exists c m1 m2 g,
    spread_batch 3 = [c; m1; m2]
    /\ Forall (fun a => is_fingerprint (ArticleInput.simHash a) = true)
         [c; m1; m2]
    /\ groupArticlesBySimilarity host_sort [c; m1; m2] 3 = Ok [g]
    /\ ArticleGroup.centerArticleId g = ArticleInput.id c
    /\ ArticleGroup.memberIds g = ids [c; m1; m2]
    /\ calculateHammingDistance (ArticleInput.simHash m1)
         (ArticleInput.simHash m2) = Ok (2 * 3).
Proof.
  apply (groupArticlesBySimilarity_diameter_attained host_sort 3). lia.
Defined.

(** * The order of the visit *)




(** * Further properties of the tokenizer *)

Lemma split_spaces_nonempty s : forall cur sep, split_spaces s cur sep <> [].
Proof.
  induction s as [|c s IH]; intros cur sep; cbn [split_spaces]; [discriminate|].
  destruct (is_space_char c); [destruct sep; [apply IH|discriminate]|apply IH].
Qed.

Lemma filter_all {A} (f : A -> bool) (l : list A) :
  (forall x, In x l -> f x = true) -> List.filter f l = l.
Proof.
  induction l as [|a l IH]; intros H; [reflexivity|].
  cbn [List.filter]. rewrite (H a) by (left; reflexivity).
  rewrite IH; [reflexivity|]. intros x Hx. apply H. right. exact Hx.
Qed.

Lemma filter_filter_leb (m1 m2 : Z) (l : list (list Z)) :
  m1 <= m2 ->
  List.filter (fun w => m2 <=? Z.of_nat (length w))
    (List.filter (fun w => m1 <=? Z.of_nat (length w)) l)
  = List.filter (fun w => m2 <=? Z.of_nat (length w)) l.
Proof.
  intros Hle. induction l as [|w l IH]; [reflexivity|].
  cbn [List.filter].
  destruct (Z.leb_spec m1 (Z.of_nat (length w))) as [H1|H1].
  - cbn [List.filter]. rewrite IH. reflexivity.
  - rewrite IH. destruct (Z.leb_spec m2 (Z.of_nat (length w))); [lia|].
    reflexivity.
Qed.

(** X22: the minimum length of [tokenize].  Every token has at least the
    minimum length and is made of word characters; raising the minimum
    only removes tokens (the tokens for a larger minimum are those for a
    smaller one that are long enough, in the same order); and with a
    minimum of 0 or less the result is never empty: the empty pieces of
    the split are kept. *)
Theorem tokenize_minLength
    (toLowerCase : jsstring -> jsstring) (text : jsstring) (m1 m2 : Z) :
  m1 <= m2 ->
  Forall
    (fun token =>
       m1 <= Z.of_nat (length token)
       /\ Forall (fun c => is_word_char c = true) token)
    (tokenize toLowerCase text m1)
  /\ tokenize toLowerCase text m2
     = List.filter (fun w => m2 <=? Z.of_nat (length w))
         (tokenize toLowerCase text m1)
  /\ (m1 <= 0 -> tokenize toLowerCase text m1 <> []).
Proof.
  intros Hle. unfold tokenize. split; [|split].
  - apply List.Forall_forall. intros token Hin.
    apply List.filter_In in Hin as [Hin Hlen]. split; [lia|].
    pose proof (split_spaces_chars (fun c => is_word_char c = true)
                  (replace_non_word (toLowerCase text)) [] false
                  (Forall_nil_2 _) (replace_non_word_chars _)) as Hall.
    rewrite List.Forall_forall in Hall. apply Hall, Hin.
  - rewrite filter_filter_leb by assumption. reflexivity.
  - intros H0. rewrite filter_all; [apply split_spaces_nonempty|].
    intros w _. apply Z.leb_le. lia.
Qed.

Lemma tokenize_minLength_witness :
  Forall
    (fun token =>
       0 <= Z.of_nat (length token)
       /\ Forall (fun c => is_word_char c = true) token)
    (tokenize ascii_lower (js " An apple, a day ") 0)
  /\ tokenize ascii_lower (js " An apple, a day ") 2
     = List.filter (fun w => 2 <=? Z.of_nat (length w))
         (tokenize ascii_lower (js " An apple, a day ") 0)
  /\ (0 <= 0 -> tokenize ascii_lower (js " An apple, a day ") 0 <> []).
Proof. apply (tokenize_minLength ascii_lower (js " An apple, a day ") 0 2). lia. Defined.
